(** * tinylang: the recursive-descent parser of [src/parser.cpp]

    A shallow embedding of namespace [parser] and theorems about the trees it
    builds.  The token source ([Lexer]) is an external collaborator of the
    parser; it is modelled here as the list of tokens that remain to be read.
    C++ pointers to [Expression] can be null, so every such pointer is an
    [option Expr]. *)

From Stdlib Require Import String Ascii List ZArith Bool Lia.
Import ListNotations.

Set Warnings "-register-all".

Local Open Scope string_scope.
Local Open Scope Z_scope.

(** ** Tokens and the token source *)

(** Modelled from the spec: the struct [Token] (declared outside
    [parser.cpp]), a kind and a text; the parser reads them as the strings
    [tok.type] and [tok.value]. *)
Record Token : Type := mkToken { type : string; value : string }.

(** Modelled from the spec: the class [Lexer] (declared outside [parser.cpp]),
    as the tokens that remain to be read. *)
Definition Lexer : Type := list Token.

(** Modelled from the spec: what [Lexer::peek] and [Lexer::next] hand out past
    the end of the stream, the token with empty [type] that the predicates of
    the parser test for. *)
Definition null_token : Token := mkToken EmptyString EmptyString.

(** Modelled from the spec: [Lexer::peek] returns the lookahead without
    advancing. *)
Definition peek (input : Lexer) : Token :=
  match input with
  | [] => null_token
  | tok :: _ => tok
  end.

(** Modelled from the spec: [Lexer::next] returns the lookahead and advances
    past it. *)
Definition next (input : Lexer) : Token * Lexer :=
  match input with
  | [] => (null_token, [])
  | tok :: rest => (tok, rest)
  end.

(** Modelled from the spec: [Lexer::eof] tells whether the stream is
    exhausted. *)
Definition eof (input : Lexer) : bool :=
  match input with
  | [] => true
  | _ :: _ => false
  end.

(** ** Outcomes of a parsing routine

    [Diag] is a message passed to [input->error]; [Throw] is a C++ standard
    library exception, which does not go through the lexer; [OutOfFuel] belongs
    to the model only. *)

Inductive Exception : Type :=
| std_out_of_range
| std_invalid_argument.

Inductive Result (A : Type) : Type :=
| Ok (a : A)
| Diag (msg : string)
| Throw (e : Exception)
| OutOfFuel.

Arguments Ok {A} a.
Arguments Diag {A} msg.
Arguments Throw {A} e.
Arguments OutOfFuel {A}.

Definition bind {A B : Type} (r : Result A) (k : A -> Result B) : Result B :=
  match r with
  | Ok a => k a
  | Diag msg => Diag msg
  | Throw e => Throw e
  | OutOfFuel => OutOfFuel
  end.

Notation "' p <- c1 ;; c2" :=
  (bind c1 (fun x => let p := x in c2))
    (at level 61, p pattern, c1 at next level, right associativity).

(** A routine reads the shared [input] and leaves it advanced. *)
Definition Parser (A : Type) : Type := Lexer -> Result (A * Lexer).

(** Modelled from the spec: [Lexer::error] reports a fatal diagnostic and
    never returns. *)
Definition error {A : Type} (msg : string) : Parser A := fun _ => Diag msg.

(** ** The syntax tree *)

(** [Parameter] in the source; that word is reserved here.  [Character] keeps
    the character whose code the source stores, [Program] and the top level
    keep the vector of an [AST]. *)
Record Param : Type := mkParam { ptype : string; pname : string }.

Inductive Expr : Type :=
| Number (n : Z)
| Boolean (b : bool)
| Character (c : ascii)
| String_ (s : string)
| Identifier (name : string)
| Assign (op : string) (left right : option Expr)
| Binary (op : string) (left right : option Expr)
| If (cond then_ els : option Expr)
| Closure (params : list string) (body : option Expr)
| Function (name : string) (params : list Param) (body : option Expr)
| Call (func : option Expr) (args : list (option Expr))
| Program (ast : list (option Expr)).

(** ** [OP_PRECEDENCE] *)

Definition OP_PRECEDENCE : list (string * Z) :=
  [ ("=", 1); ("||", 2); ("&&", 3); ("<", 7); (">", 7); ("<=", 7); (">=", 7);
    ("==", 7); ("!=", 7); ("+", 10); ("-", 10); ("*", 20); ("/", 20);
    ("%", 20) ].

Fixpoint find_key (key : string) (m : list (string * Z)) : option Z :=
  match m with
  | [] => None
  | (k, v) :: m' => if String.eqb k key then Some v else find_key key m'
  end.

(** [std::map::at]: the mapped value, or [std::out_of_range]. *)
Definition map_at (m : list (string * Z)) (key : string) : Result Z :=
  match find_key key m with
  | Some v => Ok v
  | None => Throw std_out_of_range
  end.

(** ** [std::stoi] and the first character of a string *)

Definition INT_MIN : Z := - 2147483648.
Definition INT_MAX : Z := 2147483647.

Definition isspace (c : ascii) : bool :=
  let n := nat_of_ascii c in
  (Nat.eqb n 32 || (Nat.leb 9 n && Nat.leb n 13))%bool.

Definition isdigit (c : ascii) : bool :=
  let n := nat_of_ascii c in (Nat.leb 48 n && Nat.leb n 57)%bool.

Fixpoint skip_spaces (s : string) : string :=
  match s with
  | String c s' => if isspace c then skip_spaces s' else s
  | EmptyString => s
  end.

(** The digits read so far ([seen]) and their value ([acc]). *)
Fixpoint read_digits (s : string) (seen : bool) (acc : Z) : option Z :=
  match s with
  | String c s' =>
      if isdigit c
      then read_digits s' true (10 * acc + Z.of_nat (nat_of_ascii c - 48))
      else if seen then Some acc else None
  | EmptyString => if seen then Some acc else None
  end.

Definition stoi (str : string) : Result Z :=
  let s := skip_spaces str in
  let '(negative, digits) :=
    match s with
    | String "-"%char s' => (true, s')
    | String "+"%char s' => (false, s')
    | _ => (false, s)
    end in
  match read_digits digits false 0 with
  | None => Throw std_invalid_argument
  | Some v =>
      let n := if negative then - v else v in
      if ((INT_MIN <=? n) && (n <=? INT_MAX))%bool then Ok n
      else Throw std_out_of_range
  end.

(** [s[0]]; for the empty string this is the terminating zero character. *)
Definition front (s : string) : ascii :=
  match s with
  | String c _ => c
  | EmptyString => zero
  end.

(** ** Messages *)

Definition dquote : string := String (ascii_of_nat 34) EmptyString.

Definition msg_unexpected (tok : Token) : string :=
  "Unexpected token " ++ dquote ++ value tok ++ dquote.

Definition msg_token_expected (ch : ascii) : string :=
  "Token '" ++ String ch EmptyString ++ "' expected".

Definition msg_keyword_expected (kw : string) : string :=
  "Keyword " ++ dquote ++ kw ++ dquote ++ " expected".

Definition msg_operator_expected (op : string) : string :=
  "Operator '" ++ op ++ "' expected".

(** ** Predicates on the lookahead and the [skip_] routines *)

Definition unexpected {A : Type} : Parser A :=
  fun input => error (msg_unexpected (peek input)) input.

Definition is_punc (ch : ascii) (input : Lexer) : bool :=
  let tok := peek input in
  (negb (String.eqb (type tok) EmptyString) && String.eqb (type tok) "punc"
   && (Ascii.eqb ch zero || Ascii.eqb (front (value tok)) ch))%bool.

Definition is_kw (kw : string) (input : Lexer) : bool :=
  let tok := peek input in
  (negb (String.eqb (type tok) EmptyString) && String.eqb (type tok) "kw"
   && (String.eqb kw EmptyString || String.eqb kw (value tok)))%bool.

Definition is_op (op : string) (input : Lexer) : bool :=
  let tok := peek input in
  (negb (String.eqb (type tok) EmptyString) && String.eqb (type tok) "op"
   && (String.eqb op EmptyString || String.eqb (value tok) op))%bool.

Definition skip_punc (ch : ascii) : Parser unit :=
  fun input =>
    if is_punc ch input then Ok (tt, snd (next input))
    else error (msg_token_expected ch) input.

Definition skip_kw (kw : string) : Parser unit :=
  fun input =>
    if is_kw kw input then Ok (tt, snd (next input))
    else error (msg_keyword_expected kw) input.

Definition skip_op (op : string) : Parser unit :=
  fun input =>
    if is_op op input then Ok (tt, snd (next input))
    else error (msg_operator_expected op) input.

(** ** [delimited]

    The [while] loop runs on fuel; one unit is spent per iteration.  The
    vector [list] of the source is [items]. *)

Fixpoint delimited_loop {T : Type} (fuel : nat) (end_ separator : ascii)
    (parser : Parser T) (first : bool) (items : list T) (input : Lexer)
  : Result (list T * Lexer) :=
  match fuel with
  | O => OutOfFuel
  | S fuel' =>
      if eof input then Ok (items, input)
      else if is_punc end_ input then Ok (items, input)
      else
        ' (_, input1) <-
           (if first then Ok (tt, input) else skip_punc separator input) ;;
        if is_punc end_ input1 then Ok (items, input1)
        else
          ' (item, input2) <- parser input1 ;;
          delimited_loop fuel' end_ separator parser false
            (items ++ [item]) input2
  end.

Definition delimited {T : Type} (fuel : nat) (start end_ separator : ascii)
    (parser : Parser T) : Parser (list T) :=
  fun input =>
    ' (_, input1) <- skip_punc start input ;;
    ' (items, input2) <-
       delimited_loop fuel end_ separator parser true [] input1 ;;
    ' (_, input3) <- skip_punc end_ input2 ;;
    Ok (items, input3).

(** ** The parsing routines *)

(** A pointer obtained from [new] is never null. *)
Definition upcast (p : Parser Expr) : Parser (option Expr) :=
  fun input => ' (e, input1) <- p input ;; Ok (Some e, input1).

Definition parse_bool : Parser Expr :=
  fun input =>
    let '(tok, input1) := next input in
    Ok (Boolean (String.eqb (value tok) "true"), input1).

Definition parse_varname : Parser string :=
  fun input =>
    let '(name, input1) := next input in
    if negb (String.eqb (type name) "var")
    then error "Variable name expected" input1
    else Ok (value name, input1).

Definition parse_param : Parser Param :=
  fun input =>
    let '(typetok, input1) := next input in
    if negb (String.eqb (type typetok) "var")
    then error "Type name expected" input1
    else if String.eqb (type (peek input1)) "var" then
      let '(nametok, input2) := next input1 in
      if negb (String.eqb (type nametok) "var")
      then error "Variable name expected" input2
      else Ok (mkParam (value typetok) (value nametok), input2)
    else Ok (mkParam (value typetok) EmptyString, input1).

(** ** Tokens of each kind the parser tests for *)

Definition punc (s : string) : Token := mkToken "punc" s.
Definition kw (s : string) : Token := mkToken "kw" s.
Definition op (s : string) : Token := mkToken "op" s.
Definition var (s : string) : Token := mkToken "var" s.
Definition num (s : string) : Token := mkToken "num" s.

Section Parser.

(** The two arguments of [new Closure(delimited(...), parse_prog())] both
    advance the input, and C++ leaves the order of their evaluation open.
    [closure_params_first] says whether the parameter list is read first. *)
Variable closure_params_first : bool.

Section Routines.

(** The routines below call [parse_expr] and [parse_prog], which are
    defined after them by mutual recursion; [fuel] bounds the loops of
    [delimited]. *)
Variable fuel : nat.
Variable parse_expr : Parser (option Expr).
Variable parse_prog : Parser (option Expr).

Definition parse_closure : Parser Expr :=
  fun input =>
    if closure_params_first then
      ' (params, input1) <-
         delimited fuel "(" ")" "," parse_varname input ;;
      ' (body, input2) <- parse_prog input1 ;;
      Ok (Closure params body, input2)
    else
      ' (body, input1) <- parse_prog input ;;
      ' (params, input2) <-
         delimited fuel "(" ")" "," parse_varname input1 ;;
      Ok (Closure params body, input2).

Definition parse_call (func : option Expr) : Parser Expr :=
  fun input =>
    ' (args, input1) <- delimited fuel "(" ")" "," parse_expr input ;;
    Ok (Call func args, input1).

Definition maybe_call (call : Parser (option Expr))
  : Parser (option Expr) :=
  fun input =>
    ' (result, input1) <- call input ;;
    if is_punc "(" input1 then upcast (parse_call result) input1
    else Ok (result, input1).

Definition parse_if : Parser Expr :=
  fun input =>
    ' (_, input1) <- skip_kw "if" input ;;
    ' (cond, input2) <- parse_expr input1 ;;
    ' (then_, input3) <- parse_expr input2 ;;
    if is_kw "else" input3 then
      ' (els, input4) <- parse_expr (snd (next input3)) ;;
      Ok (If cond then_ els, input4)
    else Ok (If cond then_ None, input3).

Definition parse_ext : Parser (option Expr) :=
  fun input =>
    ' (_, input1) <- skip_kw "ext" input ;;
    let '(funcname, input2) := next input1 in
    if negb (String.eqb (type funcname) "var")
    then error "Function name expected" input2
    else
      ' (params, input3) <-
         delimited fuel "(" ")" "," parse_param input2 ;;
      Ok (Some (Function (value funcname) params None), input3).

Definition parse_func : Parser (option Expr) :=
  fun input =>
    let input1 := snd (next input) in
    let '(tok, input2) := next input1 in
    let funcname := value tok in
    ' (params, input3) <-
       (if is_punc "(" input2
        then delimited fuel "(" ")" "," parse_param input2
        else Ok ([], input2)) ;;
    ' (body, input4) <- parse_expr input3 ;;
    Ok (Some (Function funcname params body), input4).

End Routines.

(** [parse_atom], [parse_expr], [parse_prog] and [maybe_binary] call one
    another; each call spends one unit of fuel.  The two lambdas of the source
    are the arguments of [maybe_call]; [rhs] is the right operand. *)
Fixpoint parse_atom (fuel : nat) : Parser (option Expr) :=
  match fuel with
  | O => fun _ => OutOfFuel
  | S n =>
      maybe_call n (parse_expr n) (fun input =>
        if is_kw "ext" input then parse_ext n input
        else if is_kw "def" input then parse_func n (parse_expr n) input
        else if is_punc "(" input then
          ' (expr, input1) <- parse_expr n (snd (next input)) ;;
          ' (_, input2) <- skip_punc ")" input1 ;;
          Ok (expr, input2)
        else if is_punc "{" input then parse_prog n input
        else if is_kw "if" input then upcast (parse_if (parse_expr n)) input
        else if (is_kw "true" input || is_kw "false" input)%bool
        then upcast parse_bool input
        else if is_kw "cls" input
        then upcast (parse_closure n (parse_prog n)) (snd (next input))
        else
          let '(tok, input1) := next input in
          if String.eqb (type tok) "var"
          then Ok (Some (Identifier (value tok)), input1)
          else if String.eqb (type tok) "num" then
            ' z <- stoi (value tok) ;; Ok (Some (Number z), input1)
          else if String.eqb (type tok) "char"
          then Ok (Some (Character (front (value tok))), input1)
          else if String.eqb (type tok) "str"
          then Ok (Some (String_ (value tok)), input1)
          else unexpected input1)
  end

with parse_expr (fuel : nat) : Parser (option Expr) :=
  match fuel with
  | O => fun _ => OutOfFuel
  | S n =>
      maybe_call n (parse_expr n) (fun input =>
        ' (atom, input1) <- parse_atom n input ;;
        maybe_binary n atom 0 input1)
  end

with parse_prog (fuel : nat) : Parser (option Expr) :=
  match fuel with
  | O => fun _ => OutOfFuel
  | S n =>
      fun input =>
        ' (vars, input1) <- delimited n "{" "}" ";" (parse_expr n) input ;;
        match vars with
        | [] => Ok (None, input1)
        | _ :: _ => Ok (Some (Program vars), input1)
        end
  end

with maybe_binary (fuel : nat) (left : option Expr) (prec : Z)
  : Parser (option Expr) :=
  match fuel with
  | O => fun _ => OutOfFuel
  | S n =>
      fun input =>
        if is_op EmptyString input then
          let tok := peek input in
          ' tokprec <- map_at OP_PRECEDENCE (value tok) ;;
          if tokprec >? prec then
            let input1 := snd (next input) in
            ' (atom, input2) <- parse_atom n input1 ;;
            ' (rhs, input3) <- maybe_binary n atom tokprec input2 ;;
            if String.eqb (value tok) "="
            then maybe_binary n (Some (Assign (value tok) left rhs))
                   prec input3
            else maybe_binary n (Some (Binary (value tok) left rhs))
                   prec input3
          else Ok (left, input)
        else Ok (left, input)
  end.

(** [parse_toplevel]: the tree is the vector of the parsed expressions. *)
Fixpoint toplevel_loop (fuel : nat) (ast : list (option Expr))
    (input : Lexer) : Result (list (option Expr)) :=
  match fuel with
  | O => OutOfFuel
  | S n =>
      if eof input then Ok ast
      else
        ' (e, input1) <- parse_expr fuel input ;;
        ' (_, input2) <-
           (if negb (eof input1) then skip_punc ";" input1
            else Ok (tt, input1)) ;;
        toplevel_loop n (ast ++ [e]) input2
  end.

Definition parse_toplevel (fuel : nat) (input : Lexer)
  : Result (list (option Expr)) :=
  toplevel_loop fuel [] input.

(** ** Notions used to state the properties *)

Local Open Scope list_scope.

(** The node that [maybe_binary] builds for operator [o]. *)
Definition node (o : string) (left rhs : option Expr) : Expr :=
  if String.eqb o "=" then Assign o left rhs else Binary o left rhs.

(** What is left of [delimited] from the head of its loop on: the loop and the
    closing delimiter. *)
Definition delimited_tail {T : Type} (fuel : nat) (end_ separator : ascii)
    (parser : Parser T) (first : bool) (items : list T) : Parser (list T) :=
  fun input =>
    ' (items', input2) <-
       delimited_loop fuel end_ separator parser first items input ;;
    ' (_, input3) <- skip_punc end_ input2 ;;
    Ok (items', input3).

(** [seg] is read by [parse_atom] as [e], whatever follows it that is not an
    opening parenthesis, with any fuel from [k] on. *)
Definition parses_atom (k : nat) (seg : list Token) (e : option Expr) : Prop :=
  forall n rest, (k <= n)%nat -> is_punc "(" rest = false ->
    parse_atom n (seg ++ rest) = Ok (e, rest).

(** A chain [o1 seg1 o2 seg2 ...] of operators and operands, its tokens and
    the tree that grows to the left from [left]. *)
Definition chain_tokens (chain : list (string * list Token * option Expr))
  : list Token :=
  flat_map (fun '(o, seg, _) => op o :: seg) chain.

Definition fold_chain (left : option Expr)
    (chain : list (string * list Token * option Expr)) : option Expr :=
  fold_left (fun l '(o, _, e) => Some (node o l e)) chain left.

(** Every operator of the chain has precedence [p] in the table and every
    operand is read by [parse_atom]. *)
Definition chain_of (p : Z) (k : nat)
    (chain : list (string * list Token * option Expr)) : Prop :=
  Forall (fun '(o, seg, e) =>
            find_key o OP_PRECEDENCE = Some p /\ parses_atom k seg e) chain.

(** A node is fully formed when the operands of every [Binary] and [Assign],
    the callee of every [Call] and the condition and then-branch of every [If]
    in it are present.  The other pointers (else-branch, bodies, arguments,
    elements of a block) may be null. *)
Fixpoint fully_formed (e : Expr) : bool :=
  let present o := match o with Some x => fully_formed x | None => false end in
  let optional o := match o with Some x => fully_formed x | None => true end in
  match e with
  | Assign _ l r | Binary _ l r => present l && present r
  | If c t f => present c && present t && optional f
  | Closure _ body => optional body
  | Function _ _ body => optional body
  | Call f args => present f && forallb optional args
  | Program ast => forallb optional ast
  | _ => true
  end.

Definition present (o : option Expr) : bool :=
  match o with Some x => fully_formed x | None => false end.

(** An opening brace directly followed by a closing one. *)
Fixpoint has_empty_block (input : list Token) : bool :=
  match input with
  | a :: (b :: _) as rest =>
      (is_punc "{" [a] && is_punc "}" [b]) || has_empty_block rest
  | _ => false
  end.

Definition suffix_of (rest input : Lexer) : Prop :=
  exists pre, input = pre ++ rest.

(** On an input without an empty block, a routine that returns leaves a
    suffix of its input and a result for which [Q] holds. *)
Definition sound {A : Type} (Q : A -> Prop) (p : Parser A) : Prop :=
  forall input x rest,
    has_empty_block input = false -> p input = Ok (x, rest) ->
    suffix_of rest input /\ Q x.

Definition good (o : option Expr) : Prop := present o = true.

Definition formed (e : Expr) : Prop := fully_formed e = true.

(** What [maybe_binary] keeps: a present left operand gives a present tree. *)
Definition climb_sound (n : nat) : Prop :=
  forall left prec, good left -> sound good (maybe_binary n left prec).

(** [short] is what a routine gives on a stream cut before [ext], when on the
    whole stream it returns [x] and leaves [rest]: the same, if it stops
    before the cut; a diagnostic or a result at the end of the stream
    otherwise. *)
Definition cut_at {A : Type} (ext : Lexer) (x : A) (rest : Lexer)
    (short : Result (A * Lexer)) : Prop :=
  (exists r, r <> [] /\ rest = r ++ ext /\ short = Ok (x, r))
  \/ (exists m, short = Diag m)
  \/ (exists x', short = Ok (x', [])).

Definition cut {A : Type} (p : Parser A) : Prop :=
  forall pre ext x rest,
    p (pre ++ ext) = Ok (x, rest) -> cut_at ext x rest (p pre).

(** The loop of [delimited] on a cut stream, when a first item may already
    have been read. *)
Definition cut_loop {T : Type} (parser : Parser T) (end_ separator : ascii)
    (fuel : nat) : Prop :=
  forall first items,
    (first = false -> exists m, parser [] = Diag m) ->
    cut (delimited_loop fuel end_ separator parser first items).

(** The same for a routine that is entered on a lookahead inside the cut
    stream. *)
Definition cut1 {A : Type} (p : Parser A) : Prop :=
  forall t pre ext x rest,
    p (t :: pre ++ ext) = Ok (x, rest) -> cut_at ext x rest (p (t :: pre)).

(** At the end of the stream a routine raises a diagnostic or returns
    without more ado. *)
Definition at_end {A : Type} (q : Parser A) : Prop :=
  (exists m, q [] = Diag m) \/ (exists y, q [] = Ok (y, [])).

(** What a routine may end with on [input]: what it leaves is a suffix of
    [input] (a proper one when [strict]), its diagnostic is in [D] and its
    exception in [E]. *)
Definition outcome_in {A : Type} (D : string -> Prop) (E : Exception -> Prop)
    (strict : bool) (input : Lexer) (r : Result (A * Lexer)) : Prop :=
  match r with
  | Ok (_, rest) => exists pre, input = pre ++ rest /\ (strict = true -> pre <> [])
  | Diag m => D m
  | Throw e => E e
  | OutOfFuel => True
  end.

(** The characters that the parser passes to [skip_punc]. *)
Definition delimiters : list ascii :=
  ["("; ")"; ","; "{"; "}"; ";"]%char.

(** What the four mutually recursive routines end with on a stream whose
    tokens all satisfy [tok_ok]. *)
Definition fits_atom (tok_ok : Token -> Prop) (D : string -> Prop)
    (E : Exception -> Prop) (n : nat) : Prop :=
  forall input,
    Forall tok_ok input -> outcome_in D E true input (parse_atom n input).

Definition fits_expr (tok_ok : Token -> Prop) (D : string -> Prop)
    (E : Exception -> Prop) (n : nat) : Prop :=
  forall input,
    Forall tok_ok input -> outcome_in D E true input (parse_expr n input).

Definition fits_prog (tok_ok : Token -> Prop) (D : string -> Prop)
    (E : Exception -> Prop) (n : nat) : Prop :=
  forall input,
    Forall tok_ok input -> outcome_in D E true input (parse_prog n input).

Definition fits_binary (tok_ok : Token -> Prop) (D : string -> Prop)
    (E : Exception -> Prop) (n : nat) : Prop :=
  forall left prec input,
    Forall tok_ok input ->
    outcome_in D E false input (maybe_binary n left prec input).

(** An operator token is known when its text is a key of the table, a number
    token when [std::stoi] accepts its text. *)
Definition known_token (t : Token) : bool :=
  ((if String.eqb (type t) "op"
    then match find_key (value t) OP_PRECEDENCE with
         | Some _ => true
         | None => false
         end
    else true)
   && (if String.eqb (type t) "num"
       then match stoi (value t) with
            | Ok _ => true
            | _ => false
            end
       else true))%bool.

(** The diagnostics that the routines called by [parse_toplevel] pass to
    [error]. *)
Definition raised (m : string) : Prop :=
  (exists t, m = msg_unexpected t)
  \/ (exists c, In c delimiters /\ m = msg_token_expected c)
  \/ m = "Variable name expected"
  \/ m = "Type name expected"
  \/ m = "Function name expected".

(** The two lambdas of the source, by name. *)
Definition atom_lambda (n : nat) : Parser (option Expr) :=
  fun input =>
    if is_kw "ext" input then parse_ext n input
    else if is_kw "def" input then parse_func n (parse_expr n) input
    else if is_punc "(" input then
      ' (expr, input1) <- parse_expr n (snd (next input)) ;;
      ' (_, input2) <- skip_punc ")" input1 ;;
      Ok (expr, input2)
    else if is_punc "{" input then parse_prog n input
    else if is_kw "if" input then upcast (parse_if (parse_expr n)) input
    else if (is_kw "true" input || is_kw "false" input)%bool
    then upcast parse_bool input
    else if is_kw "cls" input
    then upcast (parse_closure n (parse_prog n)) (snd (next input))
    else
      let '(tok, input1) := next input in
      if String.eqb (type tok) "var"
      then Ok (Some (Identifier (value tok)), input1)
      else if String.eqb (type tok) "num" then
        ' z <- stoi (value tok) ;; Ok (Some (Number z), input1)
      else if String.eqb (type tok) "char"
      then Ok (Some (Character (front (value tok))), input1)
      else if String.eqb (type tok) "str"
      then Ok (Some (String_ (value tok)), input1)
      else unexpected input1.

Definition expr_lambda (n : nat) : Parser (option Expr) :=
  fun input =>
    ' (atom, input1) <- parse_atom n input ;;
    maybe_binary n atom 0 input1.

(** [r'] is [r], unless [r] ran out of fuel. *)
Definition below {A : Type} (r r' : Result A) : Prop :=
  r = OutOfFuel \/ r' = r.

(** [p] comes to an end on every stream of fewer than [L] tokens. *)
Definition runs {A : Type} (p : Parser A) (L : nat) : Prop :=
  forall input, (length input < L)%nat -> p input <> OutOfFuel.

(** What [p] leaves is shorter than what it was given. *)
Definition shrinks {A : Type} (p : Parser A) : Prop :=
  forall input x rest,
    p input = Ok (x, rest) -> (length rest < length input)%nat.

(** The four mutually recursive routines come to an end when the fuel is
    three units per token and a few more. *)
Definition live (n : nat) : Prop :=
  (forall input,
      (3 * length input + 2 <= n)%nat -> parse_atom n input <> OutOfFuel)
  /\ (forall input,
      (3 * length input + 3 <= n)%nat -> parse_expr n input <> OutOfFuel)
  /\ (forall input,
      (3 * length input + 1 <= n)%nat -> parse_prog n input <> OutOfFuel)
  /\ (forall left prec input,
      (3 * length input + 1 <= n)%nat ->
      maybe_binary n left prec input <> OutOfFuel).

(** The shape of a tree of operators over operands, the tree it stands for,
    its first operand and the operators with their right neighbours in the
    order in which they are written. *)
Inductive Shape : Type :=
| Leaf (e : option Expr)
| Op (o : string) (l r : Shape).

Fixpoint build (s : Shape) : option Expr :=
  match s with
  | Leaf e => e
  | Op o l r => Some (node o (build l) (build r))
  end.

Fixpoint first_leaf (s : Shape) : option Expr :=
  match s with
  | Leaf e => e
  | Op _ l _ => first_leaf l
  end.

Fixpoint items (s : Shape) : list (string * option Expr) :=
  match s with
  | Leaf _ => []
  | Op o l r => items l ++ (o, first_leaf r) :: items r
  end.

Definition prec_of (o : string) : Z :=
  match find_key o OP_PRECEDENCE with
  | Some p => p
  | None => 0
  end.

(** The operator at the root, if there is one, binds tighter than [q], or at
    least as tight. *)
Definition root_above (q : Z) (s : Shape) : bool :=
  match s with
  | Leaf _ => true
  | Op o _ _ => q <? prec_of o
  end.

Definition root_at_least (q : Z) (s : Shape) : bool :=
  match s with
  | Leaf _ => true
  | Op o _ _ => q <=? prec_of o
  end.

(** Every operator has on its right an operand or a tighter operator, and on
    its left an operand or an operator at least as tight. *)
Fixpoint climbed (s : Shape) : bool :=
  match s with
  | Leaf _ => true
  | Op o l r =>
      (climbed l && climbed r && root_at_least (prec_of o) l
       && root_above (prec_of o) r)%bool
  end.

(** A chain of operators of the table between operands that [parse_atom]
    reads. *)
Definition table_chain (k : nat)
    (chain : list (string * list Token * option Expr)) : Prop :=
  Forall (fun '(o, seg, e) =>
            (exists p, find_key o OP_PRECEDENCE = Some p)
            /\ parses_atom k seg e) chain.

Definition written (chain : list (string * list Token * option Expr))
  : list (string * option Expr) :=
  map (fun '(o, _, e) => (o, e)) chain.

(** The operator that [chain] starts with, if any, satisfies [P]. *)
Definition head_op (P : string -> Prop)
    (chain : list (string * list Token * option Expr)) : Prop :=
  match chain with
  | [] => True
  | (o, _, _) :: _ => P o
  end.

(** [seg] is read by [parse_expr] as [e], whatever follows it that is neither
    an operator nor an opening parenthesis, with any fuel from [k] on. *)
Definition parses_expr (k : nat) (seg : list Token) (e : option Expr) : Prop :=
  forall n rest, (k <= n)%nat ->
    is_op EmptyString rest = false -> is_punc "(" rest = false ->
    parse_expr n (seg ++ rest) = Ok (e, rest).

(** The segments [segs] written one after the other with [sepTok] between
    them. *)
Definition listed (sepTok : Token) (segs : list (list Token)) : list Token :=
  match segs with
  | [] => []
  | seg :: segs' => seg ++ flat_map (fun s => sepTok :: s) segs'
  end.

(** [seg] does not begin with a closing delimiter and is read by [parser] as
    [x] before a separator and before a closing delimiter. *)
Definition item_of {T : Type} (parser : Parser T) (end_ : ascii)
    (sepTok endTok : Token) (seg : list Token) (x : T) : Prop :=
  (exists t seg', seg = t :: seg' /\ is_punc end_ [t] = false)
  /\ forall t rest, t = sepTok \/ t = endTok ->
       parser (seg ++ t :: rest) = Ok (x, t :: rest).

(** The tokens on which the lambda of [parse_atom] takes one of its branches
    before it reaches [unexpected]. *)
Definition starts_atom (tok : Token) : bool :=
  (is_kw "ext" [tok] || is_kw "def" [tok] || is_punc "(" [tok]
   || is_punc "{" [tok] || is_kw "if" [tok] || is_kw "true" [tok]
   || is_kw "false" [tok] || is_kw "cls" [tok]
   || String.eqb (type tok) "var" || String.eqb (type tok) "num"
   || String.eqb (type tok) "char" || String.eqb (type tok) "str")%bool.

(** The stream has a keyword [cls]. *)
Definition has_cls (input : Lexer) : bool :=
  existsb (fun t => is_kw "cls" [t]) input.

(** How the outcomes [rt] and [rf] of one routine on [input] under the two
    orders of evaluation in [parse_closure] compare: they are the same, and
    leave a suffix of [input]; or [input] has a [cls], and the body is
    missing where it is read first or the parameter list is missing where it
    is read first. *)
Definition split_on {A : Type} (input : Lexer) (rt rf : Result (A * Lexer))
  : Prop :=
  (rt = rf /\ forall x rest, rt = Ok (x, rest) -> suffix_of rest input)
  \/ (has_cls input = true
      /\ (rf = Diag (msg_token_expected "{")
          \/ rt = Diag (msg_token_expected "("))).

Definition split_top {A : Type} (input : Lexer) (rt rf : Result A) : Prop :=
  rt = rf
  \/ (has_cls input = true
      /\ (rf = Diag (msg_token_expected "{")
          \/ rt = Diag (msg_token_expected "("))).

(** A parameter as it is written: its type, and its name if it has one. *)
Definition param_tokens (p : Param) : list Token :=
  match pname p with
  | EmptyString => [var (ptype p)]
  | _ => [var (ptype p); var (pname p)]
  end.

(** An empty block, possibly in parentheses. *)
Inductive empty_group : list Token -> Prop :=
| empty_block (lb rb : Token) :
    is_punc "{" [lb] = true -> is_punc "}" [rb] = true ->
    empty_group [lb; rb]
| empty_paren (lp : Token) (g : list Token) (rp : Token) :
    is_punc "(" [lp] = true -> empty_group g -> is_punc ")" [rp] = true ->
    empty_group (lp :: g ++ [rp]).

(** An empty group stands in [input] where a node has a mandatory child:
    directly before an operator (left operand) or an opening parenthesis
    (callee), directly after an operator (right operand) or the keyword [if]
    (condition), or after the tokens that [parse_expr] reads as the
    condition of an [if] (then-branch). *)
Definition misplaced (input : list Token) : Prop :=
  exists a g b,
    input = a ++ g ++ b /\ empty_group g
    /\ (is_op EmptyString b = true
        \/ is_punc "(" b = true
        \/ (exists a' t,
              a = a' ++ [t]
              /\ (is_op EmptyString [t] = true \/ is_kw "if" [t] = true))
        \/ (exists a' t sc n c,
              a = a' ++ t :: sc /\ is_kw "if" [t] = true
              /\ parse_expr n (sc ++ g ++ b) = Ok (c, g ++ b))).

(** A closing brace or parenthesis directly followed by an opening
    parenthesis. *)
Fixpoint close_then_open (input : list Token) : bool :=
  match input with
  | a :: (b :: _) as rest =>
      ((is_punc "}" [a] || is_punc ")" [a]) && is_punc "(" [b])
      || close_then_open rest
  | _ => false
  end.

(** A test on the tokens that every stream with a misplaced empty group
    passes: an operator or the keyword [if] somewhere, or a closing brace or
    parenthesis directly followed by an opening parenthesis. *)
Definition suspect (input : list Token) : bool :=
  (existsb (fun t => is_op EmptyString [t] || is_kw "if" [t]) input
   || close_then_open input)%bool.

(** A pointer that may be null: the node it points to, if any, is fully
    formed unless an empty group is misplaced in [whole]. *)
Definition opt_ok (whole : list Token) (x : option Expr) : Prop :=
  match x with
  | None => True
  | Some e => formed e \/ misplaced whole
  end.

(** What a routine returns for the tokens [pre] of [whole]: a null pointer
    for an empty group only. *)
Definition res_ok (whole pre : list Token) (x : option Expr) : Prop :=
  match x with
  | None => empty_group pre
  | Some e => formed e \/ misplaced whole
  end.

(** A routine that is called on a suffix of [whole] and returns: it has read
    a prefix of its input and [Q] holds of what it returns. *)
Definition reads_in {T : Type} (whole : list Token) (Q : T -> Prop)
    (p : Parser T) : Prop :=
  forall a0 input x rest,
    whole = a0 ++ input -> p input = Ok (x, rest) ->
    exists pre, input = pre ++ rest /\ Q x.

Definition placed (whole : list Token) (p : Parser (option Expr)) : Prop :=
  forall a0 input x rest,
    whole = a0 ++ input -> p input = Ok (x, rest) ->
    exists pre, input = pre ++ rest /\ res_ok whole pre x.

(** The left operand handed to [maybe_binary] after the tokens [a0]: if it is
    null, [a0] ends with an empty group. *)
Definition left_ok (whole a0 : list Token) (left : option Expr) : Prop :=
  match left with
  | None => exists a' g, a0 = a' ++ g /\ empty_group g
  | Some l => formed l \/ misplaced whole
  end.

Definition climb_placed (whole : list Token) (n : nat) : Prop :=
  forall a0 input left prec x rest,
    whole = a0 ++ input -> left_ok whole a0 left ->
    maybe_binary n left prec input = Ok (x, rest) ->
    exists pre,
      input = pre ++ rest
      /\ ((pre = [] /\ x = left)
          \/ exists e, x = Some e /\ (formed e \/ misplaced whole)).

(** The messages of [skip_punc] for the three delimiters of a list. *)
Definition list_message (start end_ separator : ascii) (m : string) : Prop :=
  m = msg_token_expected start \/ m = msg_token_expected end_
  \/ m = msg_token_expected separator.

(** The stream in which every empty block is given one element, the word
    [x]. *)
Fixpoint fill (x : string) (input : list Token) : list Token :=
  match input with
  | a :: (b :: rest') as rest =>
      if (is_punc "{" [a] && is_punc "}" [b])%bool
      then a :: var x :: b :: fill x rest'
      else a :: fill x rest
  | _ => input
  end.

(** [fills x o o']: the pointer [o] is [o'] in which some blocks of the one
    element [x] are null pointers. *)
Inductive fills (x : string) : option Expr -> option Expr -> Prop :=
| fills_block : fills x None (Some (Program [Some (Identifier x)]))
| fills_null : fills x None None
| fills_same (e : Expr) : fills x (Some e) (Some e)
| fills_assign (o : string) (l l' r r' : option Expr) :
    fills x l l' -> fills x r r' ->
    fills x (Some (Assign o l r)) (Some (Assign o l' r'))
| fills_binary (o : string) (l l' r r' : option Expr) :
    fills x l l' -> fills x r r' ->
    fills x (Some (Binary o l r)) (Some (Binary o l' r'))
| fills_if (c c' t t' f f' : option Expr) :
    fills x c c' -> fills x t t' -> fills x f f' ->
    fills x (Some (If c t f)) (Some (If c' t' f'))
| fills_closure (params : list string) (b b' : option Expr) :
    fills x b b' ->
    fills x (Some (Closure params b)) (Some (Closure params b'))
| fills_function (name : string) (params : list Param)
    (b b' : option Expr) :
    fills x b b' ->
    fills x (Some (Function name params b))
      (Some (Function name params b'))
| fills_call (f f' : option Expr) (args args' : list (option Expr)) :
    fills x f f' -> Forall2 (fills x) args args' ->
    fills x (Some (Call f args)) (Some (Call f' args'))
| fills_program (vars vars' : list (option Expr)) :
    Forall2 (fills x) vars vars' ->
    fills x (Some (Program vars)) (Some (Program vars')).

(** What [r'] is on the filled stream when [r] is a result on the stream
    itself: a result that [R] relates to it, with the rest filled. *)
Definition filled {A B : Type} (x : string) (R : A -> B -> Prop)
    (r : Result (A * Lexer)) (r' : Result (B * Lexer)) : Prop :=
  forall a rest,
    r = Ok (a, rest) -> exists b, r' = Ok (b, fill x rest) /\ R a b.

(** [p'] does on the filled stream what [p] does on the stream itself. *)
Definition filled_parser (x : string) (p p' : Parser (option Expr)) : Prop :=
  forall input, filled x (fills x) (p input) (p' (fill x input)).

(** ** Basic facts *)

Lemma bind_Ok_inv {A B : Type} (r : Result A) (k : A -> Result B) (b : B) :
  bind r k = Ok b -> exists a, r = Ok a /\ k a = Ok b.
Proof.
  destruct r as [a| | |]; simpl; try discriminate.
  intros H; exists a; split; [reflexivity | exact H].
Qed.

Lemma bind_Ok {A B : Type} (a : A) (k : A -> Result B) : bind (Ok a) k = k a.
Proof. reflexivity. Qed.

(** Run a routine whose outcome is known and go on with what follows. *)
Ltac run H := rewrite H; rewrite bind_Ok; cbv beta iota.

Lemma is_punc_cons (ch : ascii) (tok : Token) (rest : Lexer) :
  is_punc ch (tok :: rest)
  = (String.eqb (type tok) "punc"
     && (Ascii.eqb ch zero || Ascii.eqb (front (value tok)) ch))%bool.
Proof.
  unfold is_punc; simpl.
  destruct (String.eqb_spec (type tok) "punc") as [E|E];
    [rewrite E; reflexivity | now rewrite andb_false_r].
Qed.

Lemma is_kw_cons (k : string) (tok : Token) (rest : Lexer) :
  is_kw k (tok :: rest)
  = (String.eqb (type tok) "kw"
     && (String.eqb k EmptyString || String.eqb k (value tok)))%bool.
Proof.
  unfold is_kw; simpl.
  destruct (String.eqb_spec (type tok) "kw") as [E|E];
    [rewrite E; reflexivity | now rewrite andb_false_r].
Qed.

Lemma is_op_cons (tok : Token) (rest : Lexer) :
  is_op EmptyString (tok :: rest) = String.eqb (type tok) "op".
Proof.
  unfold is_op; simpl.
  destruct (String.eqb_spec (type tok) "op") as [E|E];
    [rewrite E; reflexivity | now rewrite andb_false_r].
Qed.

Lemma is_punc_head (ch : ascii) (tok : Token) (rest : Lexer) :
  is_punc ch (tok :: rest) = is_punc ch [tok].
Proof. now rewrite !is_punc_cons. Qed.

Ltac inv_bind H :=
  apply bind_Ok_inv in H;
  let a := fresh "a" in let Ha := fresh "Ha" in
  destruct H as [a [Ha H]]; destruct a.

Ltac inv_ok H := injection H as <- <-.

Lemma skip_punc_Ok (ch : ascii) (input : Lexer) (u : unit) (rest : Lexer) :
  skip_punc ch input = Ok (u, rest) ->
  exists tok, input = tok :: rest /\ is_punc ch [tok] = true.
Proof.
  unfold skip_punc. destruct (is_punc ch input) eqn:E; [|discriminate].
  intros H. destruct input as [|tok input]; [discriminate|].
  simpl in H. injection H as _ <-. exists tok.
  split; [reflexivity | now rewrite <- (is_punc_head ch tok input)].
Qed.

Lemma find_key_None (key : string) (m : list (string * Z)) :
  find_key key m = None <-> ~ In key (map fst m).
Proof.
  induction m as [|[k v] m IH]; simpl.
  - tauto.
  - destruct (String.eqb_spec k key) as [E|E].
    + split; [discriminate | intros H; exfalso; apply H; now left].
    + rewrite IH; split; [intros H [F|F]; [exact (E F) | exact (H F)] | tauto].
Qed.

Lemma find_key_In (key : string) (m : list (string * Z)) (p : Z) :
  find_key key m = Some p -> In p (map snd m).
Proof.
  induction m as [|[k v] m IH]; simpl; [discriminate|].
  destruct (String.eqb k key).
  - intros H; injection H as H; now left.
  - intros H; right; exact (IH H).
Qed.

Lemma find_key_positive (key : string) (p : Z) :
  find_key key OP_PRECEDENCE = Some p -> 0 < p.
Proof.
  intros H; apply find_key_In in H; simpl in H.
  repeat (destruct H as [H|H]; [subst p; reflexivity|]).
  destruct H.
Qed.

(** *** One step of [maybe_binary] *)

Lemma maybe_binary_stop (n : nat) (left : option Expr) (prec : Z)
    (input : Lexer) :
  is_op EmptyString input = false ->
  maybe_binary (S n) left prec input = Ok (left, input).
Proof. intros H; simpl; rewrite H; reflexivity. Qed.

Lemma maybe_binary_yield (n : nat) (left : option Expr) (prec p : Z)
    (o : string) (rest : Lexer) :
  find_key o OP_PRECEDENCE = Some p -> p <= prec ->
  maybe_binary (S n) left prec (op o :: rest) = Ok (left, op o :: rest).
Proof.
  intros Hp Hle.
  change (maybe_binary (S n) left prec (op o :: rest)) with
    (if is_op EmptyString (op o :: rest) then
       ' tokprec <- map_at OP_PRECEDENCE o ;;
       if tokprec >? prec then
         ' (atom, input2) <- parse_atom n rest ;;
         ' (rhs, input3) <- maybe_binary n atom tokprec input2 ;;
         if String.eqb o "="
         then maybe_binary n (Some (Assign o left rhs)) prec input3
         else maybe_binary n (Some (Binary o left rhs)) prec input3
       else Ok (left, op o :: rest)
     else Ok (left, op o :: rest)).
  rewrite is_op_cons; simpl. unfold map_at; rewrite Hp; simpl.
  destruct (Z.gtb_spec p prec); [lia | reflexivity].
Qed.

Lemma maybe_binary_climb (n : nat) (left : option Expr) (prec p : Z)
    (o : string) (rest : Lexer) :
  find_key o OP_PRECEDENCE = Some p -> prec < p ->
  maybe_binary (S n) left prec (op o :: rest)
  = ' (atom, input2) <- parse_atom n rest ;;
    ' (rhs, input3) <- maybe_binary n atom p input2 ;;
    maybe_binary n (Some (node o left rhs)) prec input3.
Proof.
  intros Hp Hlt.
  change (maybe_binary (S n) left prec (op o :: rest)) with
    (if is_op EmptyString (op o :: rest) then
       ' tokprec <- map_at OP_PRECEDENCE o ;;
       if tokprec >? prec then
         ' (atom, input2) <- parse_atom n rest ;;
         ' (rhs, input3) <- maybe_binary n atom tokprec input2 ;;
         if String.eqb o "="
         then maybe_binary n (Some (Assign o left rhs)) prec input3
         else maybe_binary n (Some (Binary o left rhs)) prec input3
       else Ok (left, op o :: rest)
     else Ok (left, op o :: rest)).
  rewrite is_op_cons; simpl. unfold map_at; rewrite Hp; simpl.
  destruct (Z.gtb_spec p prec); [|lia].
  unfold node; destruct (String.eqb o "="); reflexivity.
Qed.

(** *** Operands *)

Lemma parses_atom_var (x : string) :
  parses_atom 1 [var x] (Some (Identifier x)).
Proof.
  intros n rest Hn Hp. destruct n as [|n]; [lia|].
  simpl. unfold maybe_call; simpl. rewrite Hp. reflexivity.
Qed.

Lemma parses_atom_num (s : string) (z : Z) :
  stoi s = Ok z -> parses_atom 1 [num s] (Some (Number z)).
Proof.
  intros Hs n rest Hn Hp. destruct n as [|n]; [lia|].
  simpl. unfold maybe_call; simpl. rewrite Hs; simpl. rewrite Hp. reflexivity.
Qed.

(** *** Chains of operators of one precedence *)

Lemma chain_lookahead (p : Z) (k : nat)
    (chain : list (string * list Token * option Expr)) (rest : Lexer) :
  chain_of p k chain ->
  is_op EmptyString rest = false -> is_punc "(" rest = false ->
  is_punc "(" (chain_tokens chain ++ rest) = false
  /\ forall n l, maybe_binary (S n) l p (chain_tokens chain ++ rest)
                = Ok (l, chain_tokens chain ++ rest).
Proof.
  intros Hc Hop Hpu. destruct Hc as [|[[o seg] e] chain [Ho _] _].
  - simpl; split; [exact Hpu | intros; now apply maybe_binary_stop].
  - simpl; split; [reflexivity|].
    intros n l. apply maybe_binary_yield with (p := p); [exact Ho | lia].
Qed.

Lemma maybe_binary_chain (p : Z) (k : nat)
    (chain : list (string * list Token * option Expr)) :
  chain_of p k chain ->
  forall n left prec rest,
    prec < p -> is_op EmptyString rest = false -> is_punc "(" rest = false ->
    (k + length chain + 1 <= n)%nat ->
    maybe_binary n left prec (chain_tokens chain ++ rest)
    = Ok (fold_chain left chain, rest).
Proof.
  induction 1 as [|[[o seg] e] chain [Ho Hseg] Hall IH];
    intros n left prec rest Hlt Hop Hpu Hn.
  - destruct n as [|n]; [lia|]. now apply maybe_binary_stop.
  - destruct n as [|n]; [simpl in Hn; lia|]. simpl in Hn.
    destruct (chain_lookahead p k chain rest Hall Hop Hpu) as [Hpu' Hstay].
    simpl chain_tokens. rewrite <- app_comm_cons, <- app_assoc.
    rewrite (maybe_binary_climb n left prec p o _ Ho Hlt).
    run (Hseg n _ ltac:(lia) Hpu').
    destruct n as [|n]; [lia|].
    run Hstay.
    change (fold_chain left ((o, seg, e) :: chain))
      with (fold_chain (Some (node o left e)) chain).
    apply IH; [exact Hlt | exact Hop | exact Hpu | lia].
Qed.

Lemma parse_expr_chain (p : Z) (k : nat) (seg0 : list Token)
    (e0 : option Expr) (chain : list (string * list Token * option Expr))
    (n : nat) (rest : Lexer) :
  parses_atom k seg0 e0 -> chain_of p k chain ->
  is_op EmptyString rest = false -> is_punc "(" rest = false ->
  (k + length chain + 3 <= n)%nat ->
  parse_expr n (seg0 ++ chain_tokens chain ++ rest)
  = Ok (fold_chain e0 chain, rest).
Proof.
  intros H0 Hc Hop Hpu Hn. destruct n as [|n]; [lia|].
  destruct (chain_lookahead p k chain rest Hc Hop Hpu) as [Hpu' _].
  change (parse_expr (S n) (seg0 ++ chain_tokens chain ++ rest)) with
    (maybe_call n (parse_expr n) (fun input =>
       ' (atom, input1) <- parse_atom n input ;;
       maybe_binary n atom 0 input1) (seg0 ++ chain_tokens chain ++ rest)).
  unfold maybe_call. run (H0 n _ ltac:(lia) Hpu').
  destruct Hc as [|[[o seg] e] chain [Ho Hseg] Hc].
  - destruct n as [|n]; [simpl in Hn; lia|].
    change (chain_tokens [] ++ rest) with rest.
    run (maybe_binary_stop n e0 0 rest Hop). rewrite Hpu. reflexivity.
  - pose proof (find_key_positive o p Ho) as Hp.
    assert (Hc' : chain_of p k ((o, seg, e) :: chain))
      by (constructor; [split; assumption | exact Hc]).
    run (maybe_binary_chain p k _ Hc' n e0 0 rest Hp Hop Hpu ltac:(lia)).
    rewrite Hpu. reflexivity.
Qed.

(** The same chain when every operator is the assignment sign. *)
Lemma assign_chain_tokens (operands : list (list Token * option Expr)) :
  chain_tokens (map (fun '(seg, e) => ("=", seg, e)) operands)
  = flat_map (fun '(seg, _) => op "=" :: seg) operands.
Proof.
  unfold chain_tokens.
  induction operands as [|[seg e] operands IH]; simpl;
    [reflexivity | now rewrite IH].
Qed.

Lemma assign_chain_fold (operands : list (list Token * option Expr))
    (left : option Expr) :
  fold_chain left (map (fun '(seg, e) => ("=", seg, e)) operands)
  = fold_left (fun l '(_, e) => Some (Assign "=" l e)) operands left.
Proof.
  unfold fold_chain.
  revert left; induction operands as [|[seg e] operands IH]; intros left;
    simpl; [reflexivity | now rewrite IH].
Qed.

(** Three operands and two operators. *)
Lemma parse_expr_two_operators (k : nat) (o1 o2 : string) (p1 p2 : Z)
    (sa sb sc : list Token) (a b c : option Expr) (n : nat) (rest : Lexer) :
  find_key o1 OP_PRECEDENCE = Some p1 ->
  find_key o2 OP_PRECEDENCE = Some p2 ->
  parses_atom k sa a -> parses_atom k sb b -> parses_atom k sc c ->
  is_op EmptyString rest = false -> is_punc "(" rest = false ->
  (k + 4 <= n)%nat ->
  parse_expr n (sa ++ op o1 :: sb ++ op o2 :: sc ++ rest)
  = Ok (if p2 >? p1
        then Some (node o1 a (Some (node o2 b c)))
        else Some (node o2 (Some (node o1 a b)) c), rest).
Proof.
  intros H1 H2 Ha Hb Hc Hop Hpu Hn.
  pose proof (find_key_positive o1 p1 H1) as Hp1.
  pose proof (find_key_positive o2 p2 H2) as Hp2.
  destruct n as [|[|[|[|n]]]]; try lia.
  change (parse_expr (S (S (S (S n)))) (sa ++ op o1 :: sb ++ op o2 :: sc ++ rest))
    with (maybe_call (S (S (S n))) (parse_expr (S (S (S n)))) (fun input =>
       ' (atom, input1) <- parse_atom (S (S (S n))) input ;;
       maybe_binary (S (S (S n))) atom 0 input1)
       (sa ++ op o1 :: sb ++ op o2 :: sc ++ rest)).
  unfold maybe_call.
  run (Ha (S (S (S n))) (op o1 :: sb ++ op o2 :: sc ++ rest) ltac:(lia) eq_refl).
  rewrite (maybe_binary_climb _ a 0 p1 o1 _ H1 Hp1).
  run (Hb (S (S n)) (op o2 :: sc ++ rest) ltac:(lia) eq_refl).
  destruct (Z.gtb_spec p2 p1) as [Hgt|Hle].
  - rewrite (maybe_binary_climb _ b p1 p2 o2 _ H2 Hgt).
    run (Hc (S n) rest ltac:(lia) Hpu).
    run (maybe_binary_stop n c p2 rest Hop).
    run (maybe_binary_stop n (Some (node o2 b c)) p1 rest Hop).
    run (maybe_binary_stop (S n) (Some (node o1 a (Some (node o2 b c)))) 0
           rest Hop).
    rewrite Hpu. reflexivity.
  - run (maybe_binary_yield (S n) b p1 p2 o2 (sc ++ rest) H2 Hle).
    rewrite (maybe_binary_climb _ (Some (node o1 a b)) 0 p2 o2 _ H2 Hp2).
    run (Hc (S n) rest ltac:(lia) Hpu).
    run (maybe_binary_stop n c p2 rest Hop).
    run (maybe_binary_stop n (Some (node o2 (Some (node o1 a b)) c)) 0
           rest Hop).
    rewrite Hpu. reflexivity.
Qed.

(** Evaluation of the parser on a given input with at least [k] units of
    fuel. *)
Tactic Notation "fuel_cases" ident(fuel) integer(k) :=
  do k (destruct fuel as [|fuel]; [exfalso; lia|]); clear; vm_compute;
  reflexivity.

(** ** Trees of operators *)

(** C3: in a chain of operators of one table precedence the tree grows to the
    left, each operator taking the tree built so far as its left operand; in
    particular [1-2-3] is read as [Binary - (Binary - 1 2) 3]. *)
Theorem C3_equal_precedence_associates_left :
  (forall p k seg0 e0 chain n rest,
      parses_atom k seg0 e0 -> chain_of p k chain ->
      is_op EmptyString rest = false -> is_punc "(" rest = false ->
      (k + length chain + 3 <= n)%nat ->
      parse_expr n (seg0 ++ chain_tokens chain ++ rest)
      = Ok (fold_chain e0 chain, rest))
  /\ (forall fuel, (5 <= fuel)%nat ->
      parse_toplevel fuel [num "1"; op "-"; num "2"; op "-"; num "3"]
      = Ok [Some (Binary "-"
                    (Some (Binary "-" (Some (Number 1)) (Some (Number 2))))
                    (Some (Number 3)))]).
Proof.
  split.
  - intros p k seg0 e0 chain n rest. apply parse_expr_chain.
  - intros fuel Hfuel. fuel_cases fuel 5.
Qed.

(** C1, as it holds of the code: assignment is treated like any other
    operator, so a chain of assignments also grows to the left; [a=b=1] is
    read as [Assign = (Assign = a b) 1]. *)
Theorem C1_assignment_chain_associates_left :
  (forall k seg0 e0 (operands : list (list Token * option Expr)) n rest,
      parses_atom k seg0 e0 ->
      Forall (fun '(seg, e) => parses_atom k seg e) operands ->
      is_op EmptyString rest = false -> is_punc "(" rest = false ->
      (k + length operands + 3 <= n)%nat ->
      parse_expr n
        (seg0 ++ flat_map (fun '(seg, _) => op "=" :: seg) operands ++ rest)
      = Ok (fold_left (fun l '(_, e) => Some (Assign "=" l e)) operands e0,
            rest))
  /\ (forall fuel, (5 <= fuel)%nat ->
      parse_toplevel fuel [var "a"; op "="; var "b"; op "="; num "1"]
      = Ok [Some (Assign "="
                    (Some (Assign "=" (Some (Identifier "a"))
                             (Some (Identifier "b"))))
                    (Some (Number 1)))]).
Proof.
  split.
  - intros k seg0 e0 operands n rest H0 Hall Hop Hpu Hn.
    rewrite <- assign_chain_tokens, <- assign_chain_fold.
    apply parse_expr_chain with (p := 1) (k := k); try assumption.
    + unfold chain_of. rewrite Forall_map.
      eapply Forall_impl; [|exact Hall].
      intros [seg e] H; split; [reflexivity | exact H].
    + rewrite length_map. exact Hn.
  - intros fuel Hfuel. fuel_cases fuel 5.
Qed.

(** ** The lookup in the precedence table *)

Lemma op_token (tok : Token) :
  String.eqb (type tok) "op" = true -> tok = op (value tok).
Proof.
  destruct tok as [ty v]; simpl; intros H.
  apply String.eqb_eq in H; subst ty; reflexivity.
Qed.

(** C10: [maybe_binary] looks the operator up with [at], without a guard.  An
    operator token whose text is one of the fourteen keys is compared with the
    floor and the climb goes on; for any other text the lookup throws
    [std::out_of_range], which is not a diagnostic of the parser. *)
Theorem C10_unguarded_precedence_lookup :
  map fst OP_PRECEDENCE
  = ["="; "||"; "&&"; "<"; ">"; "<="; ">="; "=="; "!="; "+"; "-"; "*"; "/";
     "%"]
  /\ (forall n left prec tok rest,
      String.eqb (type tok) "op" = true ->
      In (value tok) (map fst OP_PRECEDENCE) ->
      exists p,
        map_at OP_PRECEDENCE (value tok) = Ok p
        /\ maybe_binary (S n) left prec (tok :: rest)
           = if p >? prec
             then ' (atom, input2) <- parse_atom n rest ;;
                  ' (rhs, input3) <- maybe_binary n atom p input2 ;;
                  maybe_binary n (Some (node (value tok) left rhs)) prec input3
             else Ok (left, tok :: rest))
  /\ (forall n left prec tok rest,
      String.eqb (type tok) "op" = true ->
      ~ In (value tok) (map fst OP_PRECEDENCE) ->
      maybe_binary (S n) left prec (tok :: rest) = Throw std_out_of_range)
  /\ (forall fuel, (3 <= fuel)%nat ->
      parse_toplevel fuel [num "1"; op "@"; num "2"] = Throw std_out_of_range).
Proof.
  split; [reflexivity|]. split; [|split].
  - intros n left prec tok rest Hop Hin.
    destruct (find_key (value tok) OP_PRECEDENCE) as [p|] eqn:Hp.
    + exists p. split; [unfold map_at; now rewrite Hp|].
      apply op_token in Hop. destruct tok as [ty v]. cbn [value] in Hp |- *.
      injection Hop as ->. fold (op v).
      destruct (Z.gtb_spec p prec) as [Hgt|Hle].
      * now apply maybe_binary_climb.
      * now apply maybe_binary_yield with (p := p).
    + apply find_key_None in Hp. contradiction.
  - intros n left prec tok rest Hop Hnin.
    apply find_key_None in Hnin.
    simpl. rewrite is_op_cons, Hop. unfold map_at. rewrite Hnin. reflexivity.
  - intros fuel Hfuel. fuel_cases fuel 3.
Qed.

(** ** Function names *)

(** C9: [parse_ext] raises the diagnostic "Function name expected" when the
    token after [ext] is not of kind [var] (also when the stream ends there);
    [parse_func] reads the token after [def] whatever its kind and only uses
    its text. *)
Theorem C9_function_name_check_only_in_ext :
  (forall fuel t0 tok rest,
      is_kw "ext" [t0] = true -> String.eqb (type tok) "var" = false ->
      parse_ext fuel (t0 :: tok :: rest) = Diag "Function name expected")
  /\ (forall fuel t0,
      is_kw "ext" [t0] = true ->
      parse_ext fuel [t0] = Diag "Function name expected")
  /\ (forall fuel n t0 tok tok' rest,
      value tok = value tok' ->
      parse_func fuel (parse_expr n) (t0 :: tok :: rest)
      = parse_func fuel (parse_expr n) (t0 :: tok' :: rest))
  /\ (forall fuel, (4 <= fuel)%nat ->
      parse_toplevel fuel [kw "ext"; num "5"; punc "("; punc ")"]
      = Diag "Function name expected"
      /\ parse_toplevel fuel [kw "def"; num "5"; num "1"]
         = Ok [Some (Function "5" [] (Some (Number 1)))]).
Proof.
  split; [|split; [|split]].
  - intros fuel t0 tok rest Hkw Hty. unfold parse_ext, skip_kw.
    rewrite is_kw_cons. rewrite is_kw_cons in Hkw. rewrite Hkw.
    rewrite bind_Ok; cbv beta iota. simpl. rewrite Hty. reflexivity.
  - intros fuel t0 Hkw. unfold parse_ext, skip_kw. rewrite Hkw.
    reflexivity.
  - intros fuel n t0 tok tok' rest Hv. unfold parse_func. simpl.
    rewrite Hv. reflexivity.
  - intros fuel Hfuel. split; fuel_cases fuel 4.
Qed.

(** ** Blocks *)

(** C6: [parse_prog] returns a null pointer exactly when [delimited] read no
    expression between the braces, and [Program] over the expressions read
    otherwise; so [{}] gives no block and [{1;2;3}] gives the block of 1, 2
    and 3. *)
Theorem C6_block_null_iff_empty :
  (forall n input r rest,
      parse_prog n input = Ok (r, rest) ->
      exists vars,
        delimited (pred n) "{" "}" ";" (parse_expr (pred n)) input
        = Ok (vars, rest)
        /\ (r = None <-> vars = [])
        /\ (vars <> [] -> r = Some (Program vars)))
  /\ (forall fuel rest, (2 <= fuel)%nat ->
      parse_prog fuel (punc "{" :: punc "}" :: rest) = Ok (None, rest))
  /\ (forall fuel, (6 <= fuel)%nat ->
      parse_prog fuel
        [punc "{"; num "1"; punc ";"; num "2"; punc ";"; num "3"; punc "}"]
      = Ok (Some (Program [Some (Number 1); Some (Number 2);
                           Some (Number 3)]), [])).
Proof.
  split; [|split].
  - intros n input r rest H. destruct n as [|n]; [discriminate|].
    change (parse_prog (S n) input) with
      (' (vars, input1) <- delimited n "{" "}" ";" (parse_expr n) input ;;
       match vars with
       | [] => Ok (None, input1)
       | _ :: _ => Ok (Some (Program vars), input1)
       end) in H.
    apply bind_Ok_inv in H. destruct H as [[vars input1] [Hd H]].
    exists vars. simpl pred.
    destruct vars as [|v vars]; injection H as <- <-.
    + split; [exact Hd|]. split; [tauto | intros F; now elim F].
    + split; [exact Hd|]. split; [split; discriminate | reflexivity].
  - intros fuel rest Hfuel.
    do 2 (destruct fuel as [|fuel]; [exfalso; lia|]). reflexivity.
  - intros fuel Hfuel. fuel_cases fuel 6.
Qed.

(** ** Delimited lists *)

Lemma delimited_from_tail {T : Type} (fuel : nat) (start end_ separator : ascii)
    (parser : Parser T) (input : Lexer) :
  delimited fuel start end_ separator parser input
  = ' (_, input1) <- skip_punc start input ;;
    delimited_tail fuel end_ separator parser true [] input1.
Proof. reflexivity. Qed.

(** At the head of the loop, on the closing delimiter. *)
Lemma delimited_tail_close {T : Type} (fuel : nat) (end_ separator : ascii)
    (parser : Parser T) (first : bool) (items : list T) (endTok : Token)
    (rest : Lexer) :
  is_punc end_ [endTok] = true ->
  delimited_tail (S fuel) end_ separator parser first items (endTok :: rest)
  = Ok (items, rest).
Proof.
  intros He. unfold delimited_tail. simpl delimited_loop.
  rewrite is_punc_head, He. rewrite bind_Ok; cbv beta iota.
  unfold skip_punc. rewrite is_punc_head, He. reflexivity.
Qed.

(** At the head of the loop, on a separator that the closing delimiter
    follows. *)
Lemma delimited_tail_trailing {T : Type} (fuel : nat) (end_ separator : ascii)
    (parser : Parser T) (items : list T) (sepTok endTok : Token)
    (rest : Lexer) :
  is_punc separator [sepTok] = true -> is_punc end_ [sepTok] = false ->
  is_punc end_ [endTok] = true ->
  delimited_tail (S fuel) end_ separator parser false items
    (sepTok :: endTok :: rest)
  = Ok (items, rest).
Proof.
  intros Hs Hse He. unfold delimited_tail. simpl delimited_loop.
  rewrite (is_punc_head end_ sepTok), Hse.
  unfold skip_punc at 1. rewrite (is_punc_head separator sepTok), Hs.
  rewrite bind_Ok; cbv beta iota. simpl snd.
  rewrite (is_punc_head end_ endTok), He. rewrite bind_Ok; cbv beta iota.
  unfold skip_punc. rewrite is_punc_head, He. reflexivity.
Qed.

(** C5: in [delimited], once an item has been read, a separator directly
    before the closing delimiter is consumed without an item being parsed, and
    the list is the one obtained without that separator.  So [f(1,2,)] is
    read like [f(1,2)], and likewise for blocks and parameter lists.  (A
    separator that no item precedes is not a trailing one: an item is asked
    for in its place.) *)
Theorem C5_trailing_separator_tolerated :
  (forall (T : Type) fuel end_ separator (parser : Parser T) items
          sepTok endTok rest,
      is_punc separator [sepTok] = true -> is_punc end_ [sepTok] = false ->
      is_punc end_ [endTok] = true ->
      delimited_tail (S fuel) end_ separator parser false items
        (sepTok :: endTok :: rest) = Ok (items, rest)
      /\ delimited_tail (S fuel) end_ separator parser false items
           (endTok :: rest) = Ok (items, rest))
  /\ (forall fuel, (6 <= fuel)%nat ->
      parse_toplevel fuel
        [var "f"; punc "("; num "1"; punc ","; num "2"; punc ","; punc ")"]
      = Ok [Some (Call (Some (Identifier "f"))
                    [Some (Number 1); Some (Number 2)])]
      /\ parse_toplevel fuel
           [var "f"; punc "("; num "1"; punc ","; num "2"; punc ")"]
         = Ok [Some (Call (Some (Identifier "f"))
                       [Some (Number 1); Some (Number 2)])]
      /\ parse_toplevel fuel
           [punc "{"; num "1"; punc ";"; num "2"; punc ";"; punc "}"]
         = Ok [Some (Program [Some (Number 1); Some (Number 2)])]
      /\ parse_toplevel fuel
           [punc "{"; num "1"; punc ";"; num "2"; punc "}"]
         = Ok [Some (Program [Some (Number 1); Some (Number 2)])]
      /\ parse_toplevel fuel
           [kw "ext"; var "f"; punc "("; var "int"; var "x"; punc ",";
            punc ")"]
         = Ok [Some (Function "f" [mkParam "int" "x"] None)]
      /\ parse_toplevel fuel
           [kw "ext"; var "f"; punc "("; var "int"; var "x"; punc ")"]
         = Ok [Some (Function "f" [mkParam "int" "x"] None)]
      /\ parse_toplevel fuel [var "f"; punc "("; punc ","; punc ")"]
         = Diag (msg_unexpected (punc ")"))).
Proof.
  split.
  - intros T fuel end_ separator parser items sepTok endTok rest Hs Hse He.
    split.
    + now apply delimited_tail_trailing.
    + now apply delimited_tail_close.
  - intros fuel Hfuel. repeat split; fuel_cases fuel 6.
Qed.

(** ** Calls *)

(** C2, as it holds of the code: each use of [maybe_call] wraps what it has
    read in one [Call] when the lookahead is an opening parenthesis, and does
    not look again after the argument list.  [parse_atom] reads [f()] out of
    [f()()] and leaves the second pair of parentheses; [parse_expr] applies
    one more wrap to the expression it has built, so [f()()] is read as a call
    of the call [f()], and a third pair of parentheses is left unread (at top
    level: a semicolon is expected). *)
Theorem C2_call_wrapped_once_per_site :
  (forall fuel pe call input r input1,
      call input = Ok (r, input1) ->
      maybe_call fuel pe call input
      = if is_punc "(" input1
        then ' (args, input2) <- delimited fuel "(" ")" "," pe input1 ;;
             Ok (Some (Call r args), input2)
        else Ok (r, input1))
  /\ (forall fuel rest, (3 <= fuel)%nat ->
      parse_atom fuel
        (var "f" :: punc "(" :: punc ")" :: punc "(" :: punc ")" :: rest)
      = Ok (Some (Call (Some (Identifier "f")) []),
            punc "(" :: punc ")" :: rest))
  /\ (forall fuel rest, (4 <= fuel)%nat ->
      parse_expr fuel
        (var "f" :: punc "(" :: punc ")" :: punc "(" :: punc ")"
           :: punc "(" :: punc ")" :: rest)
      = Ok (Some (Call (Some (Call (Some (Identifier "f")) [])) []),
            punc "(" :: punc ")" :: rest))
  /\ (forall fuel, (4 <= fuel)%nat ->
      parse_toplevel fuel
        [var "f"; punc "("; punc ")"; punc "("; punc ")"]
      = Ok [Some (Call (Some (Call (Some (Identifier "f")) [])) [])]
      /\ parse_toplevel fuel
           [var "f"; punc "("; punc ")"; punc "("; punc ")"; punc "(";
            punc ")"]
         = Diag "Token ';' expected").
Proof.
  split; [|split; [|split]].
  - intros fuel pe call input r input1 H. unfold maybe_call. rewrite H.
    rewrite bind_Ok; cbv beta iota.
    destruct (is_punc "(" input1); [|reflexivity].
    unfold upcast, parse_call.
    destruct (delimited fuel "(" ")" "," pe input1) as [[args input2]| | |];
      reflexivity.
  - intros fuel rest Hfuel.
    do 3 (destruct fuel as [|fuel]; [exfalso; lia|]). reflexivity.
  - intros fuel rest Hfuel.
    do 4 (destruct fuel as [|fuel]; [exfalso; lia|]). reflexivity.
  - intros fuel Hfuel. split; fuel_cases fuel 4.
Qed.

(** ** Fully formed trees *)

Lemma suffix_of_refl (input : Lexer) : suffix_of input input.
Proof. now exists []. Qed.

Lemma suffix_of_trans (a b c : Lexer) :
  suffix_of a b -> suffix_of b c -> suffix_of a c.
Proof.
  intros [p ->] [q ->]. exists (q ++ p). now rewrite app_assoc.
Qed.

Lemma suffix_of_next (input : Lexer) : suffix_of (snd (next input)) input.
Proof.
  destruct input as [|t input]; simpl; [now exists [] | now exists [t]].
Qed.

Lemma has_empty_block_tail (a : Token) (l : Lexer) :
  has_empty_block (a :: l) = false -> has_empty_block l = false.
Proof.
  destruct l as [|b l]; [reflexivity|].
  intros H. simpl in H. apply orb_false_elim in H. tauto.
Qed.

Lemma has_empty_block_suffix (rest input : Lexer) :
  suffix_of rest input -> has_empty_block input = false ->
  has_empty_block rest = false.
Proof.
  intros [pre ->]. induction pre as [|a pre IH]; [trivial|].
  intros H. apply IH. exact (has_empty_block_tail a _ H).
Qed.

Create HintDb parse.

#[local] Hint Resolve suffix_of_refl suffix_of_next : parse.
#[local] Hint Resolve suffix_of_trans has_empty_block_suffix : parse.

Lemma skip_punc_suffix (ch : ascii) (input : Lexer) (u : unit)
    (rest : Lexer) :
  skip_punc ch input = Ok (u, rest) -> suffix_of rest input.
Proof.
  intros H. apply skip_punc_Ok in H. destruct H as [tok [-> _]].
  now exists [tok].
Qed.

Lemma skip_kw_suffix (k : string) (input : Lexer) (u : unit) (rest : Lexer) :
  skip_kw k input = Ok (u, rest) -> suffix_of rest input.
Proof.
  unfold skip_kw. destruct (is_kw k input); [|discriminate].
  intros H. injection H as _ <-. apply suffix_of_next.
Qed.

#[local] Hint Resolve skip_punc_suffix skip_kw_suffix : parse.

Lemma delimited_loop_extends {T : Type} (parser : Parser T) (fuel : nat)
    (end_ separator : ascii) :
  forall first items input items' rest,
    delimited_loop fuel end_ separator parser first items input
    = Ok (items', rest) ->
    exists more, items' = items ++ more.
Proof.
  induction fuel as [|fuel IH]; intros first items input items' rest H;
    [discriminate|].
  simpl in H.
  destruct (eof input); [inv_ok H; exists []; now rewrite app_nil_r|].
  destruct (is_punc end_ input);
    [inv_ok H; exists []; now rewrite app_nil_r|].
  inv_bind H.
  destruct (is_punc end_ l);
    [inv_ok H; exists []; now rewrite app_nil_r|].
  inv_bind H. apply IH in H. destruct H as [more ->].
  exists (t :: more). now rewrite <- app_assoc.
Qed.

Lemma delimited_loop_sound {T : Type} (Q : T -> Prop) (parser : Parser T) :
  sound Q parser ->
  forall fuel end_ separator first items input items' rest,
    has_empty_block input = false -> Forall Q items ->
    delimited_loop fuel end_ separator parser first items input
    = Ok (items', rest) ->
    suffix_of rest input /\ Forall Q items'.
Proof.
  intros Hp fuel end_ separator.
  induction fuel as [|fuel IH];
    intros first items input items' rest Hb Hq H; [discriminate|].
  simpl in H.
  destruct (eof input); [inv_ok H; auto with parse|].
  destruct (is_punc end_ input); [inv_ok H; auto with parse|].
  inv_bind H.
  assert (S1 : suffix_of l input).
  { destruct first; [inv_ok Ha; auto with parse | eauto with parse]. }
  destruct (is_punc end_ l); [inv_ok H; auto|].
  inv_bind H.
  destruct (Hp _ _ _ (has_empty_block_suffix _ _ S1 Hb) Ha0) as [S2 Qt].
  assert (S3 : suffix_of l0 input) by eauto with parse.
  destruct (IH false (items ++ [t]) l0 items' rest) as [S4 Qi];
    eauto with parse.
  apply Forall_app; auto.
Qed.

Lemma delimited_sound {T : Type} (Q : T -> Prop) (parser : Parser T)
    (fuel : nat) (start end_ separator : ascii) :
  sound Q parser ->
  sound (Forall Q) (delimited fuel start end_ separator parser).
Proof.
  intros Hp input items rest Hb H. unfold delimited in H.
  inv_bind H. inv_bind H. inv_bind H. inv_ok H.
  assert (S1 : suffix_of l input) by eauto with parse.
  destruct (delimited_loop_sound Q parser Hp _ _ _ _ _ _ _ _
              (has_empty_block_suffix _ _ S1 Hb) (Forall_nil Q) Ha0)
    as [S2 Qi].
  split; [|exact Qi]. eauto 6 with parse.
Qed.

(** Between braces that are not adjacent at least one item is read. *)
Lemma delimited_block_nonempty {T : Type} (parser : Parser T) (fuel : nat)
    (separator : ascii) (input : Lexer) (vars : list T) (rest : Lexer) :
  has_empty_block input = false ->
  delimited fuel "{" "}" separator parser input = Ok (vars, rest) ->
  vars <> [].
Proof.
  intros Hb H. unfold delimited in H.
  inv_bind H. inv_bind H. inv_bind H. inv_ok H.
  apply skip_punc_Ok in Ha. destruct Ha as [t0 [-> Ht0]].
  destruct fuel as [|fuel]; [discriminate|]. simpl in Ha0.
  destruct l as [|b l].
  - simpl in Ha0. injection Ha0 as <- <-. discriminate.
  - simpl eof in Ha0. cbv iota in Ha0.
    destruct (is_punc "}" (b :: l)) eqn:Eb.
    + rewrite is_punc_head in Eb. simpl in Hb. rewrite Ht0, Eb in Hb.
      discriminate.
    + inv_bind Ha0. apply delimited_loop_extends in Ha0.
      destruct Ha0 as [more ->]. discriminate.
Qed.

Lemma forallb_good (l : list (option Expr)) :
  Forall good l ->
  forallb (fun o => match o with
                    | Some x => fully_formed x
                    | None => true
                    end) l = true.
Proof.
  induction 1 as [|o l Ho _ IH]; [reflexivity|].
  simpl. rewrite IH. destruct o as [e|]; [|discriminate Ho].
  unfold good in Ho; simpl in Ho. now rewrite Ho.
Qed.

Lemma formed_node (o : string) (l r : option Expr) :
  good l -> good r -> formed (node o l r).
Proof.
  unfold good, formed, node. intros Hl Hr.
  destruct (String.eqb o "="); simpl; fold (present l); fold (present r);
    now rewrite Hl, Hr.
Qed.

Lemma parse_varname_sound : sound (fun _ => True) parse_varname.
Proof.
  intros input x rest _ H. unfold parse_varname in H.
  destruct (next input) as [name input1] eqn:E.
  destruct (negb (String.eqb (type name) "var")); [discriminate|].
  inv_ok H. split; [|exact I].
  change input1 with (snd (name, input1)). rewrite <- E. apply suffix_of_next.
Qed.

Lemma parse_param_sound : sound (fun _ => True) parse_param.
Proof.
  intros input x rest _ H. unfold parse_param in H.
  destruct (next input) as [typetok input1] eqn:E.
  assert (S1 : suffix_of input1 input).
  { change input1 with (snd (typetok, input1)). rewrite <- E.
    apply suffix_of_next. }
  destruct (negb (String.eqb (type typetok) "var")); [discriminate|].
  destruct (String.eqb (type (peek input1)) "var").
  - destruct (next input1) as [nametok input2] eqn:E2.
    destruct (negb (String.eqb (type nametok) "var")); [discriminate|].
    inv_ok H. split; [|exact I].
    apply suffix_of_trans with (b := input1); [|exact S1].
    change input2 with (snd (nametok, input2)). rewrite <- E2.
    apply suffix_of_next.
  - inv_ok H. split; [exact S1 | exact I].
Qed.

Section RoutinesSound.

Variable fuel : nat.
Variable pe : Parser (option Expr).
Variable pp : Parser (option Expr).
Hypothesis pe_sound : sound good pe.
Hypothesis pp_sound : sound good pp.

Lemma parse_call_sound (func : option Expr) :
  good func -> sound formed (parse_call fuel pe func).
Proof.
  intros Hf input x rest Hb H. unfold parse_call in H.
  inv_bind H. inv_ok H.
  destruct (delimited_sound good pe fuel "(" ")" "," pe_sound _ _ _ Hb Ha)
    as [S1 Qa].
  split; [exact S1|].
  unfold formed; simpl. fold (present func). rewrite Hf.
  now rewrite forallb_good.
Qed.

Lemma maybe_call_sound (call : Parser (option Expr)) :
  sound good call -> sound good (maybe_call fuel pe call).
Proof.
  intros Hc input x rest Hb H. unfold maybe_call in H.
  inv_bind H. destruct (Hc _ _ _ Hb Ha) as [S1 Qo].
  destruct (is_punc "(" l); [|inv_ok H; auto].
  unfold upcast in H. inv_bind H. inv_ok H.
  destruct (parse_call_sound o Qo _ _ _
              (has_empty_block_suffix _ _ S1 Hb) Ha0) as [S2 Qe].
  split; [eauto with parse | exact Qe].
Qed.

Lemma parse_if_sound : sound formed (parse_if pe).
Proof.
  intros input x rest Hb H. unfold parse_if in H.
  inv_bind H. inv_bind H. inv_bind H.
  assert (S1 : suffix_of l input) by eauto with parse.
  destruct (pe_sound _ _ _ (has_empty_block_suffix _ _ S1 Hb) Ha0)
    as [S2 Qc].
  assert (S2' : suffix_of l0 input) by eauto with parse.
  destruct (pe_sound _ _ _ (has_empty_block_suffix _ _ S2' Hb) Ha1)
    as [S3 Qt].
  assert (S3' : suffix_of l1 input) by eauto with parse.
  destruct (is_kw "else" l1).
  - inv_bind H. inv_ok H.
    assert (S4 : suffix_of (snd (next l1)) input) by eauto with parse.
    destruct (pe_sound _ _ _ (has_empty_block_suffix _ _ S4 Hb) Ha2)
      as [S5 Qf].
    split; [eauto with parse|].
    unfold formed; simpl. fold (present o); fold (present o0).
    unfold good in Qc, Qt, Qf. rewrite Qc, Qt. simpl.
    destruct o1; [exact Qf | discriminate Qf].
  - inv_ok H. split; [exact S3'|].
    unfold formed; simpl. fold (present o); fold (present o0).
    unfold good in Qc, Qt. now rewrite Qc, Qt.
Qed.

Lemma parse_closure_sound : sound formed (parse_closure fuel pp).
Proof.
  intros input x rest Hb H. unfold parse_closure in H.
  destruct closure_params_first.
  - inv_bind H. inv_bind H. inv_ok H.
    destruct (delimited_sound (fun _ => True) parse_varname fuel "(" ")" ","
                parse_varname_sound _ _ _ Hb Ha) as [S1 _].
    destruct (pp_sound _ _ _ (has_empty_block_suffix _ _ S1 Hb) Ha0)
      as [S2 Qb].
    split; [eauto with parse|].
    unfold formed; simpl. destruct o; [exact Qb | discriminate Qb].
  - inv_bind H. inv_bind H. inv_ok H.
    destruct (pp_sound _ _ _ Hb Ha) as [S1 Qb].
    destruct (delimited_sound (fun _ => True) parse_varname fuel "(" ")" ","
                parse_varname_sound _ _ _
                (has_empty_block_suffix _ _ S1 Hb) Ha0) as [S2 _].
    split; [eauto with parse|].
    unfold formed; simpl. destruct o; [exact Qb | discriminate Qb].
Qed.

Lemma parse_ext_sound : sound good (parse_ext fuel).
Proof.
  intros input x rest Hb H. unfold parse_ext in H.
  inv_bind H.
  destruct (next l) as [funcname input2] eqn:E.
  assert (S1 : suffix_of input2 input).
  { apply suffix_of_trans with (b := l); [|eauto with parse].
    change input2 with (snd (funcname, input2)). rewrite <- E.
    apply suffix_of_next. }
  destruct (negb (String.eqb (type funcname) "var")); [discriminate|].
  inv_bind H. inv_ok H.
  destruct (delimited_sound (fun _ => True) parse_param fuel "(" ")" ","
              parse_param_sound _ _ _
              (has_empty_block_suffix _ _ S1 Hb) Ha0) as [S2 _].
  split; [eauto with parse | reflexivity].
Qed.

Lemma parse_func_sound : sound good (parse_func fuel pe).
Proof.
  intros input x rest Hb H. unfold parse_func in H.
  destruct (next (snd (next input))) as [tok input2] eqn:E.
  assert (S1 : suffix_of input2 input).
  { apply suffix_of_trans with (b := snd (next input));
      [|apply suffix_of_next].
    change input2 with (snd (tok, input2)). rewrite <- E.
    apply suffix_of_next. }
  inv_bind H. inv_bind H. inv_ok H.
  assert (S2 : suffix_of l0 input).
  { destruct (is_punc "(" input2).
    - destruct (delimited_sound (fun _ => True) parse_param fuel "(" ")" ","
                  parse_param_sound _ _ _
                  (has_empty_block_suffix _ _ S1 Hb) Ha) as [S2 _].
      eauto with parse.
    - inv_ok Ha. exact S1. }
  destruct (pe_sound _ _ _ (has_empty_block_suffix _ _ S2 Hb) Ha0)
    as [S3 Qb].
  split; [eauto with parse|].
  unfold good; simpl. destruct o; [exact Qb | discriminate Qb].
Qed.

End RoutinesSound.

Lemma parse_bool_sound : sound good (upcast parse_bool).
Proof.
  intros input x rest Hb H. unfold upcast, parse_bool in H.
  destruct (next input) as [tok input1] eqn:E. simpl in H. inv_ok H.
  split; [|reflexivity].
  change input1 with (snd (tok, input1)). rewrite <- E. apply suffix_of_next.
Qed.

Lemma upcast_sound (p : Parser Expr) : sound formed p -> sound good (upcast p).
Proof.
  intros Hp input x rest Hb H. unfold upcast in H. inv_bind H. inv_ok H.
  exact (Hp _ _ _ Hb Ha).
Qed.

Lemma parse_atom_step (n : nat) :
  sound good (parse_expr n) -> sound good (parse_prog n) ->
  sound good (parse_atom (S n)).
Proof.
  intros He Hp.
  change (parse_atom (S n)) with
    (maybe_call n (parse_expr n) (fun input =>
       if is_kw "ext" input then parse_ext n input
       else if is_kw "def" input then parse_func n (parse_expr n) input
       else if is_punc "(" input then
         ' (expr, input1) <- parse_expr n (snd (next input)) ;;
         ' (_, input2) <- skip_punc ")" input1 ;;
         Ok (expr, input2)
       else if is_punc "{" input then parse_prog n input
       else if is_kw "if" input then upcast (parse_if (parse_expr n)) input
       else if (is_kw "true" input || is_kw "false" input)%bool
       then upcast parse_bool input
       else if is_kw "cls" input
       then upcast (parse_closure n (parse_prog n)) (snd (next input))
       else
         let '(tok, input1) := next input in
         if String.eqb (type tok) "var"
         then Ok (Some (Identifier (value tok)), input1)
         else if String.eqb (type tok) "num" then
           ' z <- stoi (value tok) ;; Ok (Some (Number z), input1)
         else if String.eqb (type tok) "char"
         then Ok (Some (Character (front (value tok))), input1)
         else if String.eqb (type tok) "str"
         then Ok (Some (String_ (value tok)), input1)
         else unexpected input1)).
  apply maybe_call_sound; [exact He|].
  intros input x rest Hb H.
  destruct (is_kw "ext" input); [exact (parse_ext_sound n _ _ _ Hb H)|].
  destruct (is_kw "def" input);
    [exact (parse_func_sound n _ He _ _ _ Hb H)|].
  destruct (is_punc "(" input).
  { inv_bind H. inv_bind H. inv_ok H.
    destruct (He _ _ _ (has_empty_block_suffix _ _ (suffix_of_next input) Hb)
                Ha) as [S1 Qe].
    split; [eauto 6 with parse | exact Qe]. }
  destruct (is_punc "{" input); [exact (Hp _ _ _ Hb H)|].
  destruct (is_kw "if" input);
    [exact (upcast_sound _ (parse_if_sound _ He) _ _ _ Hb H)|].
  destruct (is_kw "true" input || is_kw "false" input)%bool;
    [exact (parse_bool_sound _ _ _ Hb H)|].
  destruct (is_kw "cls" input).
  { destruct (upcast_sound _ (parse_closure_sound n _ Hp) _ _ _
                (has_empty_block_suffix _ _ (suffix_of_next input) Hb) H)
      as [S1 Qe].
    split; [eauto with parse | exact Qe]. }
  destruct (next input) as [tok input1] eqn:E.
  assert (S1 : suffix_of input1 input).
  { change input1 with (snd (tok, input1)). rewrite <- E.
    apply suffix_of_next. }
  destruct (String.eqb (type tok) "var"); [inv_ok H; now split|].
  destruct (String.eqb (type tok) "num").
  { destruct (stoi (value tok)); try discriminate.
    simpl in H. inv_ok H. now split. }
  destruct (String.eqb (type tok) "char"); [inv_ok H; now split|].
  destruct (String.eqb (type tok) "str"); [inv_ok H; now split|].
  discriminate.
Qed.

Lemma parse_expr_step (n : nat) :
  sound good (parse_expr n) -> sound good (parse_atom n) -> climb_sound n ->
  sound good (parse_expr (S n)).
Proof.
  intros He Ha Hc.
  change (parse_expr (S n)) with
    (maybe_call n (parse_expr n) (fun input =>
       ' (atom, input1) <- parse_atom n input ;;
       maybe_binary n atom 0 input1)).
  apply maybe_call_sound; [exact He|].
  intros input x rest Hb H. inv_bind H.
  destruct (Ha _ _ _ Hb Ha0) as [S1 Qa].
  destruct (Hc o 0 Qa _ _ _ (has_empty_block_suffix _ _ S1 Hb) H) as [S2 Qx].
  split; [eauto with parse | exact Qx].
Qed.

Lemma parse_prog_step (n : nat) :
  sound good (parse_expr n) -> sound good (parse_prog (S n)).
Proof.
  intros He input x rest Hb H.
  change (parse_prog (S n) input) with
    (' (vars, input1) <- delimited n "{" "}" ";" (parse_expr n) input ;;
     match vars with
     | [] => Ok (None, input1)
     | _ :: _ => Ok (Some (Program vars), input1)
     end) in H.
  inv_bind H.
  pose proof (delimited_block_nonempty _ _ _ _ _ _ Hb Ha) as Hne.
  destruct (delimited_sound good _ n "{" "}" ";" He _ _ _ Hb Ha) as [S1 Qv].
  destruct l as [|v vars]; [now elim Hne|]. inv_ok H.
  split; [exact S1|]. exact (forallb_good _ Qv).
Qed.

Lemma maybe_binary_step (n : nat) :
  sound good (parse_atom n) -> climb_sound n -> climb_sound (S n).
Proof.
  intros Ha Hc left prec Hl input x rest Hb H.
  change (maybe_binary (S n) left prec input) with
    (if is_op EmptyString input then
       ' tokprec <- map_at OP_PRECEDENCE (value (peek input)) ;;
       if tokprec >? prec then
         ' (atom, input2) <- parse_atom n (snd (next input)) ;;
         ' (rhs, input3) <- maybe_binary n atom tokprec input2 ;;
         if String.eqb (value (peek input)) "="
         then maybe_binary n
                (Some (Assign (value (peek input)) left rhs)) prec input3
         else maybe_binary n
                (Some (Binary (value (peek input)) left rhs)) prec input3
       else Ok (left, input)
     else Ok (left, input)) in H.
  destruct (is_op EmptyString input); [|inv_ok H; auto with parse].
  destruct (map_at OP_PRECEDENCE (value (peek input))) as [tokprec| | |];
    try discriminate.
  rewrite bind_Ok in H; cbv beta zeta in H.
  destruct (tokprec >? prec); [|inv_ok H; auto with parse].
  inv_bind H. inv_bind H.
  pose proof (suffix_of_next input) as S0.
  destruct (Ha _ _ _ (has_empty_block_suffix _ _ S0 Hb) Ha0) as [S1 Qa].
  assert (S1' : suffix_of l input) by eauto with parse.
  destruct (Hc o tokprec Qa _ _ _ (has_empty_block_suffix _ _ S1' Hb) Ha1)
    as [S2 Qr].
  assert (S2' : suffix_of l0 input) by eauto with parse.
  pose proof (formed_node (value (peek input)) left o0 Hl Qr) as Hn.
  unfold node in Hn.
  destruct (String.eqb (value (peek input)) "=").
  - destruct (Hc (Some _) prec Hn _ _ _
                (has_empty_block_suffix _ _ S2' Hb) H)
      as [S3 Qx].
    split; [eauto with parse | exact Qx].
  - destruct (Hc (Some _) prec Hn _ _ _
                (has_empty_block_suffix _ _ S2' Hb) H)
      as [S3 Qx].
    split; [eauto with parse | exact Qx].
Qed.

Lemma parser_sound (n : nat) :
  sound good (parse_atom n) /\ sound good (parse_expr n)
  /\ sound good (parse_prog n) /\ climb_sound n.
Proof.
  induction n as [|n [Ha [He [Hp Hc]]]].
  - split; [|split; [|split]].
    + intros input x rest _ H; discriminate H.
    + intros input x rest _ H; discriminate H.
    + intros input x rest _ H; discriminate H.
    + intros left prec _ input x rest _ H; discriminate H.
  - split; [now apply parse_atom_step|].
    split; [now apply parse_expr_step|].
    split; [now apply parse_prog_step | now apply maybe_binary_step].
Qed.

Lemma toplevel_loop_sound (fuel : nat) :
  forall ast input result,
    has_empty_block input = false -> Forall good ast ->
    toplevel_loop fuel ast input = Ok result -> Forall good result.
Proof.
  induction fuel as [|n IH]; intros ast input result Hb Hq H;
    [discriminate|].
  change (toplevel_loop (S n) ast input) with
    (if eof input then Ok ast
     else
       ' (e, input1) <- parse_expr (S n) input ;;
       ' (_, input2) <-
          (if negb (eof input1) then skip_punc ";" input1
           else Ok (tt, input1)) ;;
       toplevel_loop n (ast ++ [e]) input2) in H.
  destruct (eof input); [now injection H as <-|].
  inv_bind H. inv_bind H.
  destruct (parser_sound (S n)) as [_ [He _]].
  destruct (He _ _ _ Hb Ha) as [S1 Qe].
  assert (S2 : suffix_of l0 input).
  { destruct (negb (eof l)); [eauto with parse | inv_ok Ha0; exact S1]. }
  apply (IH _ _ _ (has_empty_block_suffix _ _ S2 Hb)) in H; [exact H|].
  apply Forall_app; auto.
Qed.

(** ** Streams cut short *)

Lemma cut_at_sync {A : Type} (ext : Lexer) (x : A) (r : Lexer) :
  cut_at ext x (r ++ ext) (Ok (x, r)).
Proof.
  destruct r as [|t r].
  - right; right. now exists x.
  - left. exists (t :: r). repeat split. discriminate.
Qed.

Lemma cut_at_Diag {A : Type} (ext : Lexer) (x : A) (rest : Lexer)
    (m : string) :
  cut_at ext x rest (Diag m).
Proof. right; left. now exists m. Qed.

Lemma cut_at_end {A : Type} (ext : Lexer) (x x' : A) (rest : Lexer) :
  cut_at ext x rest (Ok (x', [])).
Proof. right; right. now exists x'. Qed.

#[local] Hint Resolve cut_at_sync cut_at_Diag cut_at_end : parse.

Lemma cut_skip_punc (ch : ascii) : cut (skip_punc ch).
Proof.
  intros pre ext u rest H. destruct pre as [|t pre].
  - apply cut_at_Diag.
  - unfold skip_punc in H |- *. simpl app in H.
    rewrite is_punc_head in H. rewrite is_punc_head.
    destruct (is_punc ch [t]); [|discriminate].
    simpl in H |- *. inv_ok H. apply cut_at_sync.
Qed.

Lemma cut_skip_kw (k : string) : cut (skip_kw k).
Proof.
  intros pre ext u rest H. destruct pre as [|t pre].
  - apply cut_at_Diag.
  - unfold skip_kw in H |- *. simpl app in H.
    rewrite is_kw_cons in H. rewrite is_kw_cons.
    destruct (_ && _)%bool; [|discriminate].
    simpl in H |- *. inv_ok H. apply cut_at_sync.
Qed.

Lemma cut_parse_varname : cut parse_varname.
Proof.
  intros pre ext x rest H. destruct pre as [|t pre].
  - apply cut_at_Diag.
  - unfold parse_varname in H |- *. simpl in H |- *.
    destruct (negb (String.eqb (type t) "var")); [discriminate|].
    inv_ok H. apply cut_at_sync.
Qed.

Lemma cut_parse_param : cut parse_param.
Proof.
  intros pre ext x rest H. destruct pre as [|t pre].
  - apply cut_at_Diag.
  - unfold parse_param in H |- *. simpl in H |- *.
    destruct (negb (String.eqb (type t) "var")); [discriminate|].
    destruct pre as [|t' pre].
    + simpl. apply cut_at_end.
    + simpl in H |- *.
      destruct (String.eqb (type t') "var").
      * simpl in H |- *. inv_ok H. apply cut_at_sync.
      * inv_ok H. apply (cut_at_sync ext _ (t' :: pre)).
Qed.

Lemma delimited_loop_S {T : Type} (fuel : nat) (end_ separator : ascii)
    (parser : Parser T) (first : bool) (items : list T) (input : Lexer) :
  delimited_loop (S fuel) end_ separator parser first items input
  = if eof input then Ok (items, input)
    else if is_punc end_ input then Ok (items, input)
    else
      ' (_, input1) <-
         (if first then Ok (tt, input) else skip_punc separator input) ;;
      if is_punc end_ input1 then Ok (items, input1)
      else
        ' (item, input2) <- parser input1 ;;
        delimited_loop fuel end_ separator parser false (items ++ [item])
          input2.
Proof. reflexivity. Qed.

Section CutDelimited.

Context {T : Type}.
Variable parser : Parser T.
Variables end_ separator : ascii.
Hypothesis parser_cut : cut parser.
Hypothesis parser_end :
  forall input x rest,
    parser input = Ok (x, rest) -> exists m, parser [] = Diag m.

(** The second half of an iteration, from a lookahead inside the cut
    stream. *)
Lemma cut_iteration (fuel : nat) (items : list T) (t : Token)
    (pre ext : Lexer) (items' : list T) (rest : Lexer) :
  cut_loop parser end_ separator fuel ->
  (if is_punc end_ (t :: pre ++ ext) then Ok (items, t :: pre ++ ext)
   else
     ' (item, input2) <- parser (t :: pre ++ ext) ;;
     delimited_loop fuel end_ separator parser false (items ++ [item]) input2)
  = Ok (items', rest) ->
  cut_at ext items' rest
    (if is_punc end_ (t :: pre) then Ok (items, t :: pre)
     else
       ' (item, input2) <- parser (t :: pre) ;;
       delimited_loop fuel end_ separator parser false (items ++ [item])
         input2).
Proof.
  intros IH H. rewrite is_punc_head in H. rewrite is_punc_head.
  destruct (is_punc end_ [t]).
  - inv_ok H. apply (cut_at_sync ext items (t :: pre)).
  - inv_bind H.
    destruct (parser_cut (t :: pre) ext _ _ Ha)
      as [[r [Hr [-> Hp]]] | [[m Hp] | [x' Hp]]]; rewrite Hp.
    + rewrite bind_Ok; cbv beta iota.
      apply IH; [|exact H]. intros _. exact (parser_end _ _ _ Ha).
    + apply cut_at_Diag.
    + rewrite bind_Ok; cbv beta iota.
      destruct fuel as [|fuel]; [discriminate H|]. apply cut_at_end.
Qed.

Lemma cut_delimited_loop (fuel : nat) : cut_loop parser end_ separator fuel.
Proof.
  induction fuel as [|fuel IH];
    intros first items Hfirst pre ext items' rest H; [discriminate H|].
  destruct pre as [|t pre]; [apply cut_at_end|].
  rewrite delimited_loop_S in H |- *. simpl app in H. simpl eof in H |- *.
  cbv iota in H |- *.
  rewrite is_punc_head in H. rewrite is_punc_head.
  destruct (is_punc end_ [t]) eqn:E.
  - inv_ok H. apply (cut_at_sync ext items (t :: pre)).
  - destruct first.
    + rewrite bind_Ok in H |- *; cbv beta iota in H |- *.
      now apply cut_iteration.
    + unfold skip_punc at 1 in H. unfold skip_punc at 1.
      rewrite is_punc_head in H. rewrite is_punc_head.
      destruct (is_punc separator [t]); [|discriminate H].
      rewrite bind_Ok in H |- *; cbv beta iota in H |- *.
      simpl snd in H |- *.
      destruct pre as [|t' pre].
      * destruct (Hfirst eq_refl) as [m Hm].
        change (is_punc end_ []) with false. cbv iota. rewrite Hm.
        apply cut_at_Diag.
      * now apply cut_iteration.
Qed.

(** A list that is closed in the whole stream is, in the cut stream, either
    closed as well or the cause of a diagnostic. *)
Lemma cut_delimited_closed (fuel : nat) (start : ascii) (pre ext : Lexer)
    (items : list T) (rest : Lexer) :
  delimited fuel start end_ separator parser (pre ++ ext) = Ok (items, rest) ->
  (exists r, rest = r ++ ext
             /\ delimited fuel start end_ separator parser pre
                = Ok (items, r))
  \/ (exists m, delimited fuel start end_ separator parser pre = Diag m).
Proof.
  intros H. unfold delimited in H |- *.
  inv_bind H. inv_bind H. inv_bind H. inv_ok H.
  destruct (cut_skip_punc start pre ext _ _ Ha)
    as [[r [Hr [-> Hp]]] | [[m Hp] | [x' Hp]]]; rewrite Hp.
  - rewrite bind_Ok; cbv beta iota.
    destruct (cut_delimited_loop fuel true []
                ltac:(discriminate) r ext _ _ Ha0)
      as [[r1 [Hr1 [-> Hp1]]] | [[m Hp1] | [x1 Hp1]]]; rewrite Hp1.
    + rewrite bind_Ok; cbv beta iota.
      destruct (cut_skip_punc end_ r1 ext _ _ Ha1)
        as [[r2 [Hr2 [-> Hp2]]] | [[m Hp2] | [x2 Hp2]]]; rewrite Hp2.
      * left. exists r2. split; reflexivity.
      * right. now exists m.
      * destruct r1 as [|t1 r1]; [now elim Hr1|].
        unfold skip_punc in Hp2, Ha1. simpl app in Ha1.
        rewrite is_punc_head in Ha1. rewrite is_punc_head in Hp2.
        destruct (is_punc end_ [t1]); [|discriminate Ha1].
        simpl in Hp2, Ha1. injection Hp2 as _ ->. injection Ha1 as _ <-.
        left. exists []. split; reflexivity.
    + right. now exists m.
    + right. exists (msg_token_expected end_). reflexivity.
  - right. now exists m.
  - destruct pre as [|t0 pre].
    + discriminate Hp.
    + unfold skip_punc in Hp, Ha. simpl app in Ha.
      rewrite is_punc_head in Ha. rewrite is_punc_head in Hp.
      destruct (is_punc start [t0]); [|discriminate Ha].
      simpl in Hp, Ha. injection Hp as _ ->. injection Ha as _ <-.
      simpl app in Ha0. rewrite bind_Ok; cbv beta iota.
      right. exists (msg_token_expected end_).
      destruct fuel as [|fuel]; [discriminate Ha0|]. reflexivity.
Qed.

Lemma cut_delimited (fuel : nat) (start : ascii) :
  cut (delimited fuel start end_ separator parser).
Proof.
  intros pre ext items rest H.
  destruct (cut_delimited_closed fuel start pre ext items rest H)
    as [[r [-> Hp]] | [m Hp]]; rewrite Hp; auto with parse.
Qed.

End CutDelimited.

(** *** Sequences and choices on the lookahead *)

Lemma at_end_cut_at {A : Type} (q : Parser A) (ext : Lexer) (x : A)
    (rest : Lexer) :
  at_end q -> cut_at ext x rest (q []).
Proof.
  intros [[m ->] | [y ->]]; auto with parse.
Qed.

Lemma cut_ret {A : Type} (x : A) : cut (fun input => Ok (x, input)).
Proof. intros pre ext y rest H. inv_ok H. apply cut_at_sync. Qed.

Lemma cut_bind {A B : Type} (a : Parser A) (k : A -> Parser B) :
  cut a -> (forall x, cut (k x)) ->
  (forall x input y rest x',
      k x input = Ok (y, rest) -> at_end (k x')) ->
  cut (fun input => ' (x, input1) <- a input ;; k x input1).
Proof.
  intros Ha Hk Hend pre ext y rest H. inv_bind H.
  destruct (Ha pre ext _ _ Ha0)
    as [[r [Hr [-> Hp]]] | [[m Hp] | [x' Hp]]]; rewrite Hp.
  - rewrite bind_Ok; cbv beta iota. now apply Hk.
  - apply cut_at_Diag.
  - rewrite bind_Ok; cbv beta iota.
    apply at_end_cut_at. exact (Hend _ _ _ _ x' H).
Qed.

Lemma cut_cut1 {A : Type} (p : Parser A) : cut p -> cut1 p.
Proof. intros Hp t pre. exact (Hp (t :: pre)). Qed.

Lemma cut_if_head {A : Type} (c : Lexer -> bool) (p q : Parser A) :
  (forall t l, c (t :: l) = c [t]) -> c [] = false ->
  cut1 p -> cut1 q ->
  (forall input y rest,
      (if c input then p input else q input) = Ok (y, rest) -> at_end q) ->
  cut (fun input => if c input then p input else q input).
Proof.
  intros Hc Hnil Hp Hq Hend pre ext y rest H.
  destruct pre as [|t pre].
  - rewrite Hnil. apply at_end_cut_at. exact (Hend _ _ _ H).
  - simpl app in H. rewrite Hc in H. rewrite Hc.
    destruct (c [t]); [now apply Hp | now apply Hq].
Qed.

Lemma cut_next {A : Type} (k : Token -> Parser A) :
  (forall t, cut (k t)) ->
  (forall t input y rest,
      k t input = Ok (y, rest) -> at_end (k null_token)) ->
  cut (fun input => let '(tok, input1) := next input in k tok input1).
Proof.
  intros Hk Hend pre ext y rest H. destruct pre as [|t pre].
  - apply at_end_cut_at. simpl app in H.
    destruct (next ext) as [t0 input1]. exact (Hend _ _ _ _ H).
  - simpl in H |- *. now apply Hk.
Qed.

Lemma cut_after_next {A : Type} (p : Parser A) :
  cut p -> (forall input y rest, p input = Ok (y, rest) -> at_end p) ->
  cut (fun input => p (snd (next input))).
Proof.
  intros Hp Hend pre ext y rest H. destruct pre as [|t pre].
  - apply at_end_cut_at. exact (Hend _ _ _ H).
  - simpl in H |- *. now apply Hp.
Qed.

Lemma at_end_Diag {A : Type} (q : Parser A) (m : string) :
  q [] = Diag m -> at_end q.
Proof. intros H; left; now exists m. Qed.

Lemma at_end_Ok {A : Type} (q : Parser A) (y : A) :
  q [] = Ok (y, []) -> at_end q.
Proof. intros H; right; now exists y. Qed.

Lemma is_kw_head (k : string) (tok : Token) (rest : Lexer) :
  is_kw k (tok :: rest) = is_kw k [tok].
Proof. now rewrite !is_kw_cons. Qed.

Lemma at_end_bind_Diag {A B : Type} (a : Parser A) (k : A -> Parser B)
    (m : string) :
  a [] = Diag m -> at_end (fun input => ' (x, input1) <- a input ;; k x input1).
Proof. intros H. left. exists m. now rewrite H. Qed.

Lemma cut_upcast (p : Parser Expr) : cut p -> cut (upcast p).
Proof.
  intros Hp. unfold upcast.
  apply (cut_bind p (fun e input1 => Ok (Some e, input1))); [exact Hp | |].
  - intros e. apply cut_ret.
  - intros e input y rest e' _. now apply at_end_Ok with (y := Some e').
Qed.

Section CutRoutines.

Variable fuel : nat.
Variable pe : Parser (option Expr).
Variable pp : Parser (option Expr).
Hypothesis pe_cut : cut pe.
Hypothesis pp_cut : cut pp.
Hypothesis pe_end :
  forall input x rest, pe input = Ok (x, rest) -> exists m, pe [] = Diag m.
Hypothesis pp_end :
  forall input x rest, pp input = Ok (x, rest) -> exists m, pp [] = Diag m.

Lemma cut_parse_call (func : option Expr) : cut (parse_call fuel pe func).
Proof.
  unfold parse_call.
  apply (cut_bind (delimited fuel "(" ")" "," pe)
           (fun args input1 => Ok (Call func args, input1))).
  - now apply cut_delimited.
  - intros args. apply cut_ret.
  - intros args input y rest args' _.
    now apply at_end_Ok with (y := Call func args').
Qed.

Lemma cut_maybe_call (call : Parser (option Expr)) :
  cut call -> cut (maybe_call fuel pe call).
Proof.
  intros Hc. unfold maybe_call.
  apply (cut_bind call (fun result input1 =>
           if is_punc "(" input1 then upcast (parse_call fuel pe result) input1
           else Ok (result, input1))); [exact Hc | |].
  - intros result.
    apply (cut_if_head (is_punc "(") (upcast (parse_call fuel pe result))
             (fun input1 => Ok (result, input1))).
    + apply is_punc_head.
    + reflexivity.
    + apply cut_cut1, cut_upcast, cut_parse_call.
    + apply cut_cut1, cut_ret.
    + intros input y rest _. now apply at_end_Ok with (y := result).
  - intros result input y rest result' _.
    now apply at_end_Ok with (y := result').
Qed.

Lemma cut_parse_if : cut (parse_if pe).
Proof.
  unfold parse_if.
  apply (cut_bind (skip_kw "if") (fun (_ : unit) input1 =>
           ' (cond, input2) <- pe input1 ;;
           ' (then_, input3) <- pe input2 ;;
           if is_kw "else" input3 then
             ' (els, input4) <- pe (snd (next input3)) ;;
             Ok (If cond then_ els, input4)
           else Ok (If cond then_ None, input3))).
  - apply cut_skip_kw.
  - intros _.
    apply (cut_bind pe (fun cond input2 =>
             ' (then_, input3) <- pe input2 ;;
             if is_kw "else" input3 then
               ' (els, input4) <- pe (snd (next input3)) ;;
               Ok (If cond then_ els, input4)
             else Ok (If cond then_ None, input3))); [exact pe_cut | |].
    + intros cond.
      apply (cut_bind pe (fun then_ input3 =>
               if is_kw "else" input3 then
                 ' (els, input4) <- pe (snd (next input3)) ;;
                 Ok (If cond then_ els, input4)
               else Ok (If cond then_ None, input3))); [exact pe_cut | |].
      * intros then_.
        apply (cut_if_head (is_kw "else")
                 (fun input3 =>
                    ' (els, input4) <- pe (snd (next input3)) ;;
                    Ok (If cond then_ els, input4))
                 (fun input3 => Ok (If cond then_ None, input3))).
        -- apply is_kw_head.
        -- reflexivity.
        -- apply cut_cut1.
           apply (cut_bind (fun input3 => pe (snd (next input3)))
                    (fun els input4 => Ok (If cond then_ els, input4))).
           ++ apply cut_after_next; [exact pe_cut|].
              intros input y rest H. destruct (pe_end _ _ _ H) as [m Hm].
              now apply at_end_Diag with (m := m).
           ++ intros els. apply cut_ret.
           ++ intros els input y rest els' _.
              now apply at_end_Ok with (y := If cond then_ els').
        -- apply cut_cut1, cut_ret.
        -- intros input y rest _.
           now apply at_end_Ok with (y := If cond then_ None).
      * intros then_ input y rest then' _.
        now apply at_end_Ok with (y := If cond then' None).
    + intros cond input y rest cond' H. inv_bind H.
      destruct (pe_end _ _ _ Ha) as [m Hm].
      now apply at_end_bind_Diag with (m := m).
  - intros u input y rest u' H. inv_bind H.
    destruct (pe_end _ _ _ Ha) as [m Hm].
    now apply at_end_bind_Diag with (m := m).
Qed.

Lemma cut_fail {A : Type} (p : Parser A) :
  (forall input x rest, p input <> Ok (x, rest)) -> cut p.
Proof. intros Hp pre ext x rest H. now elim (Hp _ _ _ H). Qed.

Lemma parse_varname_end :
  forall input x rest,
    parse_varname input = Ok (x, rest) -> exists m, parse_varname [] = Diag m.
Proof. intros. now exists "Variable name expected". Qed.

Lemma parse_param_end :
  forall input x rest,
    parse_param input = Ok (x, rest) -> exists m, parse_param [] = Diag m.
Proof. intros. now exists "Type name expected". Qed.

Lemma cut_parse_closure : cut (parse_closure fuel pp).
Proof.
  unfold parse_closure. destruct closure_params_first.
  - apply (cut_bind (delimited fuel "(" ")" "," parse_varname)
             (fun params input1 =>
                ' (body, input2) <- pp input1 ;;
                Ok (Closure params body, input2))).
    + apply cut_delimited;
        [exact cut_parse_varname | exact parse_varname_end].
    + intros params.
      apply (cut_bind pp (fun body input2 =>
               Ok (Closure params body, input2))); [exact pp_cut | |].
      * intros body. apply cut_ret.
      * intros body input y rest body' _.
        now apply at_end_Ok with (y := Closure params body').
    + intros params input y rest params' H. inv_bind H.
      destruct (pp_end _ _ _ Ha) as [m Hm].
      now apply at_end_bind_Diag with (m := m).
  - apply (cut_bind pp (fun body input1 =>
             ' (params, input2) <-
                delimited fuel "(" ")" "," parse_varname input1 ;;
             Ok (Closure params body, input2))); [exact pp_cut | |].
    + intros body.
      apply (cut_bind (delimited fuel "(" ")" "," parse_varname)
               (fun params input2 => Ok (Closure params body, input2))).
      * apply cut_delimited;
          [exact cut_parse_varname | exact parse_varname_end].
      * intros params. apply cut_ret.
      * intros params input y rest params' _.
        now apply at_end_Ok with (y := Closure params' body).
    + intros body input y rest body' _.
      now apply at_end_Diag with (m := msg_token_expected "(").
Qed.

Lemma parse_closure_end :
  forall input y rest,
    parse_closure fuel pp input = Ok (y, rest) ->
    exists m, parse_closure fuel pp [] = Diag m.
Proof.
  intros input y rest H. unfold parse_closure in H |- *.
  destruct closure_params_first.
  - now exists (msg_token_expected "(").
  - inv_bind H. destruct (pp_end _ _ _ Ha) as [m Hm].
    exists m. now rewrite Hm.
Qed.

Lemma cut_parse_ext : cut (parse_ext fuel).
Proof.
  unfold parse_ext.
  apply (cut_bind (skip_kw "ext") (fun (_ : unit) input1 =>
           let '(funcname, input2) := next input1 in
           if negb (String.eqb (type funcname) "var")
           then error "Function name expected" input2
           else
             ' (params, input3) <-
                delimited fuel "(" ")" "," parse_param input2 ;;
             Ok (Some (Function (value funcname) params None), input3))).
  - apply cut_skip_kw.
  - intros _.
    apply (cut_next (fun funcname input2 =>
             if negb (String.eqb (type funcname) "var")
             then error "Function name expected" input2
             else
               ' (params, input3) <-
                  delimited fuel "(" ")" "," parse_param input2 ;;
               Ok (Some (Function (value funcname) params None), input3))).
    + intros funcname.
      destruct (negb (String.eqb (type funcname) "var")).
      * apply cut_fail. discriminate.
      * apply (cut_bind (delimited fuel "(" ")" "," parse_param)
                 (fun params input3 =>
                    Ok (Some (Function (value funcname) params None),
                        input3))).
        -- apply cut_delimited;
             [exact cut_parse_param | exact parse_param_end].
        -- intros params. apply cut_ret.
        -- intros params input y rest params' _.
           now apply at_end_Ok
             with (y := Some (Function (value funcname) params' None)).
    + intros funcname input y rest _.
      now apply at_end_Diag with (m := "Function name expected").
  - intros u input y rest u' _.
    now apply at_end_Diag with (m := "Function name expected").
Qed.

Lemma cut_parse_func : cut (parse_func fuel pe).
Proof.
  unfold parse_func.
  assert (Hbody : forall funcname,
             cut (fun input2 =>
                    ' (params, input3) <-
                       (if is_punc "(" input2
                        then delimited fuel "(" ")" "," parse_param input2
                        else Ok ([], input2)) ;;
                    ' (body, input4) <- pe input3 ;;
                    Ok (Some (Function funcname params body), input4))).
  { intros funcname.
    apply (cut_bind
             (fun input2 =>
                if is_punc "(" input2
                then delimited fuel "(" ")" "," parse_param input2
                else Ok ([], input2))
             (fun params input3 =>
                ' (body, input4) <- pe input3 ;;
                Ok (Some (Function funcname params body), input4))).
    - apply (cut_if_head (is_punc "(")
               (delimited fuel "(" ")" "," parse_param)
               (fun input2 => Ok ([], input2))).
      + apply is_punc_head.
      + reflexivity.
      + apply cut_cut1, cut_delimited;
          [exact cut_parse_param | exact parse_param_end].
      + apply cut_cut1, cut_ret.
      + intros input y rest _. now apply at_end_Ok with (y := []).
    - intros params.
      apply (cut_bind pe (fun body input4 =>
               Ok (Some (Function funcname params body), input4)));
        [exact pe_cut | |].
      + intros body. apply cut_ret.
      + intros body input y rest body' _.
        now apply at_end_Ok
          with (y := Some (Function funcname params body')).
    - intros params input y rest params' H. inv_bind H.
      destruct (pe_end _ _ _ Ha) as [m Hm].
      now apply at_end_bind_Diag with (m := m). }
  assert (Hend : forall funcname input y rest,
             (' (params, input3) <-
                 (if is_punc "(" input
                  then delimited fuel "(" ")" "," parse_param input
                  else Ok ([], input)) ;;
              ' (body, input4) <- pe input3 ;;
              Ok (Some (Function funcname params body), input4))
             = Ok (y, rest) ->
             exists m, pe [] = Diag m).
  { intros funcname input y rest H. inv_bind H. inv_bind H.
    exact (pe_end _ _ _ Ha0). }
  apply (cut_after_next (fun input1 =>
           let '(tok, input2) := next input1 in
           ' (params, input3) <-
              (if is_punc "(" input2
               then delimited fuel "(" ")" "," parse_param input2
               else Ok ([], input2)) ;;
           ' (body, input4) <- pe input3 ;;
           Ok (Some (Function (value tok) params body), input4))).
  - apply (cut_next (fun tok input2 =>
             ' (params, input3) <-
                (if is_punc "(" input2
                 then delimited fuel "(" ")" "," parse_param input2
                 else Ok ([], input2)) ;;
             ' (body, input4) <- pe input3 ;;
             Ok (Some (Function (value tok) params body), input4))).
    + intros tok. apply Hbody.
    + intros tok input y rest H. destruct (Hend _ _ _ _ H) as [m Hm].
      apply at_end_Diag with (m := m).
      change (is_punc "(" []) with false. cbv iota.
      rewrite bind_Ok; cbv beta iota. now rewrite Hm.
  - intros input y rest H. destruct (next input) as [tok input2].
    destruct (Hend _ _ _ _ H) as [m Hm].
    apply at_end_Diag with (m := m).
    change (next []) with (null_token, @nil Token). cbv iota.
    change (is_punc "(" []) with false. cbv iota.
    rewrite bind_Ok; cbv beta iota. now rewrite Hm.
Qed.

End CutRoutines.

(** *** The mutually recursive routines on a cut stream *)

Lemma parse_atom_end (n : nat) :
  parse_atom (S n) [] = Diag (msg_unexpected null_token).
Proof. reflexivity. Qed.

Lemma maybe_binary_end (n : nat) (left : option Expr) (prec : Z) :
  maybe_binary (S n) left prec [] = Ok (left, []).
Proof. reflexivity. Qed.

Lemma parse_expr_end (n : nat) :
  forall input x rest,
    parse_expr n input = Ok (x, rest) -> exists m, parse_expr n [] = Diag m.
Proof.
  intros input x rest H. destruct n as [|[|n]].
  - discriminate H.
  - discriminate H.
  - now exists (msg_unexpected null_token).
Qed.

Lemma parse_prog_end (n : nat) :
  forall input x rest,
    parse_prog n input = Ok (x, rest) -> exists m, parse_prog n [] = Diag m.
Proof.
  intros input x rest H. destruct n as [|n]; [discriminate H|].
  now exists (msg_token_expected "{").
Qed.

Ltac head_choice :=
  apply cut_if_head;
  [ intros; first [ apply is_kw_head | apply is_punc_head
                  | now rewrite !(is_kw_head _ _ _) ]
  | reflexivity
  | apply cut_cut1
  | apply cut_cut1
  | intros; apply at_end_Diag with (m := msg_unexpected null_token);
    reflexivity ].

Lemma cut_parse_atom_step (n : nat) :
  cut (parse_expr n) -> cut (parse_prog n) -> cut (parse_atom (S n)).
Proof.
  intros He Hp.
  pose proof (parse_expr_end n) as Hee.
  pose proof (parse_prog_end n) as Hpe.
  change (parse_atom (S n)) with
    (maybe_call n (parse_expr n) (fun input =>
       if is_kw "ext" input then parse_ext n input
       else if is_kw "def" input then parse_func n (parse_expr n) input
       else if is_punc "(" input then
         ' (expr, input1) <- parse_expr n (snd (next input)) ;;
         ' (_, input2) <- skip_punc ")" input1 ;;
         Ok (expr, input2)
       else if is_punc "{" input then parse_prog n input
       else if is_kw "if" input then upcast (parse_if (parse_expr n)) input
       else if (is_kw "true" input || is_kw "false" input)%bool
       then upcast parse_bool input
       else if is_kw "cls" input
       then upcast (parse_closure n (parse_prog n)) (snd (next input))
       else
         let '(tok, input1) := next input in
         if String.eqb (type tok) "var"
         then Ok (Some (Identifier (value tok)), input1)
         else if String.eqb (type tok) "num" then
           ' z <- stoi (value tok) ;; Ok (Some (Number z), input1)
         else if String.eqb (type tok) "char"
         then Ok (Some (Character (front (value tok))), input1)
         else if String.eqb (type tok) "str"
         then Ok (Some (String_ (value tok)), input1)
         else unexpected input1)).
  apply cut_maybe_call; [exact He | exact Hee |].
  head_choice; [apply cut_parse_ext|].
  head_choice; [now apply cut_parse_func|].
  head_choice.
  { apply (cut_bind (fun input => parse_expr n (snd (next input)))
             (fun expr input1 =>
                ' (_, input2) <- skip_punc ")" input1 ;; Ok (expr, input2))).
    - apply cut_after_next; [exact He|].
      intros input y rest H. destruct (Hee _ _ _ H) as [m Hm].
      now apply at_end_Diag with (m := m).
    - intros expr.
      apply (cut_bind (skip_punc ")")
               (fun (_ : unit) input2 => Ok (expr, input2))).
      + apply cut_skip_punc.
      + intros _. apply cut_ret.
      + intros u input y rest u' _. now apply at_end_Ok with (y := expr).
    - intros expr input y rest expr' _.
      now apply at_end_Diag with (m := msg_token_expected ")"). }
  head_choice; [exact Hp|].
  head_choice; [now apply cut_upcast, cut_parse_if|].
  head_choice.
  { apply cut_upcast. intros pre ext x rest H. destruct pre as [|t pre].
    - apply cut_at_end.
    - unfold parse_bool in H |- *. simpl in H |- *. inv_ok H.
      apply cut_at_sync. }
  head_choice.
  { apply (cut_after_next (upcast (parse_closure n (parse_prog n)))).
    - now apply cut_upcast, cut_parse_closure.
    - intros input y rest H. unfold upcast in H. inv_bind H.
      destruct (parse_closure_end n _ Hpe _ _ _ Ha) as [m Hm].
      apply at_end_Diag with (m := m). unfold upcast. now rewrite Hm. }
  apply (cut_next (fun tok input1 =>
           if String.eqb (type tok) "var"
           then Ok (Some (Identifier (value tok)), input1)
           else if String.eqb (type tok) "num" then
             ' z <- stoi (value tok) ;; Ok (Some (Number z), input1)
           else if String.eqb (type tok) "char"
           then Ok (Some (Character (front (value tok))), input1)
           else if String.eqb (type tok) "str"
           then Ok (Some (String_ (value tok)), input1)
           else unexpected input1)).
  - intros tok.
    destruct (String.eqb (type tok) "var"); [apply cut_ret|].
    destruct (String.eqb (type tok) "num").
    { destruct (stoi (value tok)) as [z| | |].
      - exact (cut_ret (Some (Number z))).
      - apply cut_fail; discriminate.
      - apply cut_fail; discriminate.
      - apply cut_fail; discriminate. }
    destruct (String.eqb (type tok) "char"); [apply cut_ret|].
    destruct (String.eqb (type tok) "str"); [apply cut_ret|].
    apply cut_fail; discriminate.
  - intros tok input y rest _.
    now apply at_end_Diag with (m := msg_unexpected null_token).
Qed.

Lemma cut_parse_expr_step (n : nat) :
  cut (parse_expr n) -> cut (parse_atom n) ->
  (forall left prec, cut (maybe_binary n left prec)) ->
  cut (parse_expr (S n)).
Proof.
  intros He Ha Hc.
  change (parse_expr (S n)) with
    (maybe_call n (parse_expr n) (fun input =>
       ' (atom, input1) <- parse_atom n input ;;
       maybe_binary n atom 0 input1)).
  apply cut_maybe_call; [exact He | exact (parse_expr_end n) |].
  apply (cut_bind (parse_atom n) (fun atom input1 =>
           maybe_binary n atom 0 input1)); [exact Ha | |].
  - intros atom. apply Hc.
  - intros atom input y rest atom' H.
    destruct n as [|n]; [discriminate H|].
    now apply at_end_Ok with (y := atom').
Qed.

Lemma cut_parse_prog_step (n : nat) :
  cut (parse_expr n) -> cut (parse_prog (S n)).
Proof.
  intros He.
  change (parse_prog (S n)) with
    (fun input =>
       ' (vars, input1) <- delimited n "{" "}" ";" (parse_expr n) input ;;
       match vars with
       | [] => Ok (None, input1)
       | _ :: _ => Ok (Some (Program vars), input1)
       end).
  apply (cut_bind (delimited n "{" "}" ";" (parse_expr n))
           (fun vars input1 =>
              match vars with
              | [] => Ok (None, input1)
              | _ :: _ => Ok (Some (Program vars), input1)
              end)).
  - apply cut_delimited; [exact He | exact (parse_expr_end n)].
  - intros [|v vars]; apply cut_ret.
  - intros vars input y rest [|v' vars'] _.
    + now apply at_end_Ok with (y := None).
    + now apply at_end_Ok with (y := Some (Program (v' :: vars'))).
Qed.

Lemma cut_maybe_binary_step (n : nat) :
  cut (parse_atom n) -> (forall left prec, cut (maybe_binary n left prec)) ->
  forall left prec, cut (maybe_binary (S n) left prec).
Proof.
  intros Ha Hc left prec.
  change (maybe_binary (S n) left prec) with
    (fun input =>
       if is_op EmptyString input then
         ' tokprec <- map_at OP_PRECEDENCE (value (peek input)) ;;
         if tokprec >? prec then
           ' (atom, input2) <- parse_atom n (snd (next input)) ;;
           ' (rhs, input3) <- maybe_binary n atom tokprec input2 ;;
           if String.eqb (value (peek input)) "="
           then maybe_binary n
                  (Some (Assign (value (peek input)) left rhs)) prec input3
           else maybe_binary n
                  (Some (Binary (value (peek input)) left rhs)) prec input3
         else Ok (left, input)
       else Ok (left, input)).
  apply cut_if_head.
  - intros t l. now rewrite !is_op_cons.
  - reflexivity.
  - intros t pre ext y rest H. simpl peek in H |- *. simpl next in H |- *.
    simpl snd in H |- *.
    destruct (map_at OP_PRECEDENCE (value t)) as [tokprec| | |];
      try discriminate H.
    rewrite bind_Ok in H |- *; cbv beta zeta in H |- *.
    destruct (tokprec >? prec).
    + revert H.
      apply (cut_bind (parse_atom n) (fun atom input2 =>
               ' (rhs, input3) <- maybe_binary n atom tokprec input2 ;;
               if String.eqb (value t) "="
               then maybe_binary n (Some (Assign (value t) left rhs))
                      prec input3
               else maybe_binary n (Some (Binary (value t) left rhs))
                      prec input3)); [exact Ha | |].
      * intros atom.
        apply (cut_bind (maybe_binary n atom tokprec) (fun rhs input3 =>
                 if String.eqb (value t) "="
                 then maybe_binary n (Some (Assign (value t) left rhs))
                        prec input3
                 else maybe_binary n (Some (Binary (value t) left rhs))
                        prec input3)); [apply Hc | |].
        -- intros rhs. destruct (String.eqb (value t) "="); apply Hc.
        -- intros rhs input y0 rest0 rhs' H.
           destruct n as [|n];
             [destruct (String.eqb (value t) "="); discriminate H|].
           destruct (String.eqb (value t) "=").
           ++ now apply at_end_Ok
                with (y := Some (Assign (value t) left rhs')).
           ++ now apply at_end_Ok
                with (y := Some (Binary (value t) left rhs')).
      * intros atom input y0 rest0 atom' H. inv_bind H.
        destruct n as [|n]; [discriminate Ha0|].
        destruct (String.eqb (value t) "=").
        -- now apply at_end_Ok
             with (y := Some (Assign (value t) left atom')).
        -- now apply at_end_Ok
             with (y := Some (Binary (value t) left atom')).
    + inv_ok H. apply (cut_at_sync ext left (t :: pre)).
  - apply cut_cut1, cut_ret.
  - intros input y rest _. now apply at_end_Ok with (y := left).
Qed.

Lemma cut_parser (n : nat) :
  cut (parse_atom n) /\ cut (parse_expr n) /\ cut (parse_prog n)
  /\ (forall left prec, cut (maybe_binary n left prec)).
Proof.
  induction n as [|n [Ha [He [Hp Hc]]]].
  - split; [|split; [|split]]; try (apply cut_fail; discriminate).
    intros left prec. apply cut_fail; discriminate.
  - split; [now apply cut_parse_atom_step|].
    split; [now apply cut_parse_expr_step|].
    split; [now apply cut_parse_prog_step | now apply cut_maybe_binary_step].
Qed.

(** A list whose closing delimiter lies beyond the cut raises a diagnostic in
    the cut stream. *)
Lemma delimited_cut_short {T : Type} (parser : Parser T) (fuel : nat)
    (start end_ separator : ascii) (pre ext : Lexer) (items : list T)
    (rest : Lexer) :
  cut parser ->
  (forall input x rest0,
      parser input = Ok (x, rest0) -> exists m, parser [] = Diag m) ->
  delimited fuel start end_ separator parser (pre ++ ext) = Ok (items, rest) ->
  (length rest < length ext)%nat ->
  exists m, delimited fuel start end_ separator parser pre = Diag m.
Proof.
  intros Hc He H Hlen.
  destruct (cut_delimited_closed parser end_ separator Hc He fuel start
              pre ext items rest H) as [[r [-> _]] | Hm]; [|exact Hm].
  rewrite length_app in Hlen. lia.
Qed.

(** A grouped expression whose closing parenthesis lies beyond the cut raises
    a diagnostic in the cut stream. *)
Lemma group_cut_short (n : nat) (t0 : Token) (pre ext : Lexer)
    (e : option Expr) (rest : Lexer) :
  is_punc "(" [t0] = true ->
  parse_expr n (pre ++ ext) = Ok (e, rest) ->
  (length rest <= length ext)%nat ->
  exists m, parse_atom (S n) (t0 :: pre) = Diag m.
Proof.
  intros Hp He Hlen.
  rewrite is_punc_cons in Hp. apply andb_prop in Hp. destruct Hp as [Hty Hch].
  apply String.eqb_eq in Hty.
  destruct t0 as [ty v]; simpl in Hty, Hch; subst ty.
  simpl. unfold maybe_call.
  rewrite !is_kw_cons, is_punc_cons; simpl. rewrite Hch; simpl.
  destruct (cut_parser n) as [_ [Hcut _]].
  destruct (Hcut pre ext _ _ He)
    as [[r [Hr [-> Hq]]] | [[m Hq] | [x' Hq]]]; rewrite Hq.
  - rewrite length_app in Hlen. destruct r; [now elim Hr | simpl in Hlen; lia].
  - now exists m.
  - now exists (msg_token_expected ")").
Qed.

(** ** The routines, one call unfolded *)

Lemma parse_atom_S (n : nat) :
  parse_atom (S n) = maybe_call n (parse_expr n) (atom_lambda n).
Proof. reflexivity. Qed.

Lemma parse_expr_S (n : nat) :
  parse_expr (S n) = maybe_call n (parse_expr n) (expr_lambda n).
Proof. reflexivity. Qed.

Lemma parse_prog_S (n : nat) (input : Lexer) :
  parse_prog (S n) input
  = ' (vars, input1) <- delimited n "{" "}" ";" (parse_expr n) input ;;
    match vars with
    | [] => Ok (None, input1)
    | _ :: _ => Ok (Some (Program vars), input1)
    end.
Proof. reflexivity. Qed.

Lemma maybe_binary_S (n : nat) (left : option Expr) (prec : Z)
    (input : Lexer) :
  maybe_binary (S n) left prec input
  = if is_op EmptyString input then
      ' tokprec <- map_at OP_PRECEDENCE (value (peek input)) ;;
      if tokprec >? prec then
        ' (atom, input2) <- parse_atom n (snd (next input)) ;;
        ' (rhs, input3) <- maybe_binary n atom tokprec input2 ;;
        if String.eqb (value (peek input)) "="
        then maybe_binary n
               (Some (Assign (value (peek input)) left rhs)) prec input3
        else maybe_binary n
               (Some (Binary (value (peek input)) left rhs)) prec input3
      else Ok (left, input)
    else Ok (left, input).
Proof. reflexivity. Qed.

Lemma toplevel_loop_S (n : nat) (ast : list (option Expr)) (input : Lexer) :
  toplevel_loop (S n) ast input
  = if eof input then Ok ast
    else
      ' (e, input1) <- parse_expr (S n) input ;;
      ' (_, input2) <-
         (if negb (eof input1) then skip_punc ";" input1
          else Ok (tt, input1)) ;;
      toplevel_loop n (ast ++ [e]) input2.
Proof. reflexivity. Qed.

(** ** Outcomes of the routines *)

Section Outcomes.

(** [tok_ok] holds of every token of the stream; [D] and [E] hold of what the
    routines raise on such a stream. *)
Variable tok_ok : Token -> Prop.
Variable D : string -> Prop.
Variable E : Exception -> Prop.
Hypothesis D_unexpected : forall t, D (msg_unexpected t).
Hypothesis D_token : forall c, In c delimiters -> D (msg_token_expected c).
Hypothesis D_variable : D "Variable name expected".
Hypothesis D_type : D "Type name expected".
Hypothesis D_function : D "Function name expected".
Hypothesis E_op :
  forall t, tok_ok t -> String.eqb (type t) "op" = true ->
            find_key (value t) OP_PRECEDENCE = None -> E std_out_of_range.
Hypothesis E_num :
  forall t e, tok_ok t -> String.eqb (type t) "num" = true ->
              stoi (value t) = Throw e -> E e.

Local Abbreviation fits := (outcome_in D E).

Lemma fits_weaken {A : Type} (s : bool) (input : Lexer)
    (r : Result (A * Lexer)) :
  fits true input r -> fits s input r.
Proof.
  destruct r as [[x rest]| | |]; simpl; auto.
  intros [pre [-> Hs]]. exists pre. split; [reflexivity | auto].
Qed.

Lemma fits_relax {A : Type} (s : bool) (input : Lexer)
    (r : Result (A * Lexer)) :
  fits s input r -> fits false input r.
Proof.
  destruct r as [[x rest]| | |]; simpl; auto.
  intros [pre [-> Hs]]. exists pre. split; [reflexivity | discriminate].
Qed.

Lemma fits_stay {A : Type} (x : A) (input : Lexer) :
  fits false input (Ok (x, input)).
Proof. exists []. split; [reflexivity | discriminate]. Qed.

Lemma fits_advance {A : Type} (x : A) (t : Token) (rest : Lexer) :
  fits true (t :: rest) (Ok (x, rest)).
Proof. exists [t]. split; [reflexivity | discriminate]. Qed.

Lemma fits_after {A : Type} (s : bool) (t : Token) (rest : Lexer)
    (r : Result (A * Lexer)) :
  fits s rest r -> fits true (t :: rest) r.
Proof.
  destruct r as [[x rest']| | |]; simpl; auto.
  intros [pre [-> _]]. exists (t :: pre). split; [reflexivity | discriminate].
Qed.

Lemma fits_bind {A B : Type} (s1 s2 : bool) (input : Lexer)
    (a : Result (A * Lexer)) (k : A -> Parser B) :
  Forall tok_ok input -> fits s1 input a ->
  (forall x rest, a = Ok (x, rest) -> Forall tok_ok rest ->
                  fits s2 rest (k x rest)) ->
  fits (s1 || s2) input (' (x, input1) <- a ;; k x input1).
Proof.
  intros Hin Ha Hk. destruct a as [[x rest]| | |]; simpl in Ha |- *; auto.
  destruct Ha as [pre [-> Hs]].
  apply Forall_app in Hin. destruct Hin as [_ Hrest].
  specialize (Hk x rest eq_refl Hrest).
  destruct (k x rest) as [[y rest2]| | |]; simpl in Hk |- *; auto.
  destruct Hk as [pre2 [-> Hs2]].
  exists (pre ++ pre2). split; [now rewrite app_assoc|].
  intros Hor. apply orb_prop in Hor. intros Hnil.
  apply app_eq_nil in Hnil. destruct Hnil as [-> ->].
  destruct Hor as [H|H]; [now apply Hs | now apply Hs2].
Qed.

Lemma skip_punc_fits (ch : ascii) (input : Lexer) :
  D (msg_token_expected ch) -> fits true input (skip_punc ch input).
Proof.
  intros Hd. unfold skip_punc. destruct (is_punc ch input) eqn:Ep.
  - destruct input as [|t rest]; [discriminate Ep|].
    exact (fits_advance tt t rest).
  - exact Hd.
Qed.

Lemma parse_varname_fits (input : Lexer) :
  fits true input (parse_varname input).
Proof.
  unfold parse_varname. destruct input as [|t rest]; simpl.
  - exact D_variable.
  - destruct (negb (String.eqb (type t) "var")); [exact D_variable|].
    exact (fits_advance (value t) t rest).
Qed.

Lemma parse_param_fits (input : Lexer) : fits true input (parse_param input).
Proof.
  unfold parse_param. destruct input as [|t rest]; simpl.
  - exact D_type.
  - destruct (negb (String.eqb (type t) "var")); [exact D_type|].
    destruct rest as [|t' rest]; simpl;
      [exact (fits_advance (mkParam (value t) EmptyString) t [])|].
    destruct (String.eqb (type t') "var"); simpl.
    + exists [t; t']. split; [reflexivity | discriminate].
    + exact (fits_advance (mkParam (value t) EmptyString) t (t' :: rest)).
Qed.

Lemma delimited_loop_fits {T : Type} (parser : Parser T)
    (end_ separator : ascii) (sp : bool) :
  (forall input, Forall tok_ok input -> fits sp input (parser input)) ->
  D (msg_token_expected separator) ->
  forall fuel first items input,
    Forall tok_ok input ->
    fits false input
      (delimited_loop fuel end_ separator parser first items input).
Proof.
  intros Hp Hd. induction fuel as [|fuel IH]; intros first items input Hin;
    [exact I|].
  rewrite delimited_loop_S.
  destruct (eof input); [apply fits_stay|].
  destruct (is_punc end_ input); [apply fits_stay|].
  apply (fits_bind false false input
           (if first then Ok (tt, input) else skip_punc separator input)
           (fun (_ : unit) input1 =>
              if is_punc end_ input1 then Ok (items, input1)
              else
                ' (item, input2) <- parser input1 ;;
                delimited_loop fuel end_ separator parser false
                  (items ++ [item]) input2)); [exact Hin | |].
  - destruct first; [apply fits_stay|].
    apply fits_weaken. now apply skip_punc_fits.
  - intros u rest _ Hrest.
    destruct (is_punc end_ rest); [apply fits_stay|].
    apply (fits_relax (sp || false)).
    apply (fits_bind sp false rest (parser rest)
             (fun item input2 =>
                delimited_loop fuel end_ separator parser false
                  (items ++ [item]) input2)); [exact Hrest | now apply Hp |].
    intros item rest2 _ Hrest2. now apply IH.
Qed.

Lemma delimited_fits {T : Type} (parser : Parser T) (fuel : nat)
    (start end_ separator : ascii) (sp : bool) (input : Lexer) :
  (forall input0, Forall tok_ok input0 -> fits sp input0 (parser input0)) ->
  D (msg_token_expected start) -> D (msg_token_expected end_) ->
  D (msg_token_expected separator) ->
  Forall tok_ok input ->
  fits true input (delimited fuel start end_ separator parser input).
Proof.
  intros Hp Hs He Hsep Hin. unfold delimited.
  apply (fits_bind true false input (skip_punc start input)
           (fun (_ : unit) input1 =>
              ' (items, input2) <-
                 delimited_loop fuel end_ separator parser true [] input1 ;;
              ' (_, input3) <- skip_punc end_ input2 ;;
              Ok (items, input3))); [exact Hin | now apply skip_punc_fits |].
  intros u rest _ Hrest.
  apply (fits_relax (false || true)).
  apply (fits_bind false true rest
           (delimited_loop fuel end_ separator parser true [] rest)
           (fun items input2 =>
              ' (_, input3) <- skip_punc end_ input2 ;;
              Ok (items, input3)));
    [exact Hrest | now apply (delimited_loop_fits parser end_ separator sp) |].
  intros items rest2 _ Hrest2.
  apply (fits_bind true false rest2 (skip_punc end_ rest2)
           (fun (_ : unit) input3 => Ok (items, input3)));
    [exact Hrest2 | now apply skip_punc_fits |].
  intros u' rest3 _ _. apply fits_stay.
Qed.

Lemma upcast_fits (p : Parser Expr) (s : bool) (input : Lexer) :
  Forall tok_ok input -> fits s input (p input) ->
  fits s input (upcast p input).
Proof.
  intros Hin Hp. unfold upcast. rewrite <- (orb_false_r s).
  apply (fits_bind s false input (p input)
           (fun e input1 => Ok (Some e, input1))); [exact Hin | exact Hp |].
  intros e rest _ _. apply fits_stay.
Qed.

Lemma stoi_Ok_or_Throw (str : string) :
  (exists z, stoi str = Ok z /\ INT_MIN <= z <= INT_MAX)
  \/ (exists e, stoi str = Throw e).
Proof.
  unfold stoi.
  destruct (match skip_spaces str with
            | String "-"%char s' => (true, s')
            | String "+"%char s' => (false, s')
            | _ => (false, skip_spaces str)
            end) as [negative digits].
  destruct (read_digits digits false 0) as [v|]; [|right; now eexists].
  destruct ((INT_MIN <=? (if negative then - v else v))
            && ((if negative then - v else v) <=? INT_MAX))%bool eqn:Eb.
  - left. eexists. split; [reflexivity|].
    apply andb_prop in Eb. destruct Eb as [E1 E2].
    apply Z.leb_le in E1. apply Z.leb_le in E2. split; assumption.
  - right. now eexists.
Qed.

Section RoutinesFit.

Variable fuel : nat.
Variable pe : Parser (option Expr).
Variable pp : Parser (option Expr).
Hypothesis pe_fits :
  forall input, Forall tok_ok input -> fits true input (pe input).
Hypothesis pp_fits :
  forall input, Forall tok_ok input -> fits true input (pp input).

Lemma D_open : D (msg_token_expected "(").
Proof. apply D_token. simpl. tauto. Qed.

Lemma D_close : D (msg_token_expected ")").
Proof. apply D_token. simpl. tauto. Qed.

Lemma D_comma : D (msg_token_expected ",").
Proof. apply D_token. simpl. tauto. Qed.

Lemma parse_call_fits (func : option Expr) (input : Lexer) :
  Forall tok_ok input -> fits true input (parse_call fuel pe func input).
Proof.
  intros Hin. unfold parse_call.
  apply (fits_bind true false input (delimited fuel "(" ")" "," pe input)
           (fun args input1 => Ok (Call func args, input1))); [exact Hin | |].
  - apply (delimited_fits pe fuel "(" ")" "," true);
      auto using D_open, D_close, D_comma.
  - intros args rest _ _. apply fits_stay.
Qed.

Lemma maybe_call_fits (call : Parser (option Expr)) (s : bool)
    (input : Lexer) :
  Forall tok_ok input -> fits s input (call input) ->
  fits s input (maybe_call fuel pe call input).
Proof.
  intros Hin Hc. unfold maybe_call. rewrite <- (orb_false_r s).
  apply (fits_bind s false input (call input)
           (fun result input1 =>
              if is_punc "(" input1
              then upcast (parse_call fuel pe result) input1
              else Ok (result, input1))); [exact Hin | exact Hc |].
  intros result rest _ Hrest.
  destruct (is_punc "(" rest); [|apply fits_stay].
  apply upcast_fits; [exact Hrest|].
  apply fits_weaken. now apply parse_call_fits.
Qed.

Lemma fits_after_next {A : Type} (s : bool) (input : Lexer)
    (r : Result (A * Lexer)) :
  fits s (snd (next input)) r -> fits s input r.
Proof.
  destruct input as [|t rest]; [trivial|]. simpl.
  intros H. apply fits_weaken. exact (fits_after s t rest r H).
Qed.

Lemma Forall_next (input : Lexer) :
  Forall tok_ok input -> Forall tok_ok (snd (next input)).
Proof.
  destruct input as [|t rest]; [trivial|]. simpl.
  intros H. now inversion H.
Qed.

Lemma parse_if_fits (input : Lexer) :
  is_kw "if" input = true -> Forall tok_ok input ->
  fits true input (parse_if pe input).
Proof.
  intros Hkw Hin. unfold parse_if, skip_kw. rewrite Hkw.
  rewrite bind_Ok; cbv beta iota.
  destruct input as [|t rest]; [discriminate Hkw|]. simpl snd.
  apply Forall_next in Hin. simpl in Hin.
  apply (fits_after true).
  apply (fits_bind true false rest (pe rest)
           (fun cond input2 =>
              ' (then_, input3) <- pe input2 ;;
              if is_kw "else" input3 then
                ' (els, input4) <- pe (snd (next input3)) ;;
                Ok (If cond then_ els, input4)
              else Ok (If cond then_ None, input3)));
    [exact Hin | now apply pe_fits |].
  intros cond rest2 _ Hrest2. apply (fits_relax (true || false)).
  apply (fits_bind true false rest2 (pe rest2)
           (fun then_ input3 =>
              if is_kw "else" input3 then
                ' (els, input4) <- pe (snd (next input3)) ;;
                Ok (If cond then_ els, input4)
              else Ok (If cond then_ None, input3)));
    [exact Hrest2 | now apply pe_fits |].
  intros then_ rest3 _ Hrest3.
  destruct (is_kw "else" rest3); [|apply fits_stay].
  apply fits_after_next. apply (fits_relax (true || false)).
  apply (fits_bind true false (snd (next rest3)) (pe (snd (next rest3)))
           (fun els input4 => Ok (If cond then_ els, input4)));
    [now apply Forall_next | now apply pe_fits, Forall_next |].
  intros els rest4 _ _. apply fits_stay.
Qed.

Lemma parse_closure_fits (input : Lexer) :
  Forall tok_ok input -> fits true input (parse_closure fuel pp input).
Proof.
  intros Hin. unfold parse_closure. destruct closure_params_first.
  - apply (fits_bind true false input
             (delimited fuel "(" ")" "," parse_varname input)
             (fun params input1 =>
                ' (body, input2) <- pp input1 ;;
                Ok (Closure params body, input2))); [exact Hin | |].
    + apply (delimited_fits parse_varname fuel "(" ")" "," true);
        auto using D_open, D_close, D_comma.
      intros input0 _. apply parse_varname_fits.
    + intros params rest _ Hrest. apply (fits_relax (true || false)).
      apply (fits_bind true false rest (pp rest)
               (fun body input2 => Ok (Closure params body, input2)));
        [exact Hrest | now apply pp_fits |].
      intros body rest2 _ _. apply fits_stay.
  - apply (fits_bind true false input (pp input)
             (fun body input1 =>
                ' (params, input2) <-
                   delimited fuel "(" ")" "," parse_varname input1 ;;
                Ok (Closure params body, input2)));
      [exact Hin | now apply pp_fits |].
    intros body rest _ Hrest. apply (fits_relax (true || false)).
    apply (fits_bind true false rest
             (delimited fuel "(" ")" "," parse_varname rest)
             (fun params input2 => Ok (Closure params body, input2)));
      [exact Hrest | |].
    + apply (delimited_fits parse_varname fuel "(" ")" "," true);
        auto using D_open, D_close, D_comma.
      intros input0 _. apply parse_varname_fits.
    + intros params rest2 _ _. apply fits_stay.
Qed.

Lemma parse_ext_fits (input : Lexer) :
  is_kw "ext" input = true -> Forall tok_ok input ->
  fits true input (parse_ext fuel input).
Proof.
  intros Hkw Hin. unfold parse_ext, skip_kw. rewrite Hkw.
  rewrite bind_Ok; cbv beta iota.
  destruct input as [|t rest]; [discriminate Hkw|]. simpl snd.
  apply Forall_next in Hin. simpl in Hin.
  apply (fits_after true).
  destruct rest as [|funcname rest]; [exact D_function|]. simpl next.
  cbv iota.
  destruct (negb (String.eqb (type funcname) "var")); [exact D_function|].
  apply Forall_next in Hin. simpl in Hin. apply (fits_after false).
  apply (fits_relax (true || false)).
  apply (fits_bind true false rest
           (delimited fuel "(" ")" "," parse_param rest)
           (fun params input3 =>
              Ok (Some (Function (value funcname) params None), input3)));
    [exact Hin | |].
  - apply (delimited_fits parse_param fuel "(" ")" "," true);
      auto using D_open, D_close, D_comma.
    intros input0 _. apply parse_param_fits.
  - intros params rest2 _ _. apply fits_stay.
Qed.

Lemma parse_func_fits (input : Lexer) :
  Forall tok_ok input -> fits true input (parse_func fuel pe input).
Proof.
  intros Hin. unfold parse_func.
  apply fits_after_next.
  destruct (next (snd (next input))) as [tok input2] eqn:En.
  assert (Hin2 : Forall tok_ok input2).
  { replace input2 with (snd (next (snd (next input))))
      by now rewrite En.
    now apply Forall_next, Forall_next. }
  assert (Hgo : fits true input2
            (' (params, input3) <-
                (if is_punc "(" input2
                 then delimited fuel "(" ")" "," parse_param input2
                 else Ok ([], input2)) ;;
             ' (body, input4) <- pe input3 ;;
             Ok (Some (Function (value tok) params body), input4))).
  { apply (fits_bind false true input2
             (if is_punc "(" input2
              then delimited fuel "(" ")" "," parse_param input2
              else Ok ([], input2))
             (fun params input3 =>
                ' (body, input4) <- pe input3 ;;
                Ok (Some (Function (value tok) params body), input4)));
      [exact Hin2 | |].
    - destruct (is_punc "(" input2); [|apply fits_stay].
      apply fits_weaken.
      apply (delimited_fits parse_param fuel "(" ")" "," true);
        auto using D_open, D_close, D_comma.
      intros input0 _. apply parse_param_fits.
    - intros params rest _ Hrest.
      apply (fits_bind true false rest (pe rest)
               (fun body input4 =>
                  Ok (Some (Function (value tok) params body), input4)));
        [exact Hrest | now apply pe_fits |].
      intros body rest2 _ _. apply fits_stay. }
  apply fits_after_next. rewrite En. exact Hgo.
Qed.

End RoutinesFit.

Local Abbreviation fit_atom := (fits_atom tok_ok D E).
Local Abbreviation fit_expr := (fits_expr tok_ok D E).
Local Abbreviation fit_prog := (fits_prog tok_ok D E).
Local Abbreviation fit_binary := (fits_binary tok_ok D E).

Lemma atom_lambda_fits (n : nat) (input : Lexer) :
  fit_expr n -> fit_prog n -> Forall tok_ok input ->
  fits true input (atom_lambda n input).
Proof.
  intros He Hp Hin. unfold atom_lambda.
  destruct (is_kw "ext" input) eqn:Eext; [now apply parse_ext_fits|].
  destruct (is_kw "def" input) eqn:Edef; [now apply parse_func_fits|].
  destruct (is_punc "(" input) eqn:Eopen.
  { destruct input as [|t rest]; [discriminate Eopen|].
    apply fits_after_next.
    apply (fits_bind true false (snd (next (t :: rest)))
             (parse_expr n (snd (next (t :: rest))))
             (fun expr input1 =>
                ' (_, input2) <- skip_punc ")" input1 ;;
                Ok (expr, input2)));
      [now apply Forall_next | now apply He, Forall_next |].
    intros expr rest1 _ Hrest1. apply (fits_relax (true || false)).
    apply (fits_bind true false rest1 (skip_punc ")" rest1)
             (fun (_ : unit) input2 => Ok (expr, input2)));
      [exact Hrest1 | apply skip_punc_fits, D_close |].
    intros u rest2 _ _. apply fits_stay. }
  destruct (is_punc "{" input) eqn:Ebrace; [now apply Hp|].
  destruct (is_kw "if" input) eqn:Eif.
  { apply upcast_fits; [exact Hin|]. now apply parse_if_fits. }
  destruct (is_kw "true" input || is_kw "false" input)%bool eqn:Ebool.
  { destruct input as [|t rest]; [discriminate Ebool|].
    exact (fits_advance (Some (Boolean (String.eqb (value t) "true")))
             t rest). }
  destruct (is_kw "cls" input) eqn:Ecls.
  { destruct input as [|t rest]; [discriminate Ecls|].
    apply fits_after_next. apply upcast_fits; [now apply Forall_next|].
    apply (parse_closure_fits n (parse_prog n) Hp). now apply Forall_next. }
  destruct input as [|t rest]; [exact (D_unexpected _)|].
  simpl next. cbv iota.
  destruct (String.eqb (type t) "var");
    [exact (fits_advance (Some (Identifier (value t))) t rest)|].
  destruct (String.eqb (type t) "num") eqn:Enum.
  { destruct (stoi_Ok_or_Throw (value t)) as [[z [Hz _]] | [e He']].
    - rewrite Hz. exact (fits_advance (Some (Number z)) t rest).
    - rewrite He'. apply (E_num t e); [now inversion Hin | exact Enum
                                        | exact He']. }
  destruct (String.eqb (type t) "char");
    [exact (fits_advance (Some (Character (front (value t)))) t rest)|].
  destruct (String.eqb (type t) "str");
    [exact (fits_advance (Some (String_ (value t))) t rest)|].
  exact (D_unexpected _).
Qed.

Lemma parse_atom_fits_step (n : nat) :
  fit_expr n -> fit_prog n -> fit_atom (S n).
Proof.
  intros He Hp input Hin. rewrite parse_atom_S.
  apply maybe_call_fits; [exact He | exact Hin |].
  now apply atom_lambda_fits.
Qed.

Lemma parse_expr_fits_step (n : nat) :
  fit_expr n -> fit_atom n -> fit_binary n -> fit_expr (S n).
Proof.
  intros He Ha Hc input Hin.
  change (parse_expr (S n) input) with
    (maybe_call n (parse_expr n) (fun input =>
       ' (atom, input1) <- parse_atom n input ;;
       maybe_binary n atom 0 input1) input).
  apply maybe_call_fits; [exact He | exact Hin |]. cbv beta.
  apply (fits_bind true false input (parse_atom n input)
           (fun atom input1 => maybe_binary n atom 0 input1));
    [exact Hin | now apply Ha |].
  intros atom rest _ Hrest. now apply Hc.
Qed.

Lemma D_brace_open : D (msg_token_expected "{").
Proof. apply D_token. simpl. tauto. Qed.

Lemma D_brace_close : D (msg_token_expected "}").
Proof. apply D_token. simpl. tauto. Qed.

Lemma D_semicolon : D (msg_token_expected ";").
Proof. apply D_token. simpl. tauto. Qed.

Lemma parse_prog_fits_step (n : nat) : fit_expr n -> fit_prog (S n).
Proof.
  intros He input Hin.
  change (parse_prog (S n) input) with
    (' (vars, input1) <- delimited n "{" "}" ";" (parse_expr n) input ;;
     match vars with
     | [] => Ok (None, input1)
     | _ :: _ => Ok (Some (Program vars), input1)
     end).
  apply (fits_bind true false input
           (delimited n "{" "}" ";" (parse_expr n) input)
           (fun vars input1 =>
              match vars with
              | [] => Ok (None, input1)
              | _ :: _ => Ok (Some (Program vars), input1)
              end)); [exact Hin | |].
  - apply (delimited_fits (parse_expr n) n "{" "}" ";" true);
      auto using D_brace_open, D_brace_close, D_semicolon.
  - intros [|v vars] rest _ _; apply fits_stay.
Qed.

Lemma maybe_binary_fits_step (n : nat) :
  fit_atom n -> fit_binary n -> fit_binary (S n).
Proof.
  intros Ha Hc left prec input Hin.
  change (maybe_binary (S n) left prec input) with
    (if is_op EmptyString input then
       ' tokprec <- map_at OP_PRECEDENCE (value (peek input)) ;;
       if tokprec >? prec then
         ' (atom, input2) <- parse_atom n (snd (next input)) ;;
         ' (rhs, input3) <- maybe_binary n atom tokprec input2 ;;
         if String.eqb (value (peek input)) "="
         then maybe_binary n
                (Some (Assign (value (peek input)) left rhs)) prec input3
         else maybe_binary n
                (Some (Binary (value (peek input)) left rhs)) prec input3
       else Ok (left, input)
     else Ok (left, input)).
  destruct (is_op EmptyString input) eqn:Eop; [|apply fits_stay].
  destruct input as [|t rest]; [discriminate Eop|].
  rewrite is_op_cons in Eop. simpl peek. simpl next. simpl snd.
  unfold map_at.
  destruct (find_key (value t) OP_PRECEDENCE) as [tokprec|] eqn:Ekey.
  - rewrite bind_Ok; cbv beta zeta.
    destruct (tokprec >? prec); [|apply fits_stay].
    apply Forall_next in Hin. simpl in Hin.
    apply (fits_relax true). apply (fits_after (true || false)).
    apply (fits_bind true false rest (parse_atom n rest)
             (fun atom input2 =>
                ' (rhs, input3) <- maybe_binary n atom tokprec input2 ;;
                if String.eqb (value t) "="
                then maybe_binary n (Some (Assign (value t) left rhs))
                       prec input3
                else maybe_binary n (Some (Binary (value t) left rhs))
                       prec input3)); [exact Hin | now apply Ha |].
    intros atom rest2 _ Hrest2.
    apply (fits_bind false false rest2 (maybe_binary n atom tokprec rest2)
             (fun rhs input3 =>
                if String.eqb (value t) "="
                then maybe_binary n (Some (Assign (value t) left rhs))
                       prec input3
                else maybe_binary n (Some (Binary (value t) left rhs))
                       prec input3)); [exact Hrest2 | now apply Hc |].
    intros rhs rest3 _ Hrest3.
    destruct (String.eqb (value t) "="); now apply Hc.
  - apply (E_op t); [now inversion Hin | exact Eop | exact Ekey].
Qed.

Lemma parser_fits (n : nat) :
  fit_atom n /\ fit_expr n /\ fit_prog n /\ fit_binary n.
Proof.
  induction n as [|n [Ha [He [Hp Hc]]]].
  - repeat apply conj; repeat intro; exact I.
  - repeat apply conj.
    + now apply parse_atom_fits_step.
    + now apply parse_expr_fits_step.
    + now apply parse_prog_fits_step.
    + now apply maybe_binary_fits_step.
Qed.

(** [parse_toplevel] returns no input; its diagnostics and exceptions are
    those of the routines. *)
Lemma toplevel_loop_fits (fuel : nat) :
  forall ast input,
    Forall tok_ok input ->
    match toplevel_loop fuel ast input with
    | Diag m => D m
    | Throw e => E e
    | _ => True
    end.
Proof.
  induction fuel as [|n IH]; intros ast input Hin; [exact I|].
  change (toplevel_loop (S n) ast input) with
    (if eof input then Ok ast
     else
       ' (e, input1) <- parse_expr (S n) input ;;
       ' (_, input2) <-
          (if negb (eof input1) then skip_punc ";" input1
           else Ok (tt, input1)) ;;
       toplevel_loop n (ast ++ [e]) input2).
  destruct (eof input); [exact I|].
  destruct (parser_fits (S n)) as [_ [He _]].
  specialize (He input Hin).
  destruct (parse_expr (S n) input) as [[e input1]| | |]; simpl in He |- *;
    auto.
  destruct He as [pre [-> _]].
  apply Forall_app in Hin. destruct Hin as [_ Hin1].
  assert (Hs : fits false input1
                 (if negb (eof input1) then skip_punc ";" input1
                  else Ok (tt, input1))).
  { destruct (negb (eof input1)); [|apply fits_stay].
    apply fits_weaken. apply skip_punc_fits, D_semicolon. }
  destruct (if negb (eof input1) then skip_punc ";" input1
            else Ok (tt, input1)) as [[u input2]| | |]; simpl in Hs |- *;
    auto.
  destruct Hs as [pre2 [-> _]].
  apply Forall_app in Hin1. destruct Hin1 as [_ Hin2].
  now apply IH.
Qed.

End Outcomes.

(** ** What a parse consumes, raises and throws *)

Lemma Forall_True (input : Lexer) : Forall (fun _ : Token => True) input.
Proof. apply Forall_forall. trivial. Qed.

Lemma parser_consumes (n : nat) :
  fits_atom (fun _ => True) (fun _ => True) (fun _ => True) n
  /\ fits_expr (fun _ => True) (fun _ => True) (fun _ => True) n
  /\ fits_prog (fun _ => True) (fun _ => True) (fun _ => True) n
  /\ fits_binary (fun _ => True) (fun _ => True) (fun _ => True) n.
Proof. apply parser_fits; trivial. Qed.

Lemma proper_suffix {A : Type} (D : string -> Prop) (E : Exception -> Prop)
    (input : Lexer) (x : A) (rest : Lexer) :
  outcome_in D E true input (Ok (x, rest)) ->
  exists pre, pre <> [] /\ input = pre ++ rest.
Proof. intros [pre [-> Hs]]. exists pre. split; [now apply Hs | reflexivity]. Qed.

(** X1: a routine that returns an expression has read at least one token, and
    what it leaves is what followed the tokens it read; [maybe_binary] leaves
    a suffix of its input as well. *)
Theorem X1_successful_parse_consumes :
  (forall n input e rest,
      parse_atom n input = Ok (e, rest) ->
      exists pre, pre <> [] /\ input = pre ++ rest)
  /\ (forall n input e rest,
      parse_expr n input = Ok (e, rest) ->
      exists pre, pre <> [] /\ input = pre ++ rest)
  /\ (forall n input e rest,
      parse_prog n input = Ok (e, rest) ->
      exists pre, pre <> [] /\ input = pre ++ rest)
  /\ (forall n left prec input e rest,
      maybe_binary n left prec input = Ok (e, rest) ->
      exists pre, input = pre ++ rest).
Proof.
  repeat apply conj.
  - intros n input e rest H. destruct (parser_consumes n) as [Ha _].
    specialize (Ha input (Forall_True input)). rewrite H in Ha.
    exact (proper_suffix _ _ _ _ _ Ha).
  - intros n input e rest H. destruct (parser_consumes n) as [_ [He _]].
    specialize (He input (Forall_True input)). rewrite H in He.
    exact (proper_suffix _ _ _ _ _ He).
  - intros n input e rest H. destruct (parser_consumes n) as [_ [_ [Hp _]]].
    specialize (Hp input (Forall_True input)). rewrite H in Hp.
    exact (proper_suffix _ _ _ _ _ Hp).
  - intros n left prec input e rest H.
    destruct (parser_consumes n) as [_ [_ [_ Hc]]].
    specialize (Hc left prec input (Forall_True input)). rewrite H in Hc.
    destruct Hc as [pre [-> _]]. now exists pre.
Qed.

Lemma known_tokens (input : Lexer) :
  forallb known_token input = true ->
  Forall (fun t => known_token t = true) input.
Proof. intros H. apply Forall_forall. now apply forallb_forall. Qed.

Lemma known_op (t : Token) :
  known_token t = true -> String.eqb (type t) "op" = true ->
  find_key (value t) OP_PRECEDENCE = None -> False.
Proof.
  unfold known_token. intros H Hop Hk. rewrite Hop, Hk in H. discriminate H.
Qed.

Lemma known_num (t : Token) (e : Exception) :
  known_token t = true -> String.eqb (type t) "num" = true ->
  stoi (value t) = Throw e -> False.
Proof.
  unfold known_token. intros H Hnum Hs. rewrite Hnum, Hs in H.
  rewrite andb_false_r in H. discriminate H.
Qed.

(** X2: on a stream whose operator tokens are all keys of the precedence
    table and whose number tokens are all accepted by [std::stoi], no routine
    ends with a C++ exception: a parse that fails fails with a diagnostic. *)
Theorem X2_no_exception_on_known_tokens :
  (forall fuel input e,
      forallb known_token input = true ->
      parse_toplevel fuel input <> Throw e)
  /\ (forall n input e,
      forallb known_token input = true ->
      parse_expr n input <> Throw e).
Proof.
  split.
  - intros fuel input e Hk H.
    pose proof (toplevel_loop_fits (fun t => known_token t = true)
                  (fun _ => True) (fun _ => False)
                  (fun _ => I) (fun _ _ => I) I I I known_op known_num
                  fuel [] input (known_tokens input Hk)) as Hf.
    unfold parse_toplevel in H. rewrite H in Hf. exact Hf.
  - intros n input e Hk H.
    destruct (parser_fits (fun t => known_token t = true)
                (fun _ => True) (fun _ => False)
                (fun _ => I) (fun _ _ => I) I I I known_op known_num n)
      as [_ [He _]].
    specialize (He input (known_tokens input Hk)). rewrite H in He.
    exact He.
Qed.

Lemma raised_unexpected (t : Token) : raised (msg_unexpected t).
Proof. left. now exists t. Qed.

Lemma raised_token (c : ascii) :
  In c delimiters -> raised (msg_token_expected c).
Proof. intros H. right; left. now exists c. Qed.

Lemma keyword_not_raised (k : string) : ~ raised (msg_keyword_expected k).
Proof.
  intros [[t H] | [[c [_ H]] | [H | [H | H]]]]; discriminate H.
Qed.

Lemma operator_not_raised (o : string) : ~ raised (msg_operator_expected o).
Proof.
  intros [[t H] | [[c [_ H]] | [H | [H | H]]]]; discriminate H.
Qed.

(** X3: every diagnostic of [parse_toplevel] is "Unexpected token", "Token
    'c' expected" for one of the six delimiters, or one of the three messages
    about names.  The messages of [skip_kw] and [skip_op] are never raised:
    [skip_kw] is only called on the keyword it asks for, and [skip_op] is not
    called. *)
Theorem X3_diagnostics_of_the_parser :
  (forall fuel input m, parse_toplevel fuel input = Diag m -> raised m)
  /\ (forall fuel input k,
      parse_toplevel fuel input <> Diag (msg_keyword_expected k))
  /\ (forall fuel input o,
      parse_toplevel fuel input <> Diag (msg_operator_expected o)).
Proof.
  assert (Hr : forall fuel input m,
             parse_toplevel fuel input = Diag m -> raised m).
  { intros fuel input m H.
    pose proof (toplevel_loop_fits (fun _ => True) raised (fun _ => True)
                  raised_unexpected raised_token
                  ltac:(right; right; left; reflexivity)
                  ltac:(right; right; right; left; reflexivity)
                  ltac:(right; right; right; right; reflexivity)
                  (fun _ _ _ _ => I) (fun _ _ _ _ _ => I)
                  fuel [] input (Forall_True input)) as Hf.
    unfold parse_toplevel in H. rewrite H in Hf. exact Hf. }
  repeat apply conj.
  - exact Hr.
  - intros fuel input k H. exact (keyword_not_raised k (Hr _ _ _ H)).
  - intros fuel input o H. exact (operator_not_raised o (Hr _ _ _ H)).
Qed.

(** ** More fuel *)

Lemma below_refl {A : Type} (r : Result A) : below r r.
Proof. now right. Qed.

Lemma below_bind {A B : Type} (a a' : Result A) (k k' : A -> Result B) :
  below a a' -> (forall x, below (k x) (k' x)) ->
  below (bind a k) (bind a' k').
Proof.
  intros [-> | ->] Hk; [now left|].
  destruct a as [x| | |]; simpl; [apply Hk | now right | now right | now left].
Qed.

Lemma below_trans {A : Type} (r1 r2 r3 : Result A) :
  below r1 r2 -> below r2 r3 -> below r1 r3.
Proof.
  intros [-> | ->] H; [now left | exact H].
Qed.

Section Growth.

Context {T : Type}.
Variables p p' : Parser T.
Hypothesis p_grows : forall input, below (p input) (p' input).

Lemma below_loop (end_ separator : ascii) (fuel : nat) :
  forall first items input,
    below (delimited_loop fuel end_ separator p first items input)
      (delimited_loop (S fuel) end_ separator p' first items input).
Proof.
  induction fuel as [|fuel IH]; intros first items input; [now left|].
  rewrite (delimited_loop_S (S fuel)). rewrite (delimited_loop_S fuel).
  destruct (eof input); [apply below_refl|].
  destruct (is_punc end_ input); [apply below_refl|].
  apply below_bind; [apply below_refl|]. intros [u input1].
  destruct (is_punc end_ input1); [apply below_refl|].
  apply below_bind; [apply p_grows|]. intros [item input2]. apply IH.
Qed.

Lemma below_delimited (fuel : nat) (start end_ separator : ascii)
    (input : Lexer) :
  below (delimited fuel start end_ separator p input)
    (delimited (S fuel) start end_ separator p' input).
Proof.
  unfold delimited. apply below_bind; [apply below_refl|]. intros [u input1].
  apply below_bind; [apply below_loop|]. intros [items input2].
  apply below_refl.
Qed.

End Growth.

Ltac mono :=
  repeat first
    [ apply below_refl
    | match goal with
      | H : forall input, below (?f input) (?g input)
        |- below (?f _) (?g _) => apply H
      | H : forall left prec input, below (?f left prec input) _
        |- below (?f _ _ _) _ => apply H
      end
    | apply below_delimited; intros ?
    | apply below_bind; [|intros [? ?]]
    | apply below_bind; [|intros ?]
    | match goal with
      | |- below (if ?c then _ else _) (if ?c then _ else _) => destruct c
      | |- below (match ?x with _ => _ end) (match ?x with _ => _ end) =>
          destruct x
      end
    | progress cbv beta iota zeta ].

Lemma below_maybe_call (fuel : nat) (pe pe' call call' : Parser (option Expr))
    (input : Lexer) :
  (forall input0, below (pe input0) (pe' input0)) ->
  (forall input0, below (call input0) (call' input0)) ->
  below (maybe_call fuel pe call input) (maybe_call (S fuel) pe' call' input).
Proof.
  intros Hpe Hcall. unfold maybe_call, upcast, parse_call. mono.
Qed.

Lemma parser_grows (n : nat) :
  (forall input, below (parse_atom n input) (parse_atom (S n) input))
  /\ (forall input, below (parse_expr n input) (parse_expr (S n) input))
  /\ (forall input, below (parse_prog n input) (parse_prog (S n) input))
  /\ (forall left prec input,
        below (maybe_binary n left prec input)
          (maybe_binary (S n) left prec input)).
Proof.
  induction n as [|n [Ha [He [Hp Hc]]]].
  - repeat apply conj; intros; now left.
  - repeat apply conj.
    + intros input. rewrite (parse_atom_S (S n)), (parse_atom_S n).
      apply below_maybe_call; [exact He|]. intros input0.
      unfold atom_lambda, upcast, parse_ext, parse_func, parse_if,
        parse_closure. mono.
    + intros input.
      change (parse_expr (S (S n)) input) with
        (maybe_call (S n) (parse_expr (S n)) (expr_lambda (S n)) input).
      change (parse_expr (S n) input) with
        (maybe_call n (parse_expr n) (expr_lambda n) input).
      apply below_maybe_call; [exact He|]. intros input0.
      unfold expr_lambda. mono.
    + intros input. rewrite (parse_prog_S (S n)), (parse_prog_S n). mono.
    + intros left prec input.
      rewrite (maybe_binary_S (S n)), (maybe_binary_S n). mono.
Qed.

Lemma toplevel_loop_grows (n : nat) :
  forall ast input,
    below (toplevel_loop n ast input) (toplevel_loop (S n) ast input).
Proof.
  induction n as [|n IH]; intros ast input; [now left|].
  rewrite (toplevel_loop_S (S n)), (toplevel_loop_S n).
  destruct (parser_grows (S n)) as [_ [He _]]. mono; apply IH.
Qed.

Lemma toplevel_loop_settled (n m : nat) (ast : list (option Expr))
    (input : Lexer) :
  (n <= m)%nat -> toplevel_loop n ast input <> OutOfFuel ->
  toplevel_loop m ast input = toplevel_loop n ast input.
Proof.
  induction 1 as [|m Hle IH]; intros Hn; [reflexivity|].
  destruct (toplevel_loop_grows m ast input) as [Ho | ->].
  - rewrite (IH Hn) in Ho. contradiction.
  - exact (IH Hn).
Qed.

(** ** The parser comes to an end *)

Lemma live_bind {A B : Type} (a : Result A) (k : A -> Result B) :
  a <> OutOfFuel -> (forall x, a = Ok x -> k x <> OutOfFuel) ->
  bind a k <> OutOfFuel.
Proof.
  intros Ha Hk. destruct a as [x| | |]; simpl;
    [now apply Hk | discriminate | discriminate | now elim Ha].
Qed.

Lemma outcome_length {A : Type} (s : bool) (input : Lexer) (x : A)
    (rest : Lexer) :
  outcome_in (fun _ => True) (fun _ => True) s input (Ok (x, rest)) ->
  (length rest <= length input)%nat
  /\ (s = true -> (length rest < length input)%nat).
Proof.
  intros [pre [-> Hs]]. rewrite length_app. split; [lia|].
  intros E. specialize (Hs E). destruct pre; [now elim Hs | simpl; lia].
Qed.

Lemma outcome_shorter {A : Type} (input : Lexer) (x : A) (rest : Lexer) :
  outcome_in (fun _ => True) (fun _ => True) true input (Ok (x, rest)) ->
  (length rest < length input)%nat.
Proof. intros H. apply outcome_length in H. now apply H. Qed.

Lemma parse_atom_shrinks (n : nat) : shrinks (parse_atom n).
Proof.
  intros input e rest H. destruct (parser_consumes n) as [Ha _].
  specialize (Ha input (Forall_True input)). rewrite H in Ha.
  exact (outcome_shorter _ _ _ Ha).
Qed.

Lemma parse_expr_shrinks (n : nat) : shrinks (parse_expr n).
Proof.
  intros input e rest H. destruct (parser_consumes n) as [_ [He _]].
  specialize (He input (Forall_True input)). rewrite H in He.
  exact (outcome_shorter _ _ _ He).
Qed.

Lemma parse_prog_shrinks (n : nat) : shrinks (parse_prog n).
Proof.
  intros input e rest H. destruct (parser_consumes n) as [_ [_ [Hp _]]].
  specialize (Hp input (Forall_True input)). rewrite H in Hp.
  exact (outcome_shorter _ _ _ Hp).
Qed.

Lemma maybe_binary_length (n : nat) (left : option Expr) (prec : Z)
    (input : Lexer) (e : option Expr) (rest : Lexer) :
  maybe_binary n left prec input = Ok (e, rest) ->
  (length rest <= length input)%nat.
Proof.
  intros H. destruct (parser_consumes n) as [_ [_ [_ Hc]]].
  specialize (Hc left prec input (Forall_True input)). rewrite H in Hc.
  apply outcome_length in Hc. now apply Hc.
Qed.

Lemma atom_lambda_shrinks (n : nat) : shrinks (atom_lambda n).
Proof.
  intros input e rest H. destruct (parser_consumes n) as [_ [He [Hp _]]].
  pose proof (atom_lambda_fits (fun _ => True) (fun _ => True)
                (fun _ => True) (fun _ => I) (fun _ _ => I) I I I
                (fun _ _ _ _ _ => I) n input He Hp (Forall_True input))
    as Hf.
  rewrite H in Hf. exact (outcome_shorter _ _ _ Hf).
Qed.

Lemma parse_varname_shrinks : shrinks parse_varname.
Proof.
  intros input x rest H.
  pose proof (parse_varname_fits (fun _ => True) (fun _ => True) I input)
    as Hf.
  rewrite H in Hf. exact (outcome_shorter _ _ _ Hf).
Qed.

Lemma parse_param_shrinks : shrinks parse_param.
Proof.
  intros input x rest H.
  pose proof (parse_param_fits (fun _ => True) (fun _ => True) I input)
    as Hf.
  rewrite H in Hf. exact (outcome_shorter _ _ _ Hf).
Qed.

Lemma skip_punc_length (ch : ascii) (input : Lexer) (u : unit)
    (rest : Lexer) :
  skip_punc ch input = Ok (u, rest) -> length input = S (length rest).
Proof.
  intros H. apply skip_punc_Ok in H. destruct H as [tok [-> _]]. reflexivity.
Qed.

Lemma skip_punc_live (ch : ascii) (input : Lexer) :
  skip_punc ch input <> OutOfFuel.
Proof. unfold skip_punc. destruct (is_punc ch input); discriminate. Qed.

Section LiveDelimited.

Context {T : Type}.
Variable parser : Parser T.
Variables end_ separator : ascii.
Hypothesis parser_shrinks : shrinks parser.

Lemma delimited_loop_live (fuel : nat) :
  forall first items input,
    runs parser (S (length input)) -> (length input < fuel)%nat ->
    delimited_loop fuel end_ separator parser first items input
    <> OutOfFuel.
Proof.
  induction fuel as [|fuel IH]; intros first items input Hr Hf; [lia|].
  rewrite delimited_loop_S.
  destruct (eof input); [discriminate|].
  destruct (is_punc end_ input); [discriminate|].
  apply live_bind.
  - destruct first; [discriminate | apply skip_punc_live].
  - intros [u input1] H1.
    assert (Hl1 : (length input1 <= length input)%nat).
    { destruct first; [injection H1 as _ <-; lia|].
      apply skip_punc_length in H1. lia. }
    destruct (is_punc end_ input1); [discriminate|].
    apply live_bind; [apply Hr; lia|].
    intros [item input2] H2. apply parser_shrinks in H2.
    apply IH; [|lia]. intros i Hi. apply Hr. lia.
Qed.

Lemma delimited_live (fuel : nat) (start : ascii) (input : Lexer) :
  runs parser (length input) -> (length input <= fuel)%nat ->
  delimited fuel start end_ separator parser input <> OutOfFuel.
Proof.
  intros Hr Hf. unfold delimited.
  apply live_bind; [apply skip_punc_live|]. intros [u input1] H1.
  apply skip_punc_length in H1.
  apply live_bind.
  - apply delimited_loop_live; [|lia].
    intros i Hi. apply Hr. lia.
  - intros [items input2] _.
    apply live_bind; [apply skip_punc_live|]. intros [u' input3] _.
    discriminate.
Qed.

End LiveDelimited.

Lemma delimited_loop_length {T : Type} (parser : Parser T)
    (end_ separator : ascii) :
  shrinks parser ->
  forall fuel first items input items' rest,
    delimited_loop fuel end_ separator parser first items input
    = Ok (items', rest) ->
    (length rest <= length input)%nat.
Proof.
  intros Hs. induction fuel as [|fuel IH];
    intros first items input items' rest H; [discriminate H|].
  rewrite delimited_loop_S in H.
  destruct (eof input); [inv_ok H; lia|].
  destruct (is_punc end_ input); [inv_ok H; lia|].
  apply bind_Ok_inv in H. destruct H as [[u input1] [H1 H]].
  assert (Hl1 : (length input1 <= length input)%nat).
  { destruct first; [injection H1 as _ <-; lia|].
    apply skip_punc_length in H1. lia. }
  destruct (is_punc end_ input1); [inv_ok H; lia|].
  apply bind_Ok_inv in H. destruct H as [[item input2] [H2 H]].
  apply Hs in H2. apply IH in H. lia.
Qed.

Lemma delimited_length {T : Type} (parser : Parser T) (fuel : nat)
    (start end_ separator : ascii) (input : Lexer) (items : list T)
    (rest : Lexer) :
  shrinks parser ->
  delimited fuel start end_ separator parser input = Ok (items, rest) ->
  (length rest < length input)%nat.
Proof.
  intros Hs H. unfold delimited in H.
  apply bind_Ok_inv in H. destruct H as [[u input1] [H1 H]].
  apply bind_Ok_inv in H. destruct H as [[items1 input2] [H2 H]].
  apply bind_Ok_inv in H. destruct H as [[u' input3] [H3 H]].
  inv_ok H.
  apply skip_punc_length in H1. apply skip_punc_length in H3.
  apply (delimited_loop_length parser end_ separator Hs) in H2. lia.
Qed.

Lemma skip_kw_length (k : string) (input : Lexer) (u : unit) (rest : Lexer) :
  skip_kw k input = Ok (u, rest) -> length input = S (length rest).
Proof.
  unfold skip_kw. destruct (is_kw k input) eqn:E; [|discriminate].
  destruct input as [|t input]; [discriminate E|].
  simpl. intros H. injection H as _ <-. reflexivity.
Qed.

Lemma next_length (input : Lexer) :
  (length (snd (next input)) <= length input)%nat.
Proof. destruct input; simpl; lia. Qed.

Lemma parse_varname_live (input : Lexer) : parse_varname input <> OutOfFuel.
Proof.
  unfold parse_varname. destruct (next input) as [name input1].
  destruct (negb (String.eqb (type name) "var")); discriminate.
Qed.

Lemma parse_param_live (input : Lexer) : parse_param input <> OutOfFuel.
Proof.
  unfold parse_param. destruct (next input) as [typetok input1].
  destruct (negb (String.eqb (type typetok) "var")); [discriminate|].
  destruct (String.eqb (type (peek input1)) "var"); [|discriminate].
  destruct (next input1) as [nametok input2].
  destruct (negb (String.eqb (type nametok) "var")); discriminate.
Qed.

Section LiveRoutines.

Variable fuel : nat.
Variable pe : Parser (option Expr).
Variable pp : Parser (option Expr).
Hypothesis pe_shrinks : shrinks pe.
Hypothesis pp_shrinks : shrinks pp.

Lemma parse_call_live (func : option Expr) (input : Lexer) :
  runs pe (length input) -> (length input <= fuel)%nat ->
  parse_call fuel pe func input <> OutOfFuel.
Proof.
  intros Hr Hf. unfold parse_call. apply live_bind.
  - now apply delimited_live.
  - intros [args input1] _. discriminate.
Qed.

Lemma maybe_call_live (call : Parser (option Expr)) (input : Lexer) :
  shrinks call -> call input <> OutOfFuel ->
  runs pe (pred (length input)) -> (length input <= S fuel)%nat ->
  maybe_call fuel pe call input <> OutOfFuel.
Proof.
  intros Hs Hc Hr Hf. unfold maybe_call. apply live_bind; [exact Hc|].
  intros [result input1] H1. apply Hs in H1.
  destruct (is_punc "(" input1); [|discriminate].
  unfold upcast. apply live_bind.
  - apply parse_call_live; [|lia]. intros i Hi. apply Hr. lia.
  - intros [e input2] _. discriminate.
Qed.

Lemma parse_if_live (input : Lexer) :
  runs pe (length input) -> parse_if pe input <> OutOfFuel.
Proof.
  intros Hr. unfold parse_if.
  apply live_bind; [unfold skip_kw; destruct (is_kw "if" input); discriminate|].
  intros [u input1] H1. apply skip_kw_length in H1.
  apply live_bind; [apply Hr; lia|].
  intros [cond input2] H2. apply pe_shrinks in H2.
  apply live_bind; [apply Hr; lia|].
  intros [then_ input3] H3. apply pe_shrinks in H3.
  destruct (is_kw "else" input3); [|discriminate].
  apply live_bind.
  - apply Hr. pose proof (next_length input3). lia.
  - intros [els input4] _. discriminate.
Qed.

Lemma parse_closure_live (input : Lexer) :
  runs pp (S (length input)) -> (length input <= fuel)%nat ->
  parse_closure fuel pp input <> OutOfFuel.
Proof.
  intros Hr Hf. unfold parse_closure. destruct closure_params_first.
  - apply live_bind.
    + apply delimited_live; [exact parse_varname_shrinks | | exact Hf].
      intros i _. apply parse_varname_live.
    + intros [params input1] H1.
      apply (delimited_length _ _ _ _ _ _ _ _ parse_varname_shrinks) in H1.
      apply live_bind; [apply Hr; lia|].
      intros [body input2] _. discriminate.
  - apply live_bind; [apply Hr; lia|].
    intros [body input1] H1. apply pp_shrinks in H1.
    apply live_bind.
    + apply delimited_live; [exact parse_varname_shrinks | | lia].
      intros i _. apply parse_varname_live.
    + intros [params input2] _. discriminate.
Qed.

Lemma parse_ext_live (input : Lexer) :
  (length input <= fuel)%nat -> parse_ext fuel input <> OutOfFuel.
Proof.
  intros Hf. unfold parse_ext.
  apply live_bind;
    [unfold skip_kw; destruct (is_kw "ext" input); discriminate|].
  intros [u input1] H1. apply skip_kw_length in H1.
  pose proof (next_length input1) as Hn.
  destruct (next input1) as [funcname input2]. simpl in Hn.
  destruct (negb (String.eqb (type funcname) "var")); [discriminate|].
  apply live_bind.
  - apply delimited_live; [exact parse_param_shrinks | | lia].
    intros i _. apply parse_param_live.
  - intros [params input3] _. discriminate.
Qed.

Lemma parse_func_live (t : Token) (rest : Lexer) :
  runs pe (S (length rest)) -> (length rest <= fuel)%nat ->
  parse_func fuel pe (t :: rest) <> OutOfFuel.
Proof.
  intros Hr Hf. unfold parse_func. simpl snd.
  pose proof (next_length rest) as Hn.
  destruct (next rest) as [tok input2]. simpl in Hn.
  apply live_bind.
  - destruct (is_punc "(" input2); [|discriminate].
    apply delimited_live; [exact parse_param_shrinks | | lia].
    intros i _. apply parse_param_live.
  - intros [params input3] H3.
    assert (Hl : (length input3 <= length input2)%nat).
    { destruct (is_punc "(" input2); [|injection H3 as _ <-; lia].
      apply (delimited_length _ _ _ _ _ _ _ _ parse_param_shrinks) in H3.
      lia. }
    apply live_bind; [apply Hr; lia|].
    intros [body input4] _. discriminate.
Qed.

End LiveRoutines.

Lemma stoi_live (str : string) : stoi str <> OutOfFuel.
Proof.
  destruct (stoi_Ok_or_Throw str) as [[z [-> _]] | [e ->]]; discriminate.
Qed.

Lemma atom_lambda_live (n : nat) (input : Lexer) :
  live n -> (3 * length input + 1 <= n)%nat ->
  atom_lambda n input <> OutOfFuel.
Proof.
  intros [_ [He [Hp _]]] Hn. unfold atom_lambda.
  destruct (is_kw "ext" input) eqn:Eext; [apply parse_ext_live; lia|].
  destruct (is_kw "def" input) eqn:Edef.
  { destruct input as [|t rest]; [discriminate Edef|]. simpl in Hn.
    apply parse_func_live; [|lia].
    intros i Hi. apply He. lia. }
  destruct (is_punc "(" input) eqn:Eopen.
  { destruct input as [|t rest]; [discriminate Eopen|]. simpl in Hn.
    simpl snd. apply live_bind; [apply He; lia|].
    intros [expr input1] _.
    apply live_bind; [apply skip_punc_live|].
    intros [u input2] _. discriminate. }
  destruct (is_punc "{" input) eqn:Ebrace; [apply Hp; lia|].
  destruct (is_kw "if" input) eqn:Eif.
  { destruct input as [|t rest]; [discriminate Eif|]. simpl in Hn.
    unfold upcast. apply live_bind.
    - apply parse_if_live; [exact (parse_expr_shrinks n)|].
      intros i Hi. simpl in Hi. apply He. lia.
    - intros [e input1] _. discriminate. }
  destruct (is_kw "true" input || is_kw "false" input)%bool.
  { unfold upcast, parse_bool. destruct (next input). discriminate. }
  destruct (is_kw "cls" input) eqn:Ecls.
  { destruct input as [|t rest]; [discriminate Ecls|]. simpl in Hn.
    simpl snd. unfold upcast. apply live_bind.
    - apply parse_closure_live; [exact (parse_prog_shrinks n) | | lia].
      intros i Hi. apply Hp. lia.
    - intros [e input1] _. discriminate. }
  destruct (next input) as [tok input1].
  destruct (String.eqb (type tok) "var"); [discriminate|].
  destruct (String.eqb (type tok) "num").
  { apply live_bind; [apply stoi_live|]. intros z _. discriminate. }
  destruct (String.eqb (type tok) "char"); [discriminate|].
  destruct (String.eqb (type tok) "str"); discriminate.
Qed.

Lemma expr_lambda_shrinks (n : nat) : shrinks (expr_lambda n).
Proof.
  intros input e rest H. unfold expr_lambda in H.
  apply bind_Ok_inv in H. destruct H as [[atom input1] [H1 H]].
  apply parse_atom_shrinks in H1. apply maybe_binary_length in H. lia.
Qed.

Lemma parser_live (n : nat) : live n.
Proof.
  induction n as [|n IH].
  - repeat apply conj; intros; lia.
  - pose proof IH as [Ha [He [Hp Hc]]]. repeat apply conj.
    + intros input Hn. rewrite parse_atom_S.
      apply maybe_call_live;
        [exact (parse_expr_shrinks n) | exact (atom_lambda_shrinks n)
        | apply atom_lambda_live; [exact IH | lia] | | lia].
      intros i Hi. apply He. lia.
    + intros input Hn. rewrite parse_expr_S.
      apply maybe_call_live;
        [exact (parse_expr_shrinks n) | exact (expr_lambda_shrinks n)
        | | | lia].
      * unfold expr_lambda. apply live_bind; [apply Ha; lia|].
        intros [atom input1] H1. apply parse_atom_shrinks in H1.
        apply Hc. lia.
      * intros i Hi. apply He. lia.
    + intros input Hn. rewrite parse_prog_S. apply live_bind.
      * apply delimited_live; [exact (parse_expr_shrinks n) | | lia].
        intros i Hi. apply He. lia.
      * intros [[|v vars] input1] _; discriminate.
    + intros left prec input Hn. rewrite maybe_binary_S.
      destruct (is_op EmptyString input) eqn:Eop; [|discriminate].
      destruct input as [|t rest]; [discriminate Eop|].
      simpl peek. simpl snd. simpl in Hn.
      apply live_bind;
        [unfold map_at; destruct (find_key (value t) OP_PRECEDENCE);
         discriminate|].
      intros tokprec _. cbv zeta.
      destruct (tokprec >? prec); [|discriminate].
      apply live_bind; [apply Ha; lia|].
      intros [atom input2] H2. apply parse_atom_shrinks in H2.
      apply live_bind; [apply Hc; lia|].
      intros [rhs input3] H3. apply maybe_binary_length in H3.
      destruct (String.eqb (value t) "="); apply Hc; lia.
Qed.

Lemma toplevel_loop_live (n : nat) :
  forall ast input,
    (3 * length input + 3 <= n)%nat -> toplevel_loop n ast input <> OutOfFuel.
Proof.
  induction n as [|n IH]; intros ast input Hn; [lia|].
  rewrite toplevel_loop_S.
  destruct (eof input); [discriminate|].
  apply live_bind.
  - destruct (parser_live (S n)) as [_ [He _]]. now apply He.
  - intros [e input1] H1. apply parse_expr_shrinks in H1.
    apply live_bind.
    + destruct (negb (eof input1)); [apply skip_punc_live | discriminate].
    + intros [u input2] H2.
      assert (Hl : (length input2 <= length input1)%nat).
      { destruct (negb (eof input1)); [|injection H2 as _ <-; lia].
        apply skip_punc_length in H2. lia. }
      apply IH. lia.
Qed.

(** X4: [parse_toplevel] comes to an end on every token stream, with an
    abstract tree, a diagnostic or a C++ exception: three units of fuel per
    token and three more are enough, and more fuel gives the same outcome. *)
Theorem X4_parse_toplevel_terminates :
  forall input,
  exists r,
    r <> OutOfFuel
    /\ forall fuel,
        (3 * length input + 3 <= fuel)%nat -> parse_toplevel fuel input = r.
Proof.
  intros input. exists (parse_toplevel (3 * length input + 3) input).
  assert (Hl : parse_toplevel (3 * length input + 3) input <> OutOfFuel)
    by (apply toplevel_loop_live; lia).
  split; [exact Hl|].
  intros fuel Hf. now apply toplevel_loop_settled.
Qed.

(** ** Precedence climbing on any chain of operators *)

Lemma table_chain_lookahead (k : nat)
    (chain : list (string * list Token * option Expr)) (rest : Lexer) :
  is_punc "(" rest = false ->
  is_punc "(" (chain_tokens chain ++ rest) = false.
Proof.
  intros Hpu. destruct chain as [|[[o seg] e] chain]; [exact Hpu|].
  reflexivity.
Qed.

Lemma prec_of_key (o : string) (p : Z) :
  find_key o OP_PRECEDENCE = Some p -> prec_of o = p.
Proof. unfold prec_of. now intros ->. Qed.

Lemma climb_spec (k : nat) (rest : Lexer) :
  is_op EmptyString rest = false -> is_punc "(" rest = false ->
  forall n chain sl prec,
    table_chain k chain -> climbed sl = true ->
    head_op (fun o => root_at_least (prec_of o) sl = true) chain ->
    (k + length chain + 1 <= n)%nat ->
    exists s' chain1 chain2,
      chain = chain1 ++ chain2
      /\ maybe_binary n (build sl) prec (chain_tokens chain ++ rest)
         = Ok (build s', chain_tokens chain2 ++ rest)
      /\ first_leaf s' = first_leaf sl
      /\ items s' = items sl ++ written chain1
      /\ climbed s' = true
      /\ head_op (fun o => prec_of o <= prec) chain2
      /\ (root_above prec sl = true -> root_above prec s' = true).
Proof.
  intros Hop Hpu. induction n as [|n IH]; intros chain sl prec Hc Hsl Hl Hn;
    [lia|].
  destruct Hc as [|[[o seg] e] tail [[p Hp] Hseg] Htail].
  - exists sl, [], []. repeat apply conj; try reflexivity.
    + now apply maybe_binary_stop.
    + simpl. now rewrite app_nil_r.
    + exact Hsl.
    + trivial.
  - simpl in Hl, Hn. simpl chain_tokens.
    rewrite <- app_comm_cons, <- app_assoc.
    destruct (Z.ltb_spec prec p) as [Hlt|Hge].
    + rewrite (maybe_binary_climb n (build sl) prec p o _ Hp Hlt).
      rewrite (Hseg n _ ltac:(lia)
                 (table_chain_lookahead k tail rest Hpu)).
      rewrite bind_Ok; cbv beta iota.
      destruct (IH tail (Leaf e) p Htail eq_refl
                  ltac:(destruct tail as [|[[? ?] ?] ?]; simpl; trivial)
                  ltac:(lia))
        as [s2 [c1 [c2 [Et [Hrun [Hf [Hi [Hcl [Hh Hr]]]]]]]]].
      change (build (Leaf e)) with e in Hrun. rewrite Hrun.
      rewrite bind_Ok; cbv beta iota.
      assert (Hlen : (length c2 <= length tail)%nat)
        by (rewrite Et, length_app; lia).
      assert (Hc2 : table_chain k c2).
      { unfold table_chain in Htail |- *. rewrite Et in Htail.
        now apply Forall_app in Htail. }
      assert (Hnode : climbed (Op o sl s2) = true).
      { simpl. rewrite Hsl, Hcl, Hl. simpl. rewrite (prec_of_key o p Hp).
        now apply Hr. }
      assert (Hleft : head_op
                (fun o' => root_at_least (prec_of o') (Op o sl s2) = true)
                c2).
      { destruct c2 as [|[[o' seg'] e'] c2]; [exact I|]. simpl in Hh |- *.
        rewrite (prec_of_key o p Hp). now apply Z.leb_le. }
      destruct (IH c2 (Op o sl s2) prec Hc2 Hnode Hleft ltac:(lia))
        as [s3 [c3 [c4 [Et2 [Hrun2 [Hf2 [Hi2 [Hcl2 [Hh2 Hr2]]]]]]]]].
      change (build (Op o sl s2))
        with (Some (node o (build sl) (build s2))) in Hrun2.
      exists s3, ((o, seg, e) :: c1 ++ c3), c4. repeat apply conj.
      * rewrite Et, Et2. simpl. now rewrite <- app_assoc.
      * exact Hrun2.
      * rewrite Hf2. reflexivity.
      * rewrite Hi2. simpl. rewrite Hf, Hi. simpl.
        unfold written. rewrite map_app. now rewrite <- app_assoc.
      * exact Hcl2.
      * exact Hh2.
      * intros _. apply Hr2. simpl. rewrite (prec_of_key o p Hp).
        now apply Z.ltb_lt.
    + exists sl, [], ((o, seg, e) :: tail). repeat apply conj.
      * reflexivity.
      * rewrite (maybe_binary_yield n (build sl) prec p o _ Hp Hge).
        simpl chain_tokens. now rewrite <- app_comm_cons, <- app_assoc.
      * reflexivity.
      * simpl. now rewrite app_nil_r.
      * exact Hsl.
      * simpl. now rewrite (prec_of_key o p Hp).
      * trivial.
Qed.

Lemma climbed_at_least (s : Shape) :
  climbed s = true ->
  forall q, root_at_least q s = true ->
  Forall (fun x => q <= prec_of (fst x)) (items s).
Proof.
  induction s as [e|o l IHl r IHr]; intros Hc q Hq; [constructor|].
  simpl in Hc, Hq.
  apply andb_prop in Hc. destruct Hc as [Hc Hr].
  apply andb_prop in Hc. destruct Hc as [Hc Hlo].
  apply andb_prop in Hc. destruct Hc as [Hcl Hcr].
  apply Z.leb_le in Hq. simpl. apply Forall_app. split.
  - eapply Forall_impl; [|exact (IHl Hcl _ Hlo)]. simpl. intros; lia.
  - constructor; [exact Hq|].
    assert (Hr' : root_at_least (prec_of o) r = true).
    { destruct r; [reflexivity|]. simpl in Hr |- *.
      apply Z.ltb_lt in Hr. apply Z.leb_le. lia. }
    eapply Forall_impl; [|exact (IHr Hcr _ Hr')]. simpl. intros; lia.
Qed.

Lemma climbed_above (s : Shape) (q : Z) :
  climbed s = true -> root_above q s = true ->
  Forall (fun x => q < prec_of (fst x)) (items s).
Proof.
  destruct s as [e|o l r]; intros Hc Hq; [constructor|].
  assert (Hq' : q < prec_of o) by now apply Z.ltb_lt.
  assert (Hroot : root_at_least (prec_of o) (Op o l r) = true)
    by (simpl; apply Z.leb_le; lia).
  eapply Forall_impl; [|exact (climbed_at_least _ Hc _ Hroot)].
  simpl. intros; lia.
Qed.

Lemma split_at_one {A : Type} (l1 l1' l2 l2' : list A) (a a' : A) :
  l1 ++ a :: l2 = l1' ++ a' :: l2' ->
  (l1 = l1' /\ a = a' /\ l2 = l2')
  \/ (In a l1' /\ In a' l2)
  \/ (In a' l1 /\ In a l2').
Proof.
  revert l1'. induction l1 as [|x l1 IH]; intros [|x' l1'] E; simpl in E.
  - injection E as -> ->. now left.
  - injection E as -> ->. right; left. split; [now left|].
    apply in_or_app. right. now left.
  - injection E as -> <-. right; right. split; [now left|].
    apply in_or_app. right. now left.
  - injection E as -> E. destruct (IH _ E) as [[-> [-> ->]]|[[H1 H2]|[H1 H2]]].
    + now left.
    + right; left. split; [now right|exact H2].
    + right; right. split; [now right|exact H2].
Qed.

Lemma climbed_parts (o : string) (l r : Shape) :
  climbed (Op o l r) = true ->
  climbed l = true /\ climbed r = true
  /\ Forall (fun x => prec_of o <= prec_of (fst x)) (items l)
  /\ Forall (fun x => prec_of o < prec_of (fst x)) (items r).
Proof.
  intros Hc. simpl in Hc.
  apply andb_prop in Hc. destruct Hc as [Hc Hr].
  apply andb_prop in Hc. destruct Hc as [Hc Hlo].
  apply andb_prop in Hc. destruct Hc as [Hcl Hcr].
  repeat apply conj; trivial.
  - now apply climbed_at_least.
  - now apply climbed_above.
Qed.

Lemma climbed_unique (s : Shape) :
  forall s',
    climbed s = true -> climbed s' = true ->
    first_leaf s = first_leaf s' -> items s = items s' -> s = s'.
Proof.
  induction s as [e|o l IHl r IHr]; intros [e'|o' l' r'] Hc Hc' Hf Hi.
  - simpl in Hf. now subst.
  - simpl in Hi. now apply app_cons_not_nil in Hi.
  - simpl in Hi. symmetry in Hi. now apply app_cons_not_nil in Hi.
  - apply climbed_parts in Hc. destruct Hc as [Hcl [Hcr [Hl Hr]]].
    apply climbed_parts in Hc'. destruct Hc' as [Hcl' [Hcr' [Hl' Hr']]].
    simpl in Hf, Hi.
    destruct (split_at_one _ _ _ _ _ _ Hi) as [[El [Eo Er]]|[[H1 H2]|[H1 H2]]].
    + injection Eo as -> Efr.
      now rewrite (IHl l' Hcl Hcl' Hf El), (IHr r' Hcr Hcr' Efr Er).
    + exfalso. rewrite Forall_forall in Hl', Hr.
      specialize (Hl' _ H1). specialize (Hr _ H2). simpl in Hl', Hr. lia.
    + exfalso. rewrite Forall_forall in Hl, Hr'.
      specialize (Hl _ H1). specialize (Hr' _ H2). simpl in Hl, Hr'. lia.
Qed.

Lemma parse_expr_climbs (k : nat) (seg0 : list Token) (e0 : option Expr)
    (chain : list (string * list Token * option Expr)) (n : nat)
    (rest : Lexer) :
  parses_atom k seg0 e0 -> table_chain k chain ->
  is_op EmptyString rest = false -> is_punc "(" rest = false ->
  (k + length chain + 3 <= n)%nat ->
  exists s,
    parse_expr n (seg0 ++ chain_tokens chain ++ rest) = Ok (build s, rest)
    /\ first_leaf s = e0
    /\ items s = written chain
    /\ climbed s = true
    /\ forall s',
        first_leaf s' = e0 -> items s' = written chain ->
        climbed s' = true -> s' = s.
Proof.
  intros H0 Hc Hop Hpu Hn.
  destruct n as [|n]; [lia|].
  destruct (climb_spec k rest Hop Hpu n chain (Leaf e0) 0 Hc eq_refl
              ltac:(destruct chain as [|[[? ?] ?] ?]; simpl; trivial)
              ltac:(lia))
    as [s [c1 [c2 [Et [Hrun [Hf [Hi [Hcl [Hh _]]]]]]]]].
  assert (Ec2 : c2 = []).
  { destruct c2 as [|[[o seg] e] c2]; [reflexivity|]. exfalso.
    simpl in Hh. unfold table_chain in Hc. rewrite Et in Hc.
    apply Forall_app in Hc. destruct Hc as [_ Hc].
    apply Forall_inv in Hc. destruct Hc as [[p Hp] _].
    rewrite (prec_of_key o p Hp) in Hh.
    pose proof (find_key_positive o p Hp). lia. }
  subst c2. rewrite app_nil_r in Et. subst c1.
  exists s. repeat apply conj; try assumption.
  2: { intros s' Hf' Hi' Hcl'. simpl in Hf, Hi. symmetry.
       apply climbed_unique; trivial; congruence. }
  rewrite parse_expr_S. unfold maybe_call, expr_lambda.
  rewrite (H0 n _ ltac:(lia) (table_chain_lookahead k chain rest Hpu)).
  rewrite bind_Ok; cbv beta iota. change e0 with (build (Leaf e0)).
  rewrite Hrun. rewrite bind_Ok; cbv beta iota.
  simpl app. rewrite Hpu. reflexivity.
Qed.

(** C4: the table gives each operator its precedence, and the tree honours
    it for every chain of operators of the table between operands, whatever
    its length: the operands and operators stay in the order in which they
    are written, every operator has on its right an operand or the node of a
    strictly tighter operator and on its left an operand or the node of an
    operator at least as tight, and no other tree over the chain is of this
    kind.  So of two adjacent operators the one with the higher precedence
    takes the operand between them; in particular [1+2*3] is read as
    [Binary + 1 (Binary * 2 3)]. *)
Theorem C4_precedence_table_honored :
  map (fun key => find_key key OP_PRECEDENCE)
    ["="; "||"; "&&"; "<"; ">"; "<="; ">="; "=="; "!="; "+"; "-"; "*"; "/";
     "%"]
  = map Some [1; 2; 3; 7; 7; 7; 7; 7; 7; 10; 10; 20; 20; 20]
  /\ (forall k seg0 e0 chain n rest,
      parses_atom k seg0 e0 -> table_chain k chain ->
      is_op EmptyString rest = false -> is_punc "(" rest = false ->
      (k + length chain + 3 <= n)%nat ->
      exists s,
        parse_expr n (seg0 ++ chain_tokens chain ++ rest)
        = Ok (build s, rest)
        /\ first_leaf s = e0
        /\ items s = written chain
        /\ climbed s = true
        /\ forall s',
            first_leaf s' = e0 -> items s' = written chain ->
            climbed s' = true -> s' = s)
  /\ (forall k o1 o2 p1 p2 sa sb sc a b c n rest,
      find_key o1 OP_PRECEDENCE = Some p1 ->
      find_key o2 OP_PRECEDENCE = Some p2 ->
      parses_atom k sa a -> parses_atom k sb b -> parses_atom k sc c ->
      is_op EmptyString rest = false -> is_punc "(" rest = false ->
      (k + 4 <= n)%nat ->
      parse_expr n (sa ++ op o1 :: sb ++ op o2 :: sc ++ rest)
      = Ok (if p2 >? p1
            then Some (node o1 a (Some (node o2 b c)))
            else Some (node o2 (Some (node o1 a b)) c), rest))
  /\ (forall fuel, (5 <= fuel)%nat ->
      parse_toplevel fuel [num "1"; op "+"; num "2"; op "*"; num "3"]
      = Ok [Some (Binary "+" (Some (Number 1))
                    (Some (Binary "*" (Some (Number 2)) (Some (Number 3)))))]).
Proof.
  split; [reflexivity|]. split; [exact parse_expr_climbs|]. split.
  - intros k o1 o2 p1 p2 sa sb sc a b c n rest.
    apply parse_expr_two_operators.
  - intros fuel Hfuel. fuel_cases fuel 5.
Qed.

(** X5: for every chain of table operators between operands, [parse_expr]
    returns a tree over these operands and operators in the order in which
    they are written, in which every operator has on its right an operand or
    the node of a strictly tighter operator and on its left an operand or the
    node of an operator at least as tight; no other tree over them is of
    this kind. *)
Theorem X5_precedence_climbing_shape :
  forall k seg0 e0 chain n rest,
    parses_atom k seg0 e0 -> table_chain k chain ->
    is_op EmptyString rest = false -> is_punc "(" rest = false ->
    (k + length chain + 3 <= n)%nat ->
    exists s,
      parse_expr n (seg0 ++ chain_tokens chain ++ rest) = Ok (build s, rest)
      /\ first_leaf s = e0
      /\ items s = written chain
      /\ climbed s = true
      /\ forall s',
          first_leaf s' = e0 -> items s' = written chain ->
          climbed s' = true -> s' = s.
Proof.
  intros k seg0 e0 chain n rest H0 Hc Hop Hpu Hn.
  destruct n as [|n]; [lia|].
  destruct (climb_spec k rest Hop Hpu n chain (Leaf e0) 0 Hc eq_refl
              ltac:(destruct chain as [|[[? ?] ?] ?]; simpl; trivial)
              ltac:(lia))
    as [s [c1 [c2 [Et [Hrun [Hf [Hi [Hcl [Hh _]]]]]]]]].
  assert (Ec2 : c2 = []).
  { destruct c2 as [|[[o seg] e] c2]; [reflexivity|]. exfalso.
    simpl in Hh. unfold table_chain in Hc. rewrite Et in Hc.
    apply Forall_app in Hc. destruct Hc as [_ Hc].
    apply Forall_inv in Hc. destruct Hc as [[p Hp] _].
    rewrite (prec_of_key o p Hp) in Hh.
    pose proof (find_key_positive o p Hp). lia. }
  subst c2. rewrite app_nil_r in Et. subst c1.
  exists s. repeat apply conj; try assumption.
  2: { intros s' Hf' Hi' Hcl'. simpl in Hf, Hi. symmetry.
       apply climbed_unique; trivial; congruence. }
  rewrite parse_expr_S. unfold maybe_call, expr_lambda.
  rewrite (H0 n _ ltac:(lia) (table_chain_lookahead k chain rest Hpu)).
  rewrite bind_Ok; cbv beta iota. change e0 with (build (Leaf e0)).
  rewrite Hrun. rewrite bind_Ok; cbv beta iota.
  simpl app. rewrite Hpu. reflexivity.
Qed.

(** ** Lists of items *)

Section Listed.

Context {T : Type}.
Variable parser : Parser T.
Variables start end_ separator : ascii.
Variables startTok sepTok endTok : Token.
Hypothesis start_tok : is_punc start [startTok] = true.
Hypothesis sep_tok : is_punc separator [sepTok] = true.
Hypothesis sep_not_end : is_punc end_ [sepTok] = false.
Hypothesis end_tok : is_punc end_ [endTok] = true.

Lemma delimited_loop_items (segs : list (list Token)) (xs : list T) :
  Forall2 (item_of parser end_ sepTok endTok) segs xs ->
  forall fuel items rest,
    (length segs < fuel)%nat ->
    delimited_loop fuel end_ separator parser false items
      (flat_map (fun s => sepTok :: s) segs ++ endTok :: rest)
    = Ok (items ++ xs, endTok :: rest).
Proof.
  induction 1 as [|seg x segs xs [[t [seg' [-> Ht]]] Hx] Hall IH];
    intros fuel items rest Hf; (destruct fuel as [|fuel]; [simpl in Hf; lia|]).
  - simpl. rewrite is_punc_head, end_tok. now rewrite app_nil_r.
  - simpl in Hf.
    change (flat_map (fun s => sepTok :: s) ((t :: seg') :: segs)
            ++ endTok :: rest)
      with (sepTok :: t :: (seg' ++ flat_map (fun s => sepTok :: s) segs)
                             ++ endTok :: rest).
    rewrite <- app_assoc. rewrite delimited_loop_S.
    cbv beta iota. simpl eof. cbv iota.
    rewrite is_punc_head, sep_not_end. unfold skip_punc.
    rewrite is_punc_head, sep_tok. rewrite bind_Ok; cbv beta iota.
    simpl snd. rewrite is_punc_head, Ht.
    assert (Hnext : exists t' tail,
               flat_map (fun s => sepTok :: s) segs ++ endTok :: rest
               = t' :: tail /\ (t' = sepTok \/ t' = endTok)).
    { destruct segs as [|s segs]; simpl.
      - exists endTok, rest. split; [reflexivity | now right].
      - eexists _, _. split; [reflexivity | now left]. }
    destruct Hnext as [t' [tail [E Ht']]].
    pose proof (Hx t' tail Ht') as Hp. rewrite <- E in Hp.
    rewrite <- app_comm_cons in Hp. rewrite Hp.
    rewrite bind_Ok; cbv beta iota.
    rewrite (IH fuel (items ++ [x]) rest ltac:(lia)).
    now rewrite <- app_assoc.
Qed.

Lemma delimited_items (segs : list (list Token)) (xs : list T)
    (fuel : nat) (rest : Lexer) :
  Forall2 (item_of parser end_ sepTok endTok) segs xs ->
  (length segs < fuel)%nat ->
  delimited fuel start end_ separator parser
    (startTok :: listed sepTok segs ++ endTok :: rest)
  = Ok (xs, rest).
Proof.
  intros Hall Hf. unfold delimited, skip_punc at 1.
  rewrite is_punc_head, start_tok. rewrite bind_Ok; cbv beta iota.
  cbn [snd next]. destruct fuel as [|fuel]; [lia|].
  destruct Hall as [|seg x segs xs [[t [seg' [-> Ht]]] Hx] Hall].
  - simpl. rewrite is_punc_head, end_tok. simpl.
    unfold skip_punc. rewrite is_punc_head, end_tok. reflexivity.
  - simpl in Hf. unfold listed.
    change (((t :: seg') ++ flat_map (fun s => sepTok :: s) segs)
            ++ endTok :: rest)
      with (t :: (seg' ++ flat_map (fun s => sepTok :: s) segs)
                   ++ endTok :: rest).
    rewrite <- app_assoc. rewrite delimited_loop_S.
    cbv beta iota. simpl eof. cbv iota.
    rewrite is_punc_head, Ht. rewrite bind_Ok; cbv beta iota.
    rewrite is_punc_head, Ht.
    assert (Hnext : exists t' tail,
               flat_map (fun s => sepTok :: s) segs ++ endTok :: rest
               = t' :: tail /\ (t' = sepTok \/ t' = endTok)).
    { destruct segs as [|s segs]; simpl.
      - exists endTok, rest. split; [reflexivity | now right].
      - eexists _, _. split; [reflexivity | now left]. }
    destruct Hnext as [t' [tail [E Ht']]].
    pose proof (Hx t' tail Ht') as Hp. rewrite <- E in Hp.
    rewrite <- app_comm_cons in Hp. rewrite Hp.
    rewrite bind_Ok; cbv beta iota.
    rewrite (delimited_loop_items segs xs Hall fuel ([] ++ [x]) rest
               ltac:(lia)).
    rewrite bind_Ok; cbv beta iota. unfold skip_punc.
    rewrite is_punc_head, end_tok. reflexivity.
Qed.

Lemma delimited_separator_missing (seg : list Token) (x : T) (t : Token)
    (fuel : nat) (rest : Lexer) :
  (exists t0 seg', seg = t0 :: seg' /\ is_punc end_ [t0] = false) ->
  parser (seg ++ t :: rest) = Ok (x, t :: rest) ->
  is_punc end_ [t] = false -> is_punc separator [t] = false ->
  delimited (S (S fuel)) start end_ separator parser
    (startTok :: seg ++ t :: rest)
  = Diag (msg_token_expected separator).
Proof.
  intros [t0 [seg' [-> Ht0]]] Hp Hte Hts. unfold delimited, skip_punc at 1.
  rewrite is_punc_head, start_tok. rewrite bind_Ok; cbv beta iota.
  cbn [snd next]. rewrite <- app_comm_cons. rewrite delimited_loop_S.
  cbv beta iota. simpl eof. cbv iota.
  rewrite is_punc_head, Ht0. rewrite bind_Ok; cbv beta iota.
  rewrite is_punc_head, Ht0. rewrite <- app_comm_cons in Hp. rewrite Hp.
  rewrite bind_Ok; cbv beta iota. rewrite delimited_loop_S.
  cbv beta iota. simpl eof. cbv iota. rewrite is_punc_head, Hte.
  unfold skip_punc at 1. rewrite is_punc_head, Hts. reflexivity.
Qed.

End Listed.

(** X6: [delimited] returns the items in the order in which they are written:
    on an opening delimiter, items with one separator between each two, and
    the closing delimiter, it returns the list of what the item parser reads
    and leaves what follows the closing delimiter.  Where an item is followed
    by a token that is neither the separator nor the closing delimiter, the
    separator is asked for. *)
Theorem X6_delimited_reads_items_in_order :
  forall (T : Type) (parser : Parser T) start end_ separator
         startTok sepTok endTok,
    is_punc start [startTok] = true ->
    is_punc separator [sepTok] = true ->
    is_punc end_ [sepTok] = false ->
    is_punc end_ [endTok] = true ->
    (forall segs xs fuel rest,
        Forall2 (item_of parser end_ sepTok endTok) segs xs ->
        (length segs < fuel)%nat ->
        delimited fuel start end_ separator parser
          (startTok :: listed sepTok segs ++ endTok :: rest)
        = Ok (xs, rest))
    /\ (forall seg x t fuel rest,
        (exists t0 seg', seg = t0 :: seg' /\ is_punc end_ [t0] = false) ->
        parser (seg ++ t :: rest) = Ok (x, t :: rest) ->
        is_punc end_ [t] = false -> is_punc separator [t] = false ->
        delimited (S (S fuel)) start end_ separator parser
          (startTok :: seg ++ t :: rest)
        = Diag (msg_token_expected separator)).
Proof.
  intros T parser start end_ separator startTok sepTok endTok
    Hstart Hsep Hne Hend.
  split.
  - intros segs xs fuel rest Hall Hf.
    now apply delimited_items with (separator := separator).
  - intros seg x t fuel rest Hseg Hp Hte Hts.
    now apply delimited_separator_missing with (x := x).
Qed.

(** ** The top level *)

Lemma parse_expr_reads (n : nat) (input : Lexer) (e : option Expr)
    (rest : Lexer) :
  parse_expr n input = Ok (e, rest) ->
  exists pre, pre <> [] /\ input = pre ++ rest.
Proof.
  intros H. destruct (parser_consumes n) as [_ [He _]].
  specialize (He input (Forall_True input)). rewrite H in He.
  exact (proper_suffix _ _ _ _ _ He).
Qed.

Lemma parses_expr_nonempty (k : nat) (seg : list Token) (e : option Expr) :
  parses_expr k seg e -> seg <> [].
Proof.
  intros H ->. specialize (H k [] (Nat.le_refl k) eq_refl eq_refl).
  apply parse_expr_reads in H. destruct H as [pre [Hne E]].
  simpl in E. rewrite app_nil_r in E. now subst pre.
Qed.

Lemma semicolon_stops (semi : Token) (rest : Lexer) :
  is_punc ";" [semi] = true ->
  is_op EmptyString (semi :: rest) = false
  /\ is_punc "(" (semi :: rest) = false.
Proof.
  rewrite is_op_cons, !is_punc_cons. intros H.
  apply andb_prop in H. destruct H as [Ht Hv].
  apply String.eqb_eq in Ht. rewrite Ht. simpl in Hv |- *.
  apply Ascii.eqb_eq in Hv. rewrite Hv. now split.
Qed.

Lemma toplevel_loop_statements (k : nat) (semi : Token) (tail : Lexer) :
  is_punc ";" [semi] = true ->
  tail = [] \/ tail = [semi] ->
  forall segs es,
    Forall2 (parses_expr k) segs es ->
    forall seg e fuel ast,
      parses_expr k seg e ->
      (k + length segs + 2 <= fuel)%nat ->
      toplevel_loop fuel ast
        (seg ++ flat_map (fun s => semi :: s) segs ++ tail)
      = Ok (ast ++ e :: es).
Proof.
  intros Hsemi Htail. induction 1 as [|s x segs es Hs Hall IH];
    intros seg e fuel ast Hseg Hf; (destruct fuel as [|fuel]; [lia|]);
    rewrite toplevel_loop_S;
    pose proof (parses_expr_nonempty k seg e Hseg) as Hne;
    (destruct seg as [|t seg]; [congruence|]); simpl eof; cbv iota.
  - simpl flat_map. simpl app at 2.
    assert (Hstop : is_op EmptyString tail = false
                    /\ is_punc "(" tail = false).
    { destruct Htail as [-> | ->]; [now split|].
      now apply semicolon_stops. }
    destruct Hstop as [Hop Hpu].
    rewrite (Hseg (S fuel) tail ltac:(lia) Hop Hpu).
    rewrite bind_Ok; cbv beta iota.
    destruct fuel as [|fuel]; [lia|].
    destruct Htail as [-> | ->].
    + simpl. reflexivity.
    + simpl negb. cbv iota. unfold skip_punc. rewrite Hsemi.
      rewrite bind_Ok; cbv beta iota. reflexivity.
  - simpl in Hf.
    change (flat_map (fun s0 => semi :: s0) (s :: segs) ++ tail)
      with (semi :: (s ++ flat_map (fun s0 => semi :: s0) segs) ++ tail).
    rewrite <- app_assoc.
    destruct (semicolon_stops semi
                (s ++ flat_map (fun s0 => semi :: s0) segs ++ tail) Hsemi)
      as [Hop Hpu].
    rewrite (Hseg (S fuel) _ ltac:(lia) Hop Hpu).
    rewrite bind_Ok; cbv beta iota. simpl eof. simpl negb. cbv iota.
    unfold skip_punc. rewrite is_punc_head, Hsemi.
    rewrite bind_Ok; cbv beta iota. cbn [snd next].
    rewrite (IH s x fuel (ast ++ [e]) Hs ltac:(lia)).
    now rewrite <- app_assoc.
Qed.

Lemma toplevel_loop_count (fuel : nat) :
  forall ast input ast',
    toplevel_loop fuel ast input = Ok ast' ->
    exists more,
      ast' = ast ++ more
      /\ (length more <= length input)%nat
      /\ (input <> [] -> more <> []).
Proof.
  induction fuel as [|n IH]; intros ast input ast' H; [discriminate|].
  rewrite toplevel_loop_S in H.
  destruct input as [|t input].
  - simpl in H. injection H as <-. exists []. rewrite app_nil_r.
    repeat apply conj; trivial. congruence.
  - simpl eof in H. cbv iota in H.
    apply bind_Ok_inv in H. destruct H as [[e input1] [He H]].
    apply bind_Ok_inv in H. destruct H as [[u input2] [Hs H]].
    apply parse_expr_reads in He. destruct He as [pre [Hne E]].
    assert (Hl : (length input2 <= length input1)%nat).
    { destruct (negb (eof input1)).
      - apply skip_punc_Ok in Hs. destruct Hs as [tok [-> _]]. simpl; lia.
      - injection Hs as _ <-. lia. }
    destruct (IH _ _ _ H) as [more [-> [Hm _]]].
    exists (e :: more). rewrite <- app_assoc. repeat apply conj; trivial.
    + rewrite E, length_app. destruct pre; [congruence|]. simpl in *. lia.
    + discriminate.
Qed.

(** X7: [parse_toplevel] returns one tree for each expression of the stream,
    in their order, when the expressions are written with one semicolon
    between each two, with or without a semicolon after the last one.  Where
    an expression is followed by a token that is not a semicolon, the
    semicolon is asked for.  The vector it returns has no more entries than
    the stream has tokens, and is empty only for the empty stream. *)
Theorem X7_toplevel_sequence :
  (forall k semi segs es fuel,
      is_punc ";" [semi] = true ->
      Forall2 (parses_expr k) segs es ->
      (k + length segs + 1 <= fuel)%nat ->
      parse_toplevel fuel (listed semi segs) = Ok es
      /\ (segs <> [] ->
          parse_toplevel fuel (listed semi segs ++ [semi]) = Ok es))
  /\ (forall n input e t rest,
      parse_expr (S n) input = Ok (e, t :: rest) ->
      is_punc ";" [t] = false ->
      parse_toplevel (S n) input = Diag (msg_token_expected ";"))
  /\ (forall fuel input ast,
      parse_toplevel fuel input = Ok ast ->
      (length ast <= length input)%nat /\ (ast = [] <-> input = [])).
Proof.
  repeat apply conj.
  - intros k semi segs es fuel Hsemi Hall Hf.
    destruct Hall as [|seg e segs es Hseg Hall].
    + split; [|congruence]. destruct fuel as [|fuel]; [lia|]. reflexivity.
    + simpl in Hf. unfold parse_toplevel, listed. split.
      * pose proof (toplevel_loop_statements k semi [] Hsemi (or_introl eq_refl)
                      segs es Hall seg e fuel [] Hseg ltac:(lia)) as H.
        now rewrite app_nil_r in H.
      * intros _.
        pose proof (toplevel_loop_statements k semi [semi] Hsemi
                      (or_intror eq_refl) segs es Hall seg e fuel [] Hseg
                      ltac:(lia)) as H.
        now rewrite <- app_assoc.
  - intros n input e t rest He Ht. unfold parse_toplevel.
    rewrite toplevel_loop_S.
    destruct input as [|t0 input].
    + apply parse_expr_reads in He. destruct He as [pre [Hne E]].
      symmetry in E. apply app_eq_nil in E. now destruct E.
    + simpl eof. cbv iota. rewrite He. rewrite bind_Ok; cbv beta iota.
      simpl eof. simpl negb. cbv iota. unfold skip_punc.
      rewrite is_punc_head, Ht. reflexivity.
  - intros fuel input ast H. unfold parse_toplevel in H.
    destruct (toplevel_loop_count fuel [] input ast H) as [more [E [Hl Hn]]].
    simpl in E. subst more. split; [exact Hl|]. split.
    + intros ->. destruct input; [reflexivity|]. now elim Hn.
    + intros ->. destruct ast; [reflexivity | simpl in Hl; lia].
Qed.

(** ** Operands and expressions *)

Lemma parses_atom_more (k k' : nat) (seg : list Token) (e : option Expr) :
  (k <= k')%nat -> parses_atom k seg e -> parses_atom k' seg e.
Proof. intros Hk H n rest Hn. apply H. lia. Qed.

Lemma parses_expr_more (k k' : nat) (seg : list Token) (e : option Expr) :
  (k <= k')%nat -> parses_expr k seg e -> parses_expr k' seg e.
Proof. intros Hk H n rest Hn. apply H. lia. Qed.

Lemma atom_of_lambda (n : nat) (input : Lexer) (e : option Expr)
    (rest : Lexer) :
  atom_lambda n input = Ok (e, rest) -> is_punc "(" rest = false ->
  parse_atom (S n) input = Ok (e, rest).
Proof.
  intros H Hpu. rewrite parse_atom_S. unfold maybe_call. rewrite H.
  rewrite bind_Ok; cbv beta iota. now rewrite Hpu.
Qed.

Lemma expr_of_atom (n : nat) (input : Lexer) (e : option Expr)
    (rest : Lexer) :
  parse_atom (S n) input = Ok (e, rest) ->
  is_op EmptyString rest = false -> is_punc "(" rest = false ->
  parse_expr (S (S n)) input = Ok (e, rest).
Proof.
  intros H Hop Hpu. rewrite parse_expr_S. unfold maybe_call, expr_lambda.
  rewrite H. rewrite bind_Ok; cbv beta iota.
  rewrite (maybe_binary_stop n e 0 rest Hop).
  rewrite bind_Ok; cbv beta iota. now rewrite Hpu.
Qed.

Lemma atom_expr (k : nat) (seg : list Token) (e : option Expr) :
  parses_atom k seg e -> parses_expr (k + 2) seg e.
Proof.
  intros H n rest Hn Hop Hpu. destruct n as [|[|n]]; try lia.
  apply expr_of_atom; trivial. apply H; [lia | exact Hpu].
Qed.

(** Write a stream as its tokens and segments one after the other. *)
Ltac flatten_app :=
  repeat first [rewrite <- app_assoc | rewrite <- app_comm_cons].

Ltac flatten_app_in H :=
  repeat first [rewrite <- app_assoc in H | rewrite <- app_comm_cons in H].

Lemma head_app (c : Lexer -> bool) (seg rest : Lexer) :
  (forall t l, c (t :: l) = c [t]) -> seg <> [] -> c (seg ++ rest) = c seg.
Proof.
  intros Hc Hne. destruct seg as [|t seg]; [congruence|].
  rewrite <- app_comm_cons. now rewrite (Hc t (seg ++ rest)), (Hc t seg).
Qed.

Lemma is_op_head (tok : Token) (rest : Lexer) :
  is_op EmptyString (tok :: rest) = is_op EmptyString [tok].
Proof. now rewrite !is_op_cons. Qed.

(** ** Conditionals *)


Lemma if_lambda_plain (k : nat) (sc st : list Token)
    (c t : option Expr) (n : nat) (rest : Lexer) :
  parses_expr k sc c -> parses_expr k st t ->
  is_op EmptyString st = false -> is_punc "(" st = false ->
  is_op EmptyString rest = false -> is_punc "(" rest = false ->
  is_kw "else" rest = false ->
  (k <= n)%nat ->
  atom_lambda n (kw "if" :: sc ++ st ++ rest) = Ok (Some (If c t None), rest).
Proof.
  intros Hc Ht Hop Hpu Hrop Hrpu Hrel Hn.
  pose proof (parses_expr_nonempty k st t Ht) as Hne.
  unfold atom_lambda.
  change (is_kw "ext" (kw "if" :: sc ++ st ++ rest)) with false.
  change (is_kw "def" (kw "if" :: sc ++ st ++ rest)) with false.
  change (is_punc "(" (kw "if" :: sc ++ st ++ rest)) with false.
  change (is_punc "{" (kw "if" :: sc ++ st ++ rest)) with false.
  change (is_kw "if" (kw "if" :: sc ++ st ++ rest)) with true.
  cbv iota. unfold upcast, parse_if, skip_kw.
  change (is_kw "if" (kw "if" :: sc ++ st ++ rest)) with true.
  cbv iota. rewrite bind_Ok; cbv beta iota. cbn [snd next].
  assert (Hop' : is_op EmptyString (st ++ rest) = false)
    by (rewrite (head_app _ st _ is_op_head Hne); exact Hop).
  assert (Hpu' : is_punc "(" (st ++ rest) = false)
    by (rewrite (head_app _ st _ (is_punc_head "(") Hne); exact Hpu).
  rewrite (Hc n _ Hn Hop' Hpu').
  rewrite bind_Ok; cbv beta iota.
  rewrite (Ht n _ Hn Hrop Hrpu).
  rewrite bind_Ok; cbv beta iota. rewrite Hrel.
  rewrite !bind_Ok; cbv beta iota. reflexivity.
Qed.


Lemma if_plain_expr (k : nat) (sc st : list Token) (c t : option Expr) :
  parses_expr k sc c -> parses_expr k st t ->
  is_op EmptyString st = false -> is_punc "(" st = false ->
  forall n rest, (k + 2 <= n)%nat ->
    is_op EmptyString rest = false -> is_punc "(" rest = false ->
    is_kw "else" rest = false ->
    parse_expr n (kw "if" :: sc ++ st ++ rest)
    = Ok (Some (If c t None), rest).
Proof.
  intros Hc Ht Hop Hpu n rest Hn Hrop Hrpu Hrel.
  destruct n as [|[|n]]; try lia.
  apply expr_of_atom; trivial. apply atom_of_lambda; trivial.
  apply if_lambda_plain with (k := k); trivial. lia.
Qed.

(** ** Parentheses *)

Lemma group_atom (k : nat) (seg : list Token) (e : option Expr) :
  parses_expr k seg e ->
  parses_atom (S k) (punc "(" :: seg ++ [punc ")"]) e.
Proof.
  intros H n rest Hn Hpu. destruct n as [|n]; [lia|].
  apply atom_of_lambda; [|exact Hpu]. unfold atom_lambda.
  rewrite <- app_comm_cons.
  change (is_kw "ext" (punc "(" :: (seg ++ [punc ")"]) ++ rest)) with false.
  change (is_kw "def" (punc "(" :: (seg ++ [punc ")"]) ++ rest)) with false.
  change (is_punc "(" (punc "(" :: (seg ++ [punc ")"]) ++ rest)) with true.
  cbv iota. cbn [snd next]. rewrite <- app_assoc.
  change ([punc ")"] ++ rest) with (punc ")" :: rest).
  rewrite (H n (punc ")" :: rest) ltac:(lia) eq_refl eq_refl).
  rewrite bind_Ok; cbv beta iota. reflexivity.
Qed.

Lemma pair_expr (k : nat) (o : string) (p : Z) (sa sb : list Token)
    (a b : option Expr) :
  find_key o OP_PRECEDENCE = Some p ->
  parses_atom k sa a -> parses_atom k sb b ->
  parses_expr (k + 4) (sa ++ op o :: sb) (Some (node o a b)).
Proof.
  intros Ho Ha Hb n rest Hn Hop Hpu.
  pose proof (parse_expr_chain p k sa a [(o, sb, b)] n rest Ha
                ltac:(constructor; [split; assumption | constructor])
                Hop Hpu ltac:(simpl; lia)) as H.
  simpl in H. rewrite app_nil_r in H. flatten_app. exact H.
Qed.

(** X9: parentheses add no node: a parenthesised expression is read as the
    expression inside, and it is an operand.  So they decide the grouping
    whatever the precedences of the operators are: [a o1 (b o2 c)] has [o1]
    at the root and [(a o1 b) o2 c] has [o2] at the root. *)
Theorem X9_parentheses_group :
  (forall k seg e,
      parses_expr k seg e ->
      parses_atom (S k) (punc "(" :: seg ++ [punc ")"]) e)
  /\ (forall k o1 o2 p1 p2 sa sb sc a b c n rest,
      find_key o1 OP_PRECEDENCE = Some p1 ->
      find_key o2 OP_PRECEDENCE = Some p2 ->
      parses_atom k sa a -> parses_atom k sb b -> parses_atom k sc c ->
      is_op EmptyString rest = false -> is_punc "(" rest = false ->
      (k + 9 <= n)%nat ->
      parse_expr n
        (sa ++ op o1 :: punc "(" :: sb ++ op o2 :: sc ++ punc ")" :: rest)
      = Ok (Some (node o1 a (Some (node o2 b c))), rest)
      /\ parse_expr n
           (punc "(" :: sa ++ op o1 :: sb ++ punc ")" :: op o2 :: sc ++ rest)
         = Ok (Some (node o2 (Some (node o1 a b)) c), rest)).
Proof.
  split; [exact group_atom|].
  intros k o1 o2 p1 p2 sa sb sc a b c n rest H1 H2 Ha Hb Hc Hop Hpu Hn.
  split.
  - pose proof (group_atom _ _ _ (pair_expr k o2 p2 sb sc b c H2 Hb Hc))
      as Hg.
    pose proof (pair_expr (S (k + 4)) o1 p1 sa _ a _ H1
                  (parses_atom_more k (S (k + 4)) sa a ltac:(lia) Ha) Hg
                  n rest ltac:(lia) Hop Hpu) as H.
    flatten_app_in H. exact H.
  - pose proof (group_atom _ _ _ (pair_expr k o1 p1 sa sb a b H1 Ha Hb))
      as Hg.
    pose proof (pair_expr (S (k + 4)) o2 p2 _ sc _ c H2 Hg
                  (parses_atom_more k (S (k + 4)) sc c ltac:(lia) Hc)
                  n rest ltac:(lia) Hop Hpu) as H.
    flatten_app_in H. exact H.
Qed.

(** ** Tokens that begin no expression *)

Lemma atom_lambda_unexpected (n : nat) (tok : Token) (rest : Lexer) :
  starts_atom tok = false ->
  atom_lambda n (tok :: rest) = Diag (msg_unexpected (peek rest)).
Proof.
  unfold starts_atom. intros H.
  repeat (apply orb_false_elim in H; let H' := fresh "H" in
          destruct H as [H H']).
  unfold atom_lambda.
  rewrite !(is_kw_head _ tok rest), !(is_punc_head _ tok rest).
  repeat match goal with
         | E : is_kw _ _ = false |- _ => rewrite E; clear E
         | E : is_punc _ _ = false |- _ => rewrite E; clear E
         end.
  cbn [orb next]. cbv iota beta.
  repeat match goal with
         | E : String.eqb _ _ = false |- _ => rewrite E; clear E
         end.
  reflexivity.
Qed.

(** X10: on a token that begins no expression, the diagnostic raised is
    "Unexpected token" with the text of the token that follows it, not of the
    token itself (with the empty text when it is the last one): the token has
    been consumed when [unexpected] looks at the lookahead. *)
Theorem X10_unexpected_names_following_token :
  forall tok rest n,
    starts_atom tok = false ->
    parse_atom (S n) (tok :: rest) = Diag (msg_unexpected (peek rest))
    /\ parse_expr (S (S n)) (tok :: rest) = Diag (msg_unexpected (peek rest))
    /\ parse_toplevel (S (S n)) (tok :: rest)
       = Diag (msg_unexpected (peek rest)).
Proof.
  intros tok rest n H.
  assert (Ha : forall m,
             parse_atom (S m) (tok :: rest)
             = Diag (msg_unexpected (peek rest))).
  { intros m. rewrite parse_atom_S. unfold maybe_call.
    now rewrite (atom_lambda_unexpected m tok rest H). }
  assert (He : parse_expr (S (S n)) (tok :: rest)
               = Diag (msg_unexpected (peek rest))).
  { rewrite parse_expr_S. unfold maybe_call, expr_lambda. now rewrite Ha. }
  repeat apply conj; trivial.
  unfold parse_toplevel. rewrite toplevel_loop_S. simpl eof. cbv iota.
  now rewrite He.
Qed.

(** ** Parameters *)

(** X11: a parameter is one word, its type, or two, its type and its name;
    it is the second word that is optional, so a single word is a type and
    the name is empty.  [parse_param] fails only on a first token that is not
    a word, with "Type name expected"; its check of the name can never fail,
    since the name is read only when the lookahead is a word. *)
Theorem X11_parse_param_reads_type_then_name :
  (forall t u rest,
      type t = "var" -> type u = "var" ->
      parse_param (t :: u :: rest)
      = Ok (mkParam (value t) (value u), rest))
  /\ (forall t rest,
      type t = "var" -> type (peek rest) <> "var" ->
      parse_param (t :: rest) = Ok (mkParam (value t) EmptyString, rest))
  /\ (forall input,
      type (peek input) <> "var" ->
      parse_param input = Diag "Type name expected")
  /\ (forall input, parse_param input <> Diag "Variable name expected").
Proof.
  repeat apply conj.
  - intros t u rest Ht Hu. unfold parse_param. simpl. now rewrite Ht, Hu.
  - intros t rest Ht Hu. unfold parse_param. simpl. rewrite Ht. simpl.
    destruct (String.eqb_spec (type (peek rest)) "var") as [E|E];
      [contradiction | reflexivity].
  - intros input H. unfold parse_param.
    destruct input as [|t rest]; [reflexivity|]. simpl in H |- *.
    destruct (String.eqb_spec (type t) "var") as [E|E];
      [contradiction | reflexivity].
  - intros input. unfold parse_param.
    destruct input as [|t rest]; [discriminate|]. simpl.
    destruct (String.eqb_spec (type t) "var") as [E|E]; [|discriminate].
    simpl. destruct rest as [|u rest]; [discriminate|]. simpl.
    destruct (String.eqb_spec (type u) "var") as [E'|E']; discriminate.
Qed.

(** ** Lists of expressions and of parameters *)

Lemma parse_expr_unexpected (n : nat) (tok : Token) (rest : Lexer) :
  starts_atom tok = false ->
  parse_expr (S (S n)) (tok :: rest) = Diag (msg_unexpected (peek rest)).
Proof.
  intros H. rewrite parse_expr_S. unfold maybe_call at 1, expr_lambda.
  rewrite parse_atom_S. unfold maybe_call.
  now rewrite (atom_lambda_unexpected n tok rest H).
Qed.

Lemma closer_starts_no_atom (c : ascii) (t : Token) :
  c = ")"%char \/ c = "}"%char ->
  is_punc c [t] = true -> starts_atom t = false.
Proof.
  intros Hc H. rewrite is_punc_cons in H.
  apply andb_prop in H. destruct H as [Ht Hv].
  apply String.eqb_eq in Ht. unfold starts_atom.
  rewrite !is_kw_cons, !is_punc_cons, Ht.
  destruct Hc; subst c; simpl in Hv; apply Ascii.eqb_eq in Hv;
    simpl; rewrite Hv; reflexivity.
Qed.

Lemma parses_expr_head (k : nat) (seg : list Token) (e : option Expr) :
  parses_expr k seg e ->
  exists t seg', seg = t :: seg' /\ starts_atom t = true.
Proof.
  intros H. pose proof (parses_expr_nonempty k seg e H) as Hne.
  destruct seg as [|t seg']; [congruence|].
  exists t, seg'. split; [reflexivity|].
  destruct (starts_atom t) eqn:E; [reflexivity|]. exfalso.
  specialize (H (S (S k)) [] ltac:(lia) eq_refl eq_refl).
  rewrite <- app_comm_cons in H.
  now rewrite (parse_expr_unexpected k t _ E) in H.
Qed.

Lemma expr_item (k n : nat) (end_ : ascii) (sepTok endTok : Token)
    (seg : list Token) (e : option Expr) :
  end_ = ")"%char \/ end_ = "}"%char ->
  (forall l, is_op EmptyString (sepTok :: l) = false
             /\ is_punc "(" (sepTok :: l) = false) ->
  (forall l, is_op EmptyString (endTok :: l) = false
             /\ is_punc "(" (endTok :: l) = false) ->
  (k <= n)%nat ->
  parses_expr k seg e ->
  item_of (parse_expr n) end_ sepTok endTok seg e.
Proof.
  intros Hend Hsep Hcl Hn H. split.
  - destruct (parses_expr_head k seg e H) as [t [seg' [-> Ht]]].
    exists t, seg'. split; [reflexivity|].
    destruct (is_punc end_ [t]) eqn:E; [|reflexivity].
    rewrite (closer_starts_no_atom end_ t Hend E) in Ht. discriminate.
  - intros t rest [-> | ->].
    + destruct (Hsep rest) as [Hop Hpu]. now apply H.
    + destruct (Hcl rest) as [Hop Hpu]. now apply H.
Qed.

Lemma param_item (p : Param) :
  item_of parse_param ")" (punc ",") (punc ")") (param_tokens p) p.
Proof.
  destruct p as [ty [|c name]]; unfold param_tokens; simpl; split.
  - exists (var ty), []. now split.
  - intros t rest [-> | ->]; reflexivity.
  - exists (var ty), [var (String c name)]. now split.
  - intros t rest [-> | ->]; reflexivity.
Qed.

Lemma param_items (ps : list Param) :
  Forall2 (item_of parse_param ")" (punc ",") (punc ")"))
    (map param_tokens ps) ps.
Proof.
  induction ps as [|p ps IH]; simpl; constructor;
    [apply param_item | exact IH].
Qed.

Lemma expr_items (k n : nat) (end_ : ascii) (sepTok endTok : Token)
    (segs : list (list Token)) (es : list (option Expr)) :
  end_ = ")"%char \/ end_ = "}"%char ->
  (forall l, is_op EmptyString (sepTok :: l) = false
             /\ is_punc "(" (sepTok :: l) = false) ->
  (forall l, is_op EmptyString (endTok :: l) = false
             /\ is_punc "(" (endTok :: l) = false) ->
  (k <= n)%nat ->
  Forall2 (parses_expr k) segs es ->
  Forall2 (item_of (parse_expr n) end_ sepTok endTok) segs es.
Proof.
  intros Hend Hsep Hcl Hn. induction 1; constructor; trivial.
  now apply expr_item with (k := k).
Qed.

(** X14: the arguments of a call and the expressions of a block are read in
    the order in which they are written: an identifier followed by a
    parenthesised list of expressions with commas between them is a call
    with these arguments, whatever follows the closing parenthesis, and one
    or more expressions between braces with semicolons between them are the
    block of these expressions. *)
Theorem X14_arguments_and_blocks_in_order :
  forall k segs es n,
    Forall2 (parses_expr k) segs es ->
    (k + length segs + 2 <= n)%nat ->
    (forall f rest,
        parse_atom n
          (var f :: punc "(" :: listed (punc ",") segs ++ punc ")" :: rest)
        = Ok (Some (Call (Some (Identifier f)) es), rest))
    /\ (forall rest,
        segs <> [] ->
        parse_prog n (punc "{" :: listed (punc ";") segs ++ punc "}" :: rest)
        = Ok (Some (Program es), rest)).
Proof.
  intros k segs es n Hall Hn. destruct n as [|n]; [lia|]. split.
  - intros f rest. rewrite parse_atom_S. unfold maybe_call.
    change (atom_lambda n
              (var f :: punc "(" :: listed (punc ",") segs
                 ++ punc ")" :: rest))
      with (@Ok (option Expr * Lexer)
              (Some (Identifier f),
               punc "(" :: listed (punc ",") segs ++ punc ")" :: rest)).
    rewrite bind_Ok; cbv beta iota.
    change (is_punc "(" (punc "(" :: listed (punc ",") segs
                           ++ punc ")" :: rest)) with true.
    cbv iota. unfold upcast, parse_call.
    rewrite (delimited_items (parse_expr n) "(" ")" ","
               (punc "(") (punc ",") (punc ")") eq_refl eq_refl eq_refl
               eq_refl segs es n rest
               (expr_items k n ")" (punc ",") (punc ")") segs es
                  (or_introl eq_refl) (fun _ => conj eq_refl eq_refl)
                  (fun _ => conj eq_refl eq_refl) ltac:(lia) Hall)
               ltac:(lia)).
    rewrite !bind_Ok; cbv beta iota. reflexivity.
  - intros rest Hne. rewrite parse_prog_S.
    rewrite (delimited_items (parse_expr n) "{" "}" ";"
               (punc "{") (punc ";") (punc "}") eq_refl eq_refl eq_refl
               eq_refl segs es n rest
               (expr_items k n "}" (punc ";") (punc "}") segs es
                  (or_intror eq_refl) (fun _ => conj eq_refl eq_refl)
                  (fun _ => conj eq_refl eq_refl) ltac:(lia) Hall)
               ltac:(lia)).
    rewrite bind_Ok; cbv beta iota.
    destruct Hall; [congruence | reflexivity].
Qed.

(** ** Functions *)

(** X15: [ext name ( parameters )] declares a function without a body, the
    third pointer of the node being null, and the parameter list is
    required; [def name ( parameters ) body] and [def name body] define one,
    the second without parameters.  The parameters are read back as they are
    written, each as its type and, if there is one, its name. *)
Theorem X15_function_declarations :
  forall ps n,
    (length ps + 2 <= n)%nat ->
    (forall f rest,
        is_punc "(" rest = false ->
        parse_atom n
          (kw "ext" :: var f :: punc "("
             :: listed (punc ",") (map param_tokens ps) ++ punc ")" :: rest)
        = Ok (Some (Function f ps None), rest))
    /\ (forall f rest,
        is_punc "(" rest = false ->
        parse_atom n (kw "ext" :: var f :: rest)
        = Diag (msg_token_expected "("))
    /\ (forall k nameTok sb body rest,
        parses_expr k sb body -> (k < n)%nat ->
        is_op EmptyString rest = false -> is_punc "(" rest = false ->
        parse_atom n
          (kw "def" :: nameTok :: punc "("
             :: listed (punc ",") (map param_tokens ps) ++ punc ")"
             :: sb ++ rest)
        = Ok (Some (Function (value nameTok) ps body), rest))
    /\ (forall k nameTok sb body rest,
        parses_expr k sb body -> (k < n)%nat ->
        is_punc "(" sb = false ->
        is_op EmptyString rest = false -> is_punc "(" rest = false ->
        parse_atom n (kw "def" :: nameTok :: sb ++ rest)
        = Ok (Some (Function (value nameTok) [] body), rest)).
Proof.
  intros ps n Hn. destruct n as [|n]; [lia|].
  assert (Hps : forall rest,
             delimited n "(" ")" "," parse_param
               (punc "(" :: listed (punc ",") (map param_tokens ps)
                  ++ punc ")" :: rest)
             = Ok (ps, rest)).
  { intros rest.
    apply (delimited_items parse_param "(" ")" ","
             (punc "(") (punc ",") (punc ")") eq_refl eq_refl eq_refl
             eq_refl (map param_tokens ps) ps n rest (param_items ps)).
    rewrite length_map. lia. }
  repeat apply conj.
  - intros f rest Hpu. apply atom_of_lambda; [|exact Hpu].
    unfold atom_lambda.
    change (is_kw "ext" (kw "ext" :: var f :: punc "("
              :: listed (punc ",") (map param_tokens ps) ++ punc ")" :: rest))
      with true.
    cbv iota. unfold parse_ext, skip_kw.
    change (is_kw "ext" (kw "ext" :: var f :: punc "("
              :: listed (punc ",") (map param_tokens ps) ++ punc ")" :: rest))
      with true.
    cbv iota. rewrite bind_Ok; cbv beta iota. cbn [snd next].
    change (negb (String.eqb (type (var f)) "var")) with false. cbv iota.
    rewrite Hps. rewrite bind_Ok; cbv beta iota. reflexivity.
  - intros f rest Hpu. rewrite parse_atom_S. unfold maybe_call, atom_lambda.
    change (is_kw "ext" (kw "ext" :: var f :: rest)) with true.
    cbv iota. unfold parse_ext, skip_kw.
    change (is_kw "ext" (kw "ext" :: var f :: rest)) with true.
    cbv iota. rewrite bind_Ok; cbv beta iota. cbn [snd next].
    change (negb (String.eqb (type (var f)) "var")) with false. cbv iota.
    unfold delimited, skip_punc. now rewrite Hpu.
  - intros k nameTok sb body rest Hb Hk Hop Hpu.
    apply atom_of_lambda; [|exact Hpu]. unfold atom_lambda.
    change (is_kw "ext" (kw "def" :: nameTok :: punc "("
              :: listed (punc ",") (map param_tokens ps) ++ punc ")"
              :: sb ++ rest)) with false.
    change (is_kw "def" (kw "def" :: nameTok :: punc "("
              :: listed (punc ",") (map param_tokens ps) ++ punc ")"
              :: sb ++ rest)) with true.
    cbv iota. unfold parse_func. cbn [snd next]. cbv beta iota zeta.
    change (is_punc "(" (punc "("
              :: listed (punc ",") (map param_tokens ps) ++ punc ")"
              :: sb ++ rest)) with true.
    cbv iota. rewrite Hps. rewrite bind_Ok; cbv beta iota.
    rewrite (Hb n rest ltac:(lia) Hop Hpu).
    rewrite bind_Ok; cbv beta iota. reflexivity.
  - intros k nameTok sb body rest Hb Hk Hsb Hop Hpu.
    apply atom_of_lambda; [|exact Hpu]. unfold atom_lambda.
    change (is_kw "ext" (kw "def" :: nameTok :: sb ++ rest)) with false.
    change (is_kw "def" (kw "def" :: nameTok :: sb ++ rest)) with true.
    cbv iota. unfold parse_func. cbn [snd next]. cbv beta iota zeta.
    rewrite (head_app _ sb rest (is_punc_head "(")
               (parses_expr_nonempty k sb body Hb)), Hsb.
    rewrite bind_Ok; cbv beta iota.
    rewrite (Hb n rest ltac:(lia) Hop Hpu).
    rewrite bind_Ok; cbv beta iota. reflexivity.
Qed.

(** ** The branch of a conditional *)

Lemma call_atom (k h : nat) (segs : list (list Token))
    (es : list (option Expr)) (n : nat) (head : list Token)
    (f : option Expr) :
  Forall2 (parses_expr k) segs es ->
  (k + length segs + 2 <= n)%nat -> (h < n)%nat ->
  (forall m rest, (h <= m)%nat -> atom_lambda m (head ++ rest) = Ok (f, rest)) ->
  forall rest,
    parse_atom n
      (head ++ punc "(" :: listed (punc ",") segs ++ punc ")" :: rest)
    = Ok (Some (Call f es), rest).
Proof.
  intros Hall Hn Hh' Hhead rest. destruct n as [|n]; [lia|].
  rewrite parse_atom_S. unfold maybe_call.
  assert (Hh : atom_lambda n
                 (head ++ punc "(" :: listed (punc ",") segs
                    ++ punc ")" :: rest)
               = Ok (f, punc "(" :: listed (punc ",") segs
                          ++ punc ")" :: rest)).
  { apply Hhead. lia. }
  rewrite Hh. rewrite bind_Ok; cbv beta iota.
  change (is_punc "(" (punc "(" :: listed (punc ",") segs
                         ++ punc ")" :: rest)) with true.
  cbv iota. unfold upcast, parse_call.
  rewrite (delimited_items (parse_expr n) "(" ")" ","
             (punc "(") (punc ",") (punc ")") eq_refl eq_refl eq_refl
             eq_refl segs es n rest
             (expr_items k n ")" (punc ",") (punc ")") segs es
                (or_introl eq_refl) (fun _ => conj eq_refl eq_refl)
                (fun _ => conj eq_refl eq_refl) ltac:(lia) Hall)
             ltac:(lia)).
  rewrite !bind_Ok; cbv beta iota. reflexivity.
Qed.




(** ** End of the stream *)

Lemma raised_variable : raised "Variable name expected".
Proof. right; right; left; reflexivity. Qed.

Lemma raised_type : raised "Type name expected".
Proof. right; right; right; left; reflexivity. Qed.

Lemma raised_function : raised "Function name expected".
Proof. right; right; right; right; reflexivity. Qed.

Section ListDiagnostics.

Variables start end_ separator : ascii.

Let D (m : string) : Prop := list_message start end_ separator m \/ raised m.

Lemma list_or_raised (n : nat) :
  fits_expr (fun _ => True) D (fun _ => True) n.
Proof.
  apply (parser_fits (fun _ => True) D (fun _ => True));
    try (intros; exact I).
  - intros t. right. apply raised_unexpected.
  - intros c Hc. right. now apply raised_token.
  - right. apply raised_variable.
  - right. apply raised_type.
  - right. apply raised_function.
Qed.

Lemma delimited_expr_diag (fuel n : nat) (input : Lexer) (m : string) :
  delimited fuel start end_ separator (parse_expr n) input = Diag m ->
  list_message start end_ separator m \/ raised m.
Proof.
  intros H.
  pose proof (delimited_fits (fun _ => True) D (fun _ => True)
                (parse_expr n) fuel start end_ separator true input
                (list_or_raised n)
                (or_introl (or_introl eq_refl))
                (or_introl (or_intror (or_introl eq_refl)))
                (or_introl (or_intror (or_intror eq_refl)))
                (Forall_True input)) as Hf.
  rewrite H in Hf. exact Hf.
Qed.

Lemma delimited_varname_diag (fuel : nat) (input : Lexer) (m : string) :
  delimited fuel start end_ separator parse_varname input = Diag m ->
  list_message start end_ separator m \/ m = "Variable name expected".
Proof.
  intros H.
  pose proof (delimited_fits (fun _ => True)
                (fun m => list_message start end_ separator m
                          \/ m = "Variable name expected")
                (fun _ => True)
                parse_varname fuel start end_ separator true input) as Hf.
  rewrite H in Hf. apply Hf.
  - intros input0 _. apply parse_varname_fits. now right.
  - left; left; reflexivity.
  - left; right; left; reflexivity.
  - left; right; right; reflexivity.
  - apply Forall_True.
Qed.

Lemma delimited_param_diag (fuel : nat) (input : Lexer) (m : string) :
  delimited fuel start end_ separator parse_param input = Diag m ->
  list_message start end_ separator m \/ m = "Type name expected".
Proof.
  intros H.
  pose proof (delimited_fits (fun _ => True)
                (fun m => list_message start end_ separator m
                          \/ m = "Type name expected")
                (fun _ => True)
                parse_param fuel start end_ separator true input) as Hf.
  rewrite H in Hf. apply Hf.
  - intros input0 _. apply parse_param_fits. now right.
  - left; left; reflexivity.
  - left; right; left; reflexivity.
  - left; right; right; reflexivity.
  - apply Forall_True.
Qed.

End ListDiagnostics.

Lemma parse_atom_diag (n : nat) (input : Lexer) (m : string) :
  parse_atom n input = Diag m -> raised m.
Proof.
  intros H.
  destruct (parser_fits (fun _ => True) raised (fun _ => True)
              raised_unexpected raised_token raised_variable raised_type
              raised_function (fun _ _ _ _ => I) (fun _ _ _ _ _ => I) n)
    as [Ha _].
  specialize (Ha input (Forall_True input)). rewrite H in Ha. exact Ha.
Qed.

(** C8, as it holds of the code: when the stream ends while [delimited] is
    in its loop, or where the closing parenthesis of a grouped expression is
    due, the closing delimiter is asked for and the diagnostic "Token 'c'
    expected" is raised; when it ends where an item is due, the item parser
    raises its own diagnostic.  No tree is returned.  In general, a list or
    a grouped expression that is closed in a stream raises a diagnostic in
    every stream that is cut before its closing delimiter, and this
    diagnostic is one of the messages of [skip_punc] and of the item
    parser.  There is no diagnostic of its own for the end of the stream:
    [skip_punc] raises the same message on any token other than the one it
    asks for, so [(1;] gives the message of [(1]. *)
Theorem C8_end_of_stream_in_open_construct :
  (forall (T : Type) fuel end_ separator (parser : Parser T) first items,
      delimited_tail (S fuel) end_ separator parser first items []
      = Diag (msg_token_expected end_))
  /\ (forall (T : Type) fuel start end_ separator (parser : Parser T) t0,
      is_punc start [t0] = true ->
      delimited (S fuel) start end_ separator parser [t0]
      = Diag (msg_token_expected end_))
  /\ (forall (T : Type) fuel start end_ separator (parser : Parser T)
          input items rest,
      delimited fuel start end_ separator parser input = Ok (items, rest) ->
      exists tok,
        delimited_loop fuel end_ separator parser true [] (snd (next input))
        = Ok (items, tok :: rest)
        /\ is_punc end_ [tok] = true)
  /\ (forall n,
      parse_expr (S (S n)) [] = Diag (msg_unexpected null_token)
      /\ parse_varname [] = Diag "Variable name expected"
      /\ parse_param [] = Diag "Type name expected")
  /\ (forall n t0 input e,
      is_punc "(" [t0] = true -> parse_expr n input = Ok (e, []) ->
      parse_atom (S n) (t0 :: input) = Diag (msg_token_expected ")"))
  /\ (forall n t0 input e rest,
      is_punc "(" [t0] = true -> parse_expr n input = Ok (e, rest) ->
      is_punc ")" rest = false ->
      parse_atom (S n) (t0 :: input) = Diag (msg_token_expected ")"))
  /\ (forall ch t rest,
      is_punc ch [t] = false -> skip_punc ch (t :: rest) = skip_punc ch [])
  /\ (forall fuel n start end_ separator pre ext items rest,
      delimited fuel start end_ separator (parse_expr n) (pre ++ ext)
      = Ok (items, rest) ->
      (length rest < length ext)%nat ->
      exists m,
        delimited fuel start end_ separator (parse_expr n) pre = Diag m
        /\ (list_message start end_ separator m \/ raised m))
  /\ (forall fuel start end_ separator pre ext items rest,
      delimited fuel start end_ separator parse_varname (pre ++ ext)
      = Ok (items, rest) ->
      (length rest < length ext)%nat ->
      exists m,
        delimited fuel start end_ separator parse_varname pre = Diag m
        /\ (list_message start end_ separator m
            \/ m = "Variable name expected"))
  /\ (forall fuel start end_ separator pre ext items rest,
      delimited fuel start end_ separator parse_param (pre ++ ext)
      = Ok (items, rest) ->
      (length rest < length ext)%nat ->
      exists m,
        delimited fuel start end_ separator parse_param pre = Diag m
        /\ (list_message start end_ separator m
            \/ m = "Type name expected"))
  /\ (forall n t0 pre ext e rest,
      is_punc "(" [t0] = true ->
      parse_expr n (pre ++ ext) = Ok (e, rest) ->
      (length rest <= length ext)%nat ->
      exists m, parse_atom (S n) (t0 :: pre) = Diag m /\ raised m)
  /\ (forall fuel, (6 <= fuel)%nat ->
      parse_toplevel fuel [var "f"; punc "("; num "1"]
      = Diag "Token ')' expected"
      /\ parse_toplevel fuel [punc "{"; num "1"; punc ";"; num "2"]
         = Diag "Token '}' expected"
      /\ parse_toplevel fuel [punc "("; num "1"]
         = Diag "Token ')' expected"
      /\ parse_toplevel fuel [kw "ext"; var "f"; punc "("; var "int"; var "x"]
         = Diag "Token ')' expected"
      /\ parse_toplevel fuel [var "f"; punc "("; num "1"; punc ","]
         = Diag (msg_unexpected null_token)
      /\ parse_toplevel fuel [punc "("; num "1"; punc ";"]
         = Diag "Token ')' expected"
      /\ parse_toplevel fuel [var "f"; punc "("; num "1"; punc ","; punc "}"]
         = Diag (msg_unexpected null_token)).
Proof.
  repeat apply conj.
  - intros T fuel end_ separator parser first items. reflexivity.
  - intros T fuel start end_ separator parser t0 Hs.
    rewrite delimited_from_tail. unfold skip_punc at 1. rewrite Hs.
    reflexivity.
  - intros T fuel start end_ separator parser input items rest H.
    unfold delimited in H. inv_bind H. inv_bind H. inv_bind H. inv_ok H.
    apply skip_punc_Ok in Ha. destruct Ha as [t0 [-> _]].
    apply skip_punc_Ok in Ha1. destruct Ha1 as [tok [-> Htok]].
    exists tok. split; [exact Ha0 | exact Htok].
  - intros n. repeat split; reflexivity.
  - intros n t0 input e Hp He.
    rewrite is_punc_cons in Hp. apply andb_prop in Hp. destruct Hp as [Hty Hch].
    apply String.eqb_eq in Hty.
    destruct t0 as [ty v]; simpl in Hty, Hch; subst ty.
    simpl. unfold maybe_call.
    rewrite !is_kw_cons, is_punc_cons; simpl. rewrite Hch; simpl.
    rewrite He. reflexivity.
  - intros n t0 input e rest Hp He Hr.
    rewrite is_punc_cons in Hp. apply andb_prop in Hp. destruct Hp as [Hty Hch].
    apply String.eqb_eq in Hty.
    destruct t0 as [ty v]; simpl in Hty, Hch; subst ty.
    simpl. unfold maybe_call.
    rewrite !is_kw_cons, is_punc_cons; simpl. rewrite Hch; simpl.
    rewrite He. simpl. unfold skip_punc. rewrite Hr. reflexivity.
  - intros ch t rest Ht. unfold skip_punc.
    now rewrite is_punc_head, Ht.
  - intros fuel n start end_ separator pre ext items rest H Hl.
    destruct (delimited_cut_short (parse_expr n) fuel start end_ separator
                pre ext items rest
                (proj1 (proj2 (cut_parser n))) (parse_expr_end n) H Hl)
      as [m Hm].
    exists m. split; [exact Hm|].
    exact (delimited_expr_diag start end_ separator fuel n pre m Hm).
  - intros fuel start end_ separator pre ext items rest H Hl.
    destruct (delimited_cut_short parse_varname fuel start end_ separator
                pre ext items rest
                cut_parse_varname parse_varname_end H Hl) as [m Hm].
    exists m. split; [exact Hm|].
    exact (delimited_varname_diag start end_ separator fuel pre m Hm).
  - intros fuel start end_ separator pre ext items rest H Hl.
    destruct (delimited_cut_short parse_param fuel start end_ separator
                pre ext items rest
                cut_parse_param parse_param_end H Hl) as [m Hm].
    exists m. split; [exact Hm|].
    exact (delimited_param_diag start end_ separator fuel pre m Hm).
  - intros n t0 pre ext e rest Hp H Hl.
    destruct (group_cut_short n t0 pre ext e rest Hp H Hl) as [m Hm].
    exists m. split; [exact Hm|].
    exact (parse_atom_diag (S n) (t0 :: pre) m Hm).
  - intros fuel Hfuel. repeat split; fuel_cases fuel 6.
Qed.

(** ** Empty blocks filled *)

Section Filled.

Variable x : string.

Lemma fill_peek (input : Lexer) : peek (fill x input) = peek input.
Proof.
  destruct input as [|a [|b r]]; simpl; try reflexivity.
  destruct (is_punc "{" [a] && is_punc "}" [b])%bool; reflexivity.
Qed.

Lemma fill_eof (input : Lexer) : eof (fill x input) = eof input.
Proof.
  destruct input as [|a [|b r]]; simpl; try reflexivity.
  destruct (is_punc "{" [a] && is_punc "}" [b])%bool; reflexivity.
Qed.

Lemma fill_is_punc (ch : ascii) (input : Lexer) :
  is_punc ch (fill x input) = is_punc ch input.
Proof. unfold is_punc. now rewrite fill_peek. Qed.

Lemma fill_is_kw (k : string) (input : Lexer) :
  is_kw k (fill x input) = is_kw k input.
Proof. unfold is_kw. now rewrite fill_peek. Qed.

Lemma fill_is_op (o : string) (input : Lexer) :
  is_op o (fill x input) = is_op o input.
Proof. unfold is_op. now rewrite fill_peek. Qed.

Lemma fill_cons (a : Token) (r : Lexer) :
  is_punc "{" [a] = false -> fill x (a :: r) = a :: fill x r.
Proof. intros H. destruct r as [|b r]; simpl; [|rewrite H]; reflexivity. Qed.

Lemma fill_before (a : Token) (r : Lexer) :
  is_punc "}" r = false -> fill x (a :: r) = a :: fill x r.
Proof.
  intros H. destruct r as [|b r]; simpl; [reflexivity|].
  rewrite is_punc_head in H. rewrite H. now rewrite andb_false_r.
Qed.

Lemma fill_block (a b : Token) (r : Lexer) :
  is_punc "{" [a] = true -> is_punc "}" [b] = true ->
  fill x (a :: b :: r) = a :: var x :: b :: fill x r.
Proof. intros Ha Hb. simpl. now rewrite Ha, Hb. Qed.

Lemma fill_next (input : Lexer) :
  is_punc "{" input = false ->
  next (fill x input) = (fst (next input), fill x (snd (next input))).
Proof.
  intros H. destruct input as [|a r]; [reflexivity|].
  rewrite is_punc_head in H. now rewrite (fill_cons a r H).
Qed.

Lemma fill_unless_brace (input : Lexer) :
  is_punc "{" input = false ->
  fill x input
  = match input with [] => [] | a :: r => a :: fill x r end.
Proof.
  intros H. destruct input as [|a r]; [reflexivity|].
  rewrite is_punc_head in H. exact (fill_cons a r H).
Qed.

Lemma kw_not_punc (k : string) (ch : ascii) (input : Lexer) :
  is_kw k input = true -> is_punc ch input = false.
Proof.
  destruct input as [|a r]; [discriminate|].
  rewrite is_kw_cons, is_punc_cons. intros H.
  apply andb_prop in H. destruct H as [H _]. apply String.eqb_eq in H.
  now rewrite H.
Qed.

Lemma op_not_punc (ch : ascii) (input : Lexer) :
  is_op EmptyString input = true -> is_punc ch input = false.
Proof.
  destruct input as [|a r]; [discriminate|].
  rewrite is_op_cons, is_punc_cons. intros H.
  apply String.eqb_eq in H. now rewrite H.
Qed.

Lemma var_not_punc (ch : ascii) (a : Token) :
  String.eqb (type a) "var" = true -> is_punc ch [a] = false.
Proof.
  rewrite is_punc_cons. intros H. apply String.eqb_eq in H. now rewrite H.
Qed.

Lemma punc_not_brace (ch : ascii) (a : Token) :
  ch <> "{"%char -> ch <> zero ->
  is_punc ch [a] = true -> is_punc "{" [a] = false.
Proof.
  intros Hc Hz. rewrite !is_punc_cons. intros H.
  apply andb_prop in H. destruct H as [Ht Hv]. rewrite Ht. simpl.
  apply orb_prop in Hv. destruct Hv as [Hv|Hv]; apply Ascii.eqb_eq in Hv.
  - contradiction.
  - rewrite Hv. now apply Ascii.eqb_neq.
Qed.

Lemma filled_ret {A B : Type} (R : A -> B -> Prop) (a : A) (b : B)
    (rest : Lexer) :
  R a b -> filled x R (Ok (a, rest)) (Ok (b, fill x rest)).
Proof.
  intros H a0 rest0 E. injection E as <- <-. now exists b.
Qed.

Lemma filled_fail {A B : Type} (R : A -> B -> Prop)
    (r : Result (A * Lexer)) (r' : Result (B * Lexer)) :
  (forall a, r <> Ok a) -> filled x R r r'.
Proof. intros H a rest E. now elim (H (a, rest)). Qed.

Lemma filled_bind {A A' B B' : Type} (R : A -> A' -> Prop)
    (Q : B -> B' -> Prop) (r : Result (A * Lexer))
    (r' : Result (A' * Lexer)) (k : A -> Parser B) (k' : A' -> Parser B') :
  filled x R r r' ->
  (forall a a' rest, r = Ok (a, rest) -> R a a' ->
                     filled x Q (k a rest) (k' a' (fill x rest))) ->
  filled x Q (' (a, input1) <- r ;; k a input1)
    (' (a, input1) <- r' ;; k' a input1).
Proof.
  intros Hr Hk b rest E.
  apply bind_Ok_inv in E. destruct E as [[a input1] [Ea E]].
  destruct (Hr a input1 Ea) as [a' [Ea' Ra]]. rewrite Ea'.
  rewrite bind_Ok; cbv beta iota.
  exact (Hk a a' input1 Ea Ra b rest E).
Qed.

Lemma filled_skip_punc (ch : ascii) (input : Lexer) :
  ch <> "{"%char -> ch <> zero ->
  filled x (@eq unit) (skip_punc ch input) (skip_punc ch (fill x input)).
Proof.
  intros Hc Hz u rest H. apply skip_punc_Ok in H.
  destruct H as [tok [-> Ht]]. exists tt. split; [|now destruct u].
  rewrite (fill_cons tok rest (punc_not_brace ch tok Hc Hz Ht)).
  unfold skip_punc. now rewrite is_punc_head, Ht.
Qed.

Lemma filled_skip_kw (k : string) (input : Lexer) :
  filled x (@eq unit) (skip_kw k input) (skip_kw k (fill x input)).
Proof.
  intros u rest H. unfold skip_kw in H |- *. rewrite fill_is_kw.
  destruct (is_kw k input) eqn:Ek; [|discriminate].
  injection H as <- <-. exists tt. split; [|reflexivity].
  now rewrite (fill_next input (kw_not_punc k "{" input Ek)).
Qed.

Lemma filled_parse_varname (input : Lexer) :
  filled x (@eq string) (parse_varname input) (parse_varname (fill x input)).
Proof.
  intros v rest H. unfold parse_varname in H |- *.
  destruct input as [|a r]; simpl in H; [discriminate|].
  destruct (String.eqb (type a) "var") eqn:Ea; simpl in H; [|discriminate].
  injection H as <- <-. rewrite (fill_cons a r (var_not_punc "{" a Ea)).
  simpl. rewrite Ea. simpl. now exists (value a).
Qed.

Lemma filled_parse_param (input : Lexer) :
  filled x (@eq Param) (parse_param input) (parse_param (fill x input)).
Proof.
  intros v rest H. unfold parse_param in H |- *.
  destruct input as [|a r]; simpl in H; [discriminate|].
  destruct (String.eqb (type a) "var") eqn:Ea; simpl in H; [|discriminate].
  rewrite (fill_cons a r (var_not_punc "{" a Ea)).
  simpl. rewrite Ea. simpl. rewrite fill_peek.
  destruct (String.eqb (type (peek r)) "var") eqn:Er.
  - destruct r as [|b r]; simpl in H, Er; [discriminate|].
    rewrite Er in H. simpl in H. injection H as <- <-.
    rewrite (fill_cons b r (var_not_punc "{" b Er)). simpl. rewrite Er.
    simpl. now exists (mkParam (value a) (value b)).
  - injection H as <- <-. now exists (mkParam (value a) EmptyString).
Qed.

Lemma Forall2_eq_same {A : Type} (l l' : list A) :
  Forall2 eq l l' -> l = l'.
Proof. induction 1; congruence. Qed.

Lemma closer_stops (rb : Token) (rest : Lexer) :
  is_punc "}" [rb] = true ->
  is_op EmptyString (rb :: rest) = false
  /\ is_punc "(" (rb :: rest) = false.
Proof.
  rewrite is_op_cons, !is_punc_cons. intros H.
  apply andb_prop in H. destruct H as [Ht Hv].
  apply String.eqb_eq in Ht. rewrite Ht. simpl in Hv |- *.
  apply Ascii.eqb_eq in Hv. rewrite Hv. now split.
Qed.

Lemma opener_not_closer (a : Token) :
  is_punc "{" [a] = true -> is_punc "}" [a] = false.
Proof.
  rewrite !is_punc_cons. intros H.
  apply andb_prop in H. destruct H as [Ht Hv]. rewrite Ht.
  simpl in Hv |- *. apply Ascii.eqb_eq in Hv. now rewrite Hv.
Qed.

Lemma closer_not_opener (b : Token) :
  is_punc "}" [b] = true -> is_punc "{" [b] = false.
Proof.
  rewrite !is_punc_cons. intros H.
  apply andb_prop in H. destruct H as [Ht Hv]. rewrite Ht.
  simpl in Hv |- *. apply Ascii.eqb_eq in Hv. now rewrite Hv.
Qed.

(** The filled block is read as the block of the one element [x]. *)
Lemma filled_block_read (a b : Token) (r : Lexer) (m : nat) :
  is_punc "{" [a] = true -> is_punc "}" [b] = true -> (3 <= m)%nat ->
  parse_prog (S m) (a :: var x :: b :: r)
  = Ok (Some (Program [Some (Identifier x)]), r).
Proof.
  intros Ha Hb Hm. rewrite parse_prog_S. unfold delimited, skip_punc at 1.
  rewrite is_punc_head, Ha. rewrite bind_Ok; cbv beta iota. cbn [snd next].
  destruct m as [|m]; [lia|]. rewrite delimited_loop_S.
  simpl eof. cbv iota. rewrite is_punc_head.
  change (is_punc "}" [var x]) with false. cbv iota.
  rewrite bind_Ok; cbv beta iota. rewrite is_punc_head.
  change (is_punc "}" [var x]) with false. cbv iota.
  destruct (closer_stops b r Hb) as [Hop Hpu].
  pose proof (atom_expr 1 [var x] (Some (Identifier x)) (parses_atom_var x)
                (S m) (b :: r) ltac:(lia) Hop Hpu) as He.
  simpl app in He. rewrite He. rewrite bind_Ok; cbv beta iota.
  destruct m as [|m]; [lia|]. rewrite delimited_loop_S.
  simpl eof. cbv iota. rewrite is_punc_head, Hb.
  rewrite bind_Ok; cbv beta iota. unfold skip_punc.
  rewrite is_punc_head, Hb. reflexivity.
Qed.

Section FilledDelimited.

Context {T T' : Type}.
Variable R : T -> T' -> Prop.
Variables end_ separator : ascii.
Hypothesis end_plain : end_ <> "{"%char /\ end_ <> zero.
Hypothesis separator_plain : separator <> "{"%char /\ separator <> zero.
Variables (p : Parser T) (p' : Parser T').
Hypothesis p_filled :
  forall input, filled x R (p input) (p' (fill x input)).

Lemma filled_delimited_loop (f : nat) :
  forall first items items' input,
    Forall2 R items items' ->
    filled x (Forall2 R)
      (delimited_loop f end_ separator p first items input)
      (delimited_loop (f + 2) end_ separator p' first items'
         (fill x input)).
Proof.
  induction f as [|f IH]; intros first items items' input Hi.
  - apply filled_fail. discriminate.
  - change (S f + 2)%nat with (S (f + 2)). rewrite !delimited_loop_S.
    rewrite fill_eof, fill_is_punc.
    destruct (eof input); [now apply filled_ret|].
    destruct (is_punc end_ input); [now apply filled_ret|].
    apply (filled_bind (@eq unit)).
    + destruct first; [now apply filled_ret|].
      apply filled_skip_punc; apply separator_plain.
    + intros u u' input1 _ _. rewrite fill_is_punc.
      destruct (is_punc end_ input1); [now apply filled_ret|].
      apply (filled_bind R); [apply p_filled|].
      intros t t' input2 _ Ht. apply IH.
      apply Forall2_app; [exact Hi | now constructor].
Qed.

Lemma filled_delimited_tail (f : nat) (first : bool) (items : list T)
    (items' : list T') (input : Lexer) :
  Forall2 R items items' ->
  filled x (Forall2 R)
    (delimited_tail f end_ separator p first items input)
    (delimited_tail (f + 2) end_ separator p' first items' (fill x input)).
Proof.
  intros Hi. unfold delimited_tail.
  apply (filled_bind (Forall2 R)); [now apply filled_delimited_loop|].
  intros l l' input2 _ Hl.
  apply (filled_bind (@eq unit)); [apply filled_skip_punc; apply end_plain|].
  intros u u' input3 _ _. now apply filled_ret.
Qed.

Lemma filled_delimited (start : ascii) (f : nat) (input : Lexer) :
  start <> "{"%char -> start <> zero ->
  filled x (Forall2 R) (delimited f start end_ separator p input)
    (delimited (f + 2) start end_ separator p' (fill x input)).
Proof.
  intros Hs Hz.
  change (filled x (Forall2 R)
            (' (_, input1) <- skip_punc start input ;;
             delimited_tail f end_ separator p true [] input1)
            (' (_, input1) <- skip_punc start (fill x input) ;;
             delimited_tail (f + 2) end_ separator p' true [] input1)).
  apply (filled_bind (@eq unit)); [now apply filled_skip_punc|].
  intros u u' input1 _ _. apply filled_delimited_tail. constructor.
Qed.

End FilledDelimited.

Lemma paren_plain : ("("%char <> "{"%char /\ "("%char <> zero).
Proof. split; discriminate. Qed.

Lemma close_plain : (")"%char <> "{"%char /\ ")"%char <> zero).
Proof. split; discriminate. Qed.

Lemma comma_plain : (","%char <> "{"%char /\ ","%char <> zero).
Proof. split; discriminate. Qed.

Lemma filled_upcast (p p' : Parser Expr) (input : Lexer) :
  filled x (fun e e' => fills x (Some e) (Some e')) (p input)
    (p' (fill x input)) ->
  filled x (fills x) (upcast p input) (upcast p' (fill x input)).
Proof.
  intros H. unfold upcast.
  apply (filled_bind (fun e e' => fills x (Some e) (Some e'))); [exact H|].
  intros e e' rest _ He. now apply filled_ret.
Qed.

Section FilledRoutines.

Variables (n : nat) (pe pe' pp pp' : Parser (option Expr)).
Hypothesis pe_filled : filled_parser x pe pe'.
Hypothesis pp_filled : filled_parser x pp pp'.
Hypothesis pe_starts :
  forall t rest a, is_punc "}" [t] = true -> pe (t :: rest) <> Ok a.

Lemma filled_parse_call (func func' : option Expr) (input : Lexer) :
  fills x func func' ->
  filled x (fun e e' => fills x (Some e) (Some e'))
    (parse_call n pe func input) (parse_call (n + 2) pe' func' (fill x input)).
Proof.
  intros Hf. unfold parse_call.
  apply (filled_bind (Forall2 (fills x))).
  - apply filled_delimited;
      [apply close_plain | apply comma_plain | exact pe_filled
       | apply paren_plain | apply paren_plain].
  - intros args args' rest _ Ha. apply filled_ret.
    now apply fills_call.
Qed.

Lemma filled_maybe_call (call call' : Parser (option Expr)) (input : Lexer) :
  filled_parser x call call' ->
  filled x (fills x) (maybe_call n pe call input)
    (maybe_call (n + 2) pe' call' (fill x input)).
Proof.
  intros Hc. unfold maybe_call.
  apply (filled_bind (fills x)); [apply Hc|].
  intros r r' input1 _ Hr. rewrite fill_is_punc.
  destruct (is_punc "(" input1); [|now apply filled_ret].
  apply filled_upcast. now apply filled_parse_call.
Qed.

Lemma filled_parse_if (input : Lexer) :
  filled x (fun e e' => fills x (Some e) (Some e'))
    (parse_if pe input) (parse_if pe' (fill x input)).
Proof.
  unfold parse_if.
  apply (filled_bind (@eq unit)); [apply filled_skip_kw|].
  intros u u' input1 _ _.
  apply (filled_bind (fills x)); [apply pe_filled|].
  intros c c' input2 _ Hc.
  apply (filled_bind (fills x)); [apply pe_filled|].
  intros t t' input3 _ Ht. rewrite fill_is_kw.
  destruct (is_kw "else" input3) eqn:Ee.
  - rewrite (fill_next input3 (kw_not_punc "else" "{" input3 Ee)).
    cbn [snd].
    apply (filled_bind (fills x)); [apply pe_filled|].
    intros f f' input4 _ Hf. apply filled_ret. now apply fills_if.
  - apply filled_ret. apply fills_if; [exact Hc | exact Ht | constructor].
Qed.

Lemma filled_parse_closure (input : Lexer) :
  filled x (fun e e' => fills x (Some e) (Some e'))
    (parse_closure n pp input) (parse_closure (n + 2) pp' (fill x input)).
Proof.
  unfold parse_closure. destruct closure_params_first.
  - apply (filled_bind (Forall2 eq)).
    + apply filled_delimited;
        [apply close_plain | apply comma_plain | apply filled_parse_varname
         | apply paren_plain | apply paren_plain].
    + intros ps ps' input1 _ Hps. apply Forall2_eq_same in Hps. subst ps'.
      apply (filled_bind (fills x)); [apply pp_filled|].
      intros b b' input2 _ Hb. apply filled_ret. now apply fills_closure.
  - apply (filled_bind (fills x)); [apply pp_filled|].
    intros b b' input1 _ Hb.
    apply (filled_bind (Forall2 eq)).
    + apply filled_delimited;
        [apply close_plain | apply comma_plain | apply filled_parse_varname
         | apply paren_plain | apply paren_plain].
    + intros ps ps' input2 _ Hps. apply Forall2_eq_same in Hps. subst ps'.
      apply filled_ret. now apply fills_closure.
Qed.

Lemma filled_parse_ext (input : Lexer) :
  filled x (fills x) (parse_ext n input) (parse_ext (n + 2) (fill x input)).
Proof.
  unfold parse_ext.
  apply (filled_bind (@eq unit)); [apply filled_skip_kw|].
  intros u u' input1 _ _.
  destruct input1 as [|f input2]; [apply filled_fail; discriminate|].
  cbn [next]. destruct (String.eqb (type f) "var") eqn:Ef;
    [|apply filled_fail; cbn [negb]; discriminate].
  rewrite (fill_cons f input2 (var_not_punc "{" f Ef)). cbn [next].
  rewrite Ef. cbn [negb].
  apply (filled_bind (Forall2 eq)).
  - apply filled_delimited;
      [apply close_plain | apply comma_plain | apply filled_parse_param
       | apply paren_plain | apply paren_plain].
  - intros ps ps' input3 _ Hps. apply Forall2_eq_same in Hps. subst ps'.
    apply filled_ret. constructor.
Qed.

Lemma filled_parse_func (input : Lexer) :
  is_kw "def" input = true ->
  filled x (fills x) (parse_func n pe input)
    (parse_func (n + 2) pe' (fill x input)).
Proof.
  intros Hd. rewrite (fill_unless_brace input (kw_not_punc "def" "{" input Hd)).
  destruct input as [|d input1]; [discriminate|].
  unfold parse_func. cbn [next snd].
  destruct input1 as [|tok input2].
  - cbn [next fill]. change (is_punc "(" []) with false. cbv iota.
    rewrite !bind_Ok; cbv beta iota.
    apply (filled_bind (fills x)); [apply (pe_filled [])|].
    intros b b' input4 _ Hb. apply filled_ret. now apply fills_function.
  - cbn [next].
    destruct (is_punc "{" [tok] && is_punc "}" input2)%bool eqn:Eb.
    + apply andb_prop in Eb. destruct Eb as [_ Eb].
      apply filled_fail. intros a H.
      destruct input2 as [|t input2]; [discriminate|].
      rewrite is_punc_head in Eb.
      assert (Hp : is_punc "(" (t :: input2) = false)
        by exact (proj2 (closer_stops t input2 Eb)).
      rewrite Hp in H. rewrite bind_Ok in H; cbv beta iota in H.
      apply bind_Ok_inv in H. destruct H as [[b input4] [H _]].
      exact (pe_starts t input2 _ Eb H).
    + assert (E : fill x (tok :: input2) = tok :: fill x input2).
      { apply andb_false_iff in Eb. destruct Eb as [Eb|Eb];
          [now apply fill_cons | now apply fill_before]. }
      rewrite E. cbn [next]. rewrite fill_is_punc.
      apply (filled_bind (Forall2 eq)).
      * destruct (is_punc "(" input2); [|apply filled_ret; constructor].
        apply filled_delimited;
          [apply close_plain | apply comma_plain | apply filled_parse_param
           | apply paren_plain | apply paren_plain].
      * intros ps ps' input3 _ Hps. apply Forall2_eq_same in Hps.
        subst ps'.
        apply (filled_bind (fills x)); [apply pe_filled|].
        intros b b' input4 _ Hb. apply filled_ret.
        now apply fills_function.
Qed.

End FilledRoutines.

Lemma parse_expr_starts (n : nat) (t : Token) (rest : Lexer)
    (a : option Expr * Lexer) :
  is_punc "}" [t] = true -> parse_expr n (t :: rest) <> Ok a.
Proof.
  intros Ht. destruct n as [|[|n]]; try discriminate.
  rewrite (parse_expr_unexpected n t rest
             (closer_starts_no_atom "}" t (or_intror eq_refl) Ht)).
  discriminate.
Qed.

Lemma filled_atom_lambda (n : nat) :
  filled_parser x (parse_expr n) (parse_expr (n + 2)) ->
  filled_parser x (parse_prog n) (parse_prog (n + 2)) ->
  filled_parser x (atom_lambda n) (atom_lambda (n + 2)).
Proof.
  intros He Hp input. unfold atom_lambda.
  rewrite !fill_is_kw, !fill_is_punc.
  destruct (is_kw "ext" input) eqn:Eext; [apply filled_parse_ext|].
  destruct (is_kw "def" input) eqn:Edef.
  { apply filled_parse_func; [exact He | apply parse_expr_starts | exact Edef]. }
  destruct (is_punc "(" input) eqn:Epar.
  { destruct input as [|t r]; [discriminate|]. rewrite is_punc_head in Epar.
    rewrite (fill_cons t r
               (punc_not_brace "(" t (proj1 paren_plain) (proj2 paren_plain)
                  Epar)).
    cbn [snd next].
    apply (filled_bind (fills x)); [apply He|].
    intros e e' input1 _ Hee.
    apply (filled_bind (@eq unit));
      [apply filled_skip_punc; apply close_plain|].
    intros u u' input2 _ _. now apply filled_ret. }
  destruct (is_punc "{" input) eqn:Ebr; [apply Hp|].
  destruct (is_kw "if" input) eqn:Eif.
  { apply filled_upcast. now apply filled_parse_if. }
  rewrite (fill_unless_brace input Ebr).
  destruct (is_kw "true" input || is_kw "false" input)%bool eqn:Ebool.
  { destruct input as [|t r]; [discriminate|].
    unfold upcast, parse_bool. cbn [next]. rewrite !bind_Ok.
    apply filled_ret. constructor. }
  destruct (is_kw "cls" input) eqn:Ecls.
  { destruct input as [|t r]; [discriminate|]. cbn [snd next].
    apply filled_upcast. now apply filled_parse_closure. }
  destruct input as [|t r].
  - cbn [next]. apply filled_fail. discriminate.
  - cbn [next].
    destruct (String.eqb (type t) "var"); [apply filled_ret; constructor|].
    destruct (String.eqb (type t) "num").
    { destruct (stoi (value t)) as [z| | |]; try (apply filled_fail; discriminate).
      rewrite !bind_Ok. apply filled_ret. constructor. }
    destruct (String.eqb (type t) "char"); [apply filled_ret; constructor|].
    destruct (String.eqb (type t) "str"); [apply filled_ret; constructor|].
    apply filled_fail. discriminate.
Qed.

Lemma filled_parse_prog (n : nat) :
  filled_parser x (parse_expr n) (parse_expr (n + 2)) ->
  filled_parser x (parse_prog (S n)) (parse_prog (S (n + 2))).
Proof.
  intros He input r rest H.
  rewrite parse_prog_S in H. apply bind_Ok_inv in H.
  destruct H as [[vars input1] [Hd H]].
  pose proof Hd as Hd0. unfold delimited in Hd0.
  apply bind_Ok_inv in Hd0. destruct Hd0 as [[u l] [Hs Hl]].
  apply skip_punc_Ok in Hs. destruct Hs as [a [-> Ha]].
  destruct (is_punc "}" l) eqn:El.
  - destruct l as [|b l']; [discriminate|]. rewrite is_punc_head in El.
    unfold delimited, skip_punc at 1 in Hd. rewrite is_punc_head, Ha in Hd.
    rewrite bind_Ok in Hd; cbv beta iota in Hd. cbn [snd next] in Hd.
    destruct n as [|n]; [discriminate|].
    rewrite delimited_loop_S in Hd. simpl eof in Hd. cbv iota in Hd.
    rewrite is_punc_head, El in Hd.
    rewrite bind_Ok in Hd; cbv beta iota in Hd. unfold skip_punc in Hd.
    rewrite is_punc_head, El in Hd. cbn [snd next] in Hd.
    rewrite bind_Ok in Hd. injection Hd as <- <-. injection H as <- <-.
    rewrite (fill_block a b l' Ha El).
    exists (Some (Program [Some (Identifier x)])). split; [|constructor].
    apply filled_block_read; [exact Ha | exact El | lia].
  - rewrite (fill_before a l El).
    assert (Ht : delimited_tail n "}" ";" (parse_expr n) true [] l
                 = Ok (vars, input1)).
    { unfold delimited, skip_punc at 1 in Hd. rewrite is_punc_head, Ha in Hd.
      rewrite bind_Ok in Hd; cbv beta iota in Hd. exact Hd. }
    assert (Hplain : forall c : ascii, c = "}"%char \/ c = ";"%char ->
                       c <> "{"%char /\ c <> zero)
      by (intros c [-> | ->]; split; discriminate).
    destruct (filled_delimited_tail (fills x) "}" ";"
                (Hplain _ (or_introl eq_refl)) (Hplain _ (or_intror eq_refl))
                (parse_expr n) (parse_expr (n + 2)) He n true [] [] l
                (Forall2_nil _) vars input1 Ht) as [vars' [Ht' Hv]].
    rewrite parse_prog_S.
    assert (Hd' : delimited (n + 2) "{" "}" ";" (parse_expr (n + 2))
                    (a :: fill x l) = Ok (vars', fill x input1)).
    { unfold delimited, skip_punc at 1. rewrite is_punc_head, Ha.
      rewrite bind_Ok; cbv beta iota. exact Ht'. }
    rewrite Hd'. rewrite bind_Ok; cbv beta iota.
    destruct Hv as [|v v' vs vs' Hv Hvs]; injection H as <- <-.
    + exists None. split; [reflexivity | constructor].
    + exists (Some (Program (v' :: vs'))). split; [reflexivity|].
      apply fills_program. now constructor.
Qed.

Lemma filled_maybe_binary (n : nat) :
  filled_parser x (parse_atom n) (parse_atom (n + 2)) ->
  (forall left left' prec input, fills x left left' ->
     filled x (fills x) (maybe_binary n left prec input)
       (maybe_binary (n + 2) left' prec (fill x input))) ->
  forall left left' prec input, fills x left left' ->
    filled x (fills x) (maybe_binary (S n) left prec input)
      (maybe_binary (S (n + 2)) left' prec (fill x input)).
Proof.
  intros Ha Hb left left' prec input Hl. rewrite !maybe_binary_S.
  rewrite fill_is_op, fill_peek.
  destruct (is_op EmptyString input) eqn:Eop; [|now apply filled_ret].
  destruct (map_at OP_PRECEDENCE (value (peek input))) as [tokprec| | |];
    try (apply filled_fail; discriminate).
  rewrite !bind_Ok. cbv beta zeta.
  destruct (tokprec >? prec)%Z; [|now apply filled_ret].
  rewrite (fill_next input (op_not_punc "{" input Eop)). cbn [snd].
  apply (filled_bind (fills x)); [apply Ha|].
  intros atom atom' input2 _ Hatom.
  apply (filled_bind (fills x)); [now apply Hb|].
  intros rhs rhs' input3 _ Hrhs.
  destruct (String.eqb (value (peek input)) "=");
    apply Hb; constructor; assumption.
Qed.

Lemma parser_filled (n : nat) :
  filled_parser x (parse_atom n) (parse_atom (n + 2))
  /\ filled_parser x (parse_expr n) (parse_expr (n + 2))
  /\ filled_parser x (parse_prog n) (parse_prog (n + 2))
  /\ (forall left left' prec input, fills x left left' ->
        filled x (fills x) (maybe_binary n left prec input)
          (maybe_binary (n + 2) left' prec (fill x input))).
Proof.
  induction n as [|n [Ha [He [Hp Hb]]]].
  - repeat apply conj;
      [intros input | intros input | intros input
       | intros left left' prec input _];
      apply filled_fail; discriminate.
  - change (S n + 2)%nat with (S (n + 2)). repeat apply conj.
    + intros input. rewrite !parse_atom_S.
      apply filled_maybe_call; [exact He|].
      now apply filled_atom_lambda.
    + intros input. rewrite !parse_expr_S.
      apply filled_maybe_call; [exact He|].
      intros input0. unfold expr_lambda.
      apply (filled_bind (fills x)); [apply Ha|].
      intros atom atom' input1 _ Hatom. now apply Hb.
    + now apply filled_parse_prog.
    + now apply filled_maybe_binary.
Qed.

Lemma toplevel_loop_filled (fuel : nat) :
  forall ast ast' input r,
    Forall2 (fills x) ast ast' ->
    toplevel_loop fuel ast input = Ok r ->
    exists r', toplevel_loop (fuel + 2) ast' (fill x input) = Ok r'
               /\ Forall2 (fills x) r r'.
Proof.
  induction fuel as [|n IH]; intros ast ast' input r Hast H;
    [discriminate|].
  change (S n + 2)%nat with (S (n + 2)).
  cbn [toplevel_loop] in H |- *. rewrite fill_eof.
  destruct (eof input); [injection H as <-; now exists ast'|].
  apply bind_Ok_inv in H. destruct H as [[e input1] [He H]].
  destruct (parser_filled (S n)) as [_ [Hpe _]].
  destruct (Hpe input e input1 He) as [e' [He' Hee]].
  change (S n + 2)%nat with (S (n + 2)) in He'. rewrite He'.
  rewrite bind_Ok; cbv beta iota.
  apply bind_Ok_inv in H. destruct H as [[u input2] [Hs H]].
  rewrite fill_eof.
  assert (Hall : Forall2 (fills x) (ast ++ [e]) (ast' ++ [e']))
    by (apply Forall2_app; [exact Hast | now constructor]).
  destruct (IH (ast ++ [e]) (ast' ++ [e']) input2 r Hall H)
    as [r' [Hr' Hrr]].
  exists r'. split; [|exact Hrr].
  destruct (negb (eof input1)).
  - destruct (filled_skip_punc ";" input1 ltac:(discriminate)
                ltac:(discriminate) u input2 Hs) as [[] [E _]].
    rewrite E. rewrite bind_Ok; cbv beta iota. exact Hr'.
  - injection Hs as _ <-. rewrite bind_Ok; cbv beta iota. exact Hr'.
Qed.

Lemma has_empty_block_cons (a : Token) (l : Lexer) :
  has_empty_block (a :: l)
  = ((is_punc "{" [a] && is_punc "}" l) || has_empty_block l)%bool.
Proof.
  destruct l as [|b r]; [now rewrite andb_false_r|].
  now rewrite (is_punc_head "}" b r).
Qed.

Lemma fill_no_empty_block (input : Lexer) :
  has_empty_block (fill x input) = false.
Proof.
  assert (H : forall m input, (length input <= m)%nat ->
                has_empty_block (fill x input) = false).
  { clear input. induction m as [|m IH]; intros input Hm.
    - destruct input; [reflexivity | simpl in Hm; lia].
    - destruct input as [|a l]; [reflexivity|]. simpl in Hm.
      destruct (is_punc "{" [a] && is_punc "}" l)%bool eqn:E.
      + apply andb_prop in E. destruct E as [Ea Eb].
        destruct l as [|b r]; [discriminate|]. rewrite is_punc_head in Eb.
        simpl in Hm. rewrite (fill_block a b r Ea Eb).
        rewrite !has_empty_block_cons. rewrite (closer_not_opener b Eb).
        change (is_punc "}" (var x :: b :: fill x r)) with false.
        change (is_punc "{" [var x]) with false.
        rewrite andb_false_r. cbn [andb orb]. apply IH. lia.
      + assert (Ef : fill x (a :: l) = a :: fill x l).
        { apply andb_false_iff in E. destruct E as [E|E];
            [now apply fill_cons | now apply fill_before]. }
        rewrite Ef, has_empty_block_cons, fill_is_punc, E. cbn [orb].
        apply IH. lia. }
  exact (H (length input) input (Nat.le_refl _)).
Qed.

End Filled.

(** ** Null pointers *)

Lemma is_punc_type (ch : ascii) (t : Token) :
  is_punc ch [t] = true -> type t = "punc".
Proof.
  rewrite is_punc_cons. intros H. apply andb_prop in H.
  destruct H as [H _]. now apply String.eqb_eq.
Qed.

Lemma skip_kw_Ok (k : string) (input : Lexer) (u : unit) (rest : Lexer) :
  skip_kw k input = Ok (u, rest) ->
  exists tok, input = tok :: rest /\ is_kw k [tok] = true.
Proof.
  unfold skip_kw. destruct (is_kw k input) eqn:E; [|discriminate].
  destruct input as [|tok input]; [discriminate|].
  intros H. injection H as _ <-. exists tok. split; [reflexivity|].
  now rewrite is_kw_head in E.
Qed.

Lemma empty_group_last (g : list Token) :
  empty_group g ->
  exists g' t,
    g = g' ++ [t] /\ (is_punc "}" [t] = true \/ is_punc ")" [t] = true).
Proof.
  destruct 1 as [lb rb Hl Hr | lp g rp Hl Hg Hr].
  - exists [lb], rb. split; [reflexivity | now left].
  - exists (lp :: g), rp. split; [reflexivity | now right].
Qed.

Lemma empty_group_has_block (g : list Token) :
  empty_group g -> forall a b, has_empty_block (a ++ g ++ b) = true.
Proof.
  induction 1 as [lb rb Hl Hr | lp g rp Hl Hg IH Hr]; intros a b.
  - simpl. induction a as [|x a IHa]; simpl.
    + now rewrite Hl, Hr.
    + destruct (a ++ lb :: rb :: b) eqn:E; [destruct a; discriminate|].
      rewrite IHa. apply orb_true_r.
  - specialize (IH (a ++ [lp]) ([rp] ++ b)).
    rewrite <- !app_assoc in IH. simpl in IH |- *.
    now rewrite <- app_assoc.
Qed.

Lemma misplaced_has_block (input : list Token) :
  misplaced input -> has_empty_block input = true.
Proof.
  intros [a [g [b [-> [Hg _]]]]]. now apply empty_group_has_block.
Qed.

Lemma close_then_open_at (a : list Token) (t u : Token) (b : list Token) :
  is_punc "}" [t] = true \/ is_punc ")" [t] = true ->
  is_punc "(" [u] = true ->
  close_then_open (a ++ t :: u :: b) = true.
Proof.
  intros Ht Hu. induction a as [|x a IH]; simpl.
  - rewrite Hu. destruct Ht as [-> | ->]; simpl;
      rewrite ?orb_true_r; reflexivity.
  - destruct (a ++ t :: u :: b) eqn:E; [destruct a; discriminate|].
    rewrite IH. apply orb_true_r.
Qed.

Lemma misplaced_suspect (input : list Token) :
  misplaced input -> suspect input = true.
Proof.
  intros [a [g [b [-> [Hg Hc]]]]]. unfold suspect. apply orb_true_iff.
  destruct Hc as [Hop | [Hpu | [[a' [t [-> Ht]]]
                              | [a' [t [sc [n [c [-> [Ht _]]]]]]]]]].
  - left. destruct b as [|u b]; [discriminate|]. rewrite is_op_head in Hop.
    rewrite !existsb_app. simpl. rewrite Hop. simpl.
    now rewrite !orb_true_r.
  - right. destruct b as [|u b]; [discriminate|].
    rewrite is_punc_head in Hpu.
    destruct (empty_group_last g Hg) as [g' [v [-> Hv]]].
    rewrite <- !app_assoc. simpl. rewrite app_assoc.
    now apply close_then_open_at.
  - left. rewrite !existsb_app. simpl.
    destruct Ht as [-> | ->]; simpl; rewrite ?orb_true_r; reflexivity.
  - left. rewrite !existsb_app. simpl. rewrite Ht. simpl.
    now rewrite !orb_true_r.
Qed.

Lemma res_opt_ok (whole pre : list Token) (x : option Expr) :
  res_ok whole pre x -> opt_ok whole x.
Proof. destruct x; [trivial | intros _; exact I]. Qed.

Lemma opt_ok_list (whole : list Token) (l : list (option Expr)) :
  Forall (opt_ok whole) l ->
  forallb (fun o => match o with
                    | Some x => fully_formed x
                    | None => true
                    end) l = true
  \/ misplaced whole.
Proof.
  induction 1 as [|o l Ho _ IH]; [now left|].
  destruct IH as [IH|IH]; [|now right].
  destruct o as [e|]; simpl.
  - destruct Ho as [Ho|Ho]; [|now right]. left.
    unfold formed in Ho. now rewrite Ho, IH.
  - left. exact IH.
Qed.

Lemma reads_skip_punc (whole : list Token) (ch : ascii) :
  reads_in whole (fun _ => True) (skip_punc ch).
Proof.
  intros a0 input x rest _ H. apply skip_punc_Ok in H.
  destruct H as [tok [-> _]]. now exists [tok].
Qed.

Lemma reads_parse_varname (whole : list Token) :
  reads_in whole (fun _ => True) parse_varname.
Proof.
  intros a0 input x rest _ H. unfold parse_varname in H.
  destruct input as [|t input]; simpl in H; [discriminate|].
  destruct (negb (String.eqb (type t) "var")); [discriminate|].
  injection H as _ <-. now exists [t].
Qed.

Lemma reads_parse_param (whole : list Token) :
  reads_in whole (fun _ => True) parse_param.
Proof.
  intros a0 input x rest _ H. unfold parse_param in H.
  destruct input as [|t input]; simpl in H; [discriminate|].
  destruct (negb (String.eqb (type t) "var")); [discriminate|].
  destruct (String.eqb (type (peek input)) "var").
  - destruct input as [|u input]; simpl in H; [discriminate|].
    destruct (negb (String.eqb (type u) "var")); [discriminate|].
    injection H as _ <-. now exists [t; u].
  - injection H as _ <-. now exists [t].
Qed.

Lemma next_prefix (input : Lexer) :
  exists pre, input = pre ++ snd (next input).
Proof.
  destruct input as [|t input]; [now exists [] | now exists [t]].
Qed.

Section ReadsDelimited.

Context {T : Type}.
Variable whole : list Token.
Variable Q : T -> Prop.
Variable parser : Parser T.
Hypothesis parser_reads : reads_in whole Q parser.

Lemma delimited_loop_reads (fuel : nat) (end_ separator : ascii) :
  forall first items input items' rest a0,
    whole = a0 ++ input -> Forall Q items ->
    delimited_loop fuel end_ separator parser first items input
    = Ok (items', rest) ->
    exists pre, input = pre ++ rest /\ Forall Q items'.
Proof.
  induction fuel as [|fuel IH];
    intros first items input items' rest a0 E Hq H; [discriminate|].
  rewrite delimited_loop_S in H.
  destruct (eof input); [injection H as <- <-; now exists []|].
  destruct (is_punc end_ input); [injection H as <- <-; now exists []|].
  apply bind_Ok_inv in H. destruct H as [[u input1] [Hs H]].
  assert (S1 : exists pre1, input = pre1 ++ input1).
  { destruct first.
    - injection Hs as _ <-. now exists [].
    - destruct (reads_skip_punc whole separator a0 _ _ _ E Hs) as [p [Ep _]].
      now exists p. }
  destruct S1 as [pre1 ->].
  destruct (is_punc end_ input1); [injection H as <- <-; now exists pre1|].
  apply bind_Ok_inv in H. destruct H as [[item input2] [Hp H]].
  destruct (parser_reads (a0 ++ pre1) input1 item input2
              (eq_trans E (app_assoc _ _ _)) Hp) as [pre2 [-> Qi]].
  destruct (IH false (items ++ [item]) input2 items' rest
              (a0 ++ pre1 ++ pre2)) as [pre3 [-> Qr]].
  - rewrite E. now rewrite <- !app_assoc.
  - apply Forall_app. split; [exact Hq | now constructor].
  - exact H.
  - exists (pre1 ++ pre2 ++ pre3). split; [|exact Qr].
    now rewrite <- !app_assoc.
Qed.

Lemma delimited_reads (fuel : nat) (start end_ separator : ascii) :
  reads_in whole (Forall Q) (delimited fuel start end_ separator parser).
Proof.
  intros a0 input items rest E H. unfold delimited in H.
  apply bind_Ok_inv in H. destruct H as [[u input1] [Hs H]].
  apply bind_Ok_inv in H. destruct H as [[items' input2] [Hl H]].
  apply bind_Ok_inv in H. destruct H as [[u' input3] [He H]].
  injection H as <- <-.
  apply skip_punc_Ok in Hs. destruct Hs as [t0 [-> _]].
  apply skip_punc_Ok in He. destruct He as [t1 [-> _]].
  destruct (delimited_loop_reads fuel end_ separator true [] input1 items'
              (t1 :: input3) (a0 ++ [t0])) as [pre [-> Qi]].
  - rewrite E. now rewrite <- app_assoc.
  - constructor.
  - exact Hl.
  - exists (t0 :: pre ++ [t1]). split; [|exact Qi].
    simpl. now rewrite <- app_assoc.
Qed.

End ReadsDelimited.

Lemma delimited_empty {T : Type} (parser : Parser T) (fuel : nat)
    (start end_ separator : ascii) (input rest : Lexer) :
  delimited fuel start end_ separator parser input = Ok ([], rest) ->
  exists lb rb,
    input = lb :: rb :: rest
    /\ is_punc start [lb] = true /\ is_punc end_ [rb] = true.
Proof.
  intros H. unfold delimited in H.
  apply bind_Ok_inv in H. destruct H as [[u input1] [Hs H]].
  apply bind_Ok_inv in H. destruct H as [[items input2] [Hl H]].
  apply bind_Ok_inv in H. destruct H as [[u' input3] [He H]].
  injection H as -> <-.
  apply skip_punc_Ok in Hs. destruct Hs as [lb [-> Hlb]].
  apply skip_punc_Ok in He. destruct He as [rb [-> Hrb]].
  exists lb, rb. repeat split; trivial. f_equal.
  destruct fuel as [|fuel]; [discriminate|].
  rewrite delimited_loop_S in Hl.
  destruct (eof input1) eqn:Ee; [now injection Hl as <-|].
  destruct (is_punc end_ input1) eqn:Ep; [now injection Hl as <-|].
  rewrite bind_Ok in Hl; cbv beta iota in Hl. rewrite Ep in Hl.
  apply bind_Ok_inv in Hl. destruct Hl as [[item input4] [_ Hl]].
  apply delimited_loop_extends in Hl. destruct Hl as [more Hm].
  destruct more; discriminate.
Qed.

Lemma formed_call (whole : list Token) (f : Expr)
    (args : list (option Expr)) :
  formed f \/ misplaced whole -> Forall (opt_ok whole) args ->
  formed (Call (Some f) args) \/ misplaced whole.
Proof.
  intros [Hf|Hf] Ha; [|now right].
  destruct (opt_ok_list whole args Ha) as [Hl|Hl]; [|now right].
  left. unfold formed in *. simpl. now rewrite Hf, Hl.
Qed.

Section PlacedRoutines.

Variable whole : list Token.
Variable n : nat.
Hypothesis pe_placed : placed whole (parse_expr n).
Hypothesis pp_placed : placed whole (parse_prog n).

Lemma pe_reads : reads_in whole (opt_ok whole) (parse_expr n).
Proof.
  intros a0 input x rest E H.
  destruct (pe_placed a0 input x rest E H) as [pre [-> R]].
  exists pre. split; [reflexivity | exact (res_opt_ok _ _ _ R)].
Qed.

Lemma maybe_call_placed (call : Parser (option Expr)) :
  placed whole call -> placed whole (maybe_call n (parse_expr n) call).
Proof.
  intros Hc a0 input x rest E H. unfold maybe_call in H.
  apply bind_Ok_inv in H. destruct H as [[result input1] [Hr H]].
  destruct (Hc a0 input result input1 E Hr) as [pre [-> R]].
  destruct (is_punc "(" input1) eqn:Ep.
  - unfold upcast, parse_call in H.
    apply bind_Ok_inv in H. destruct H as [[e input2] [H H']].
    injection H' as <- <-.
    apply bind_Ok_inv in H. destruct H as [[args input3] [Ha H]].
    injection H as <- <-.
    destruct (delimited_reads whole (opt_ok whole) (parse_expr n) pe_reads
                n "(" ")" "," (a0 ++ pre) input1 args input3
                (eq_trans E (app_assoc _ _ _)) Ha) as [pre2 [-> Qa]].
    exists (pre ++ pre2). split; [now rewrite <- app_assoc|].
    destruct result as [f|]; simpl in R |- *.
    + now apply formed_call.
    + right. exists a0, pre, (pre2 ++ input3). repeat split; trivial.
      right; left. exact Ep.
  - injection H as <- <-. exists pre. split; [reflexivity | exact R].
Qed.

Lemma parse_if_reads :
  reads_in whole (fun e => formed e \/ misplaced whole)
    (parse_if (parse_expr n)).
Proof.
  intros a0 input x rest E H. unfold parse_if in H.
  apply bind_Ok_inv in H. destruct H as [[u input1] [Hk H]].
  apply bind_Ok_inv in H. destruct H as [[cond input2] [Hc H]].
  apply bind_Ok_inv in H. destruct H as [[then_ input3] [Ht H]].
  apply skip_kw_Ok in Hk. destruct Hk as [t [-> Hkw]].
  destruct (pe_placed (a0 ++ [t]) input1 cond input2
              ltac:(rewrite E; flatten_app; reflexivity) Hc)
    as [prec [-> Rc]].
  destruct (pe_placed (a0 ++ t :: prec) input2 then_ input3
              ltac:(rewrite E; flatten_app; reflexivity) Ht)
    as [pret [-> Rt]].
  assert (Hcond : present cond = true \/ misplaced whole).
  { destruct cond as [c|]; simpl in Rc |- *; [exact Rc|].
    right. exists (a0 ++ [t]), prec, (pret ++ input3).
    split; [rewrite E; flatten_app; reflexivity|].
    split; [exact Rc|]. right; right; left.
    exists a0, t. split; [reflexivity | now right]. }
  assert (Hthen : present then_ = true \/ misplaced whole).
  { destruct then_ as [c|]; simpl in Rt |- *; [exact Rt|].
    right. exists (a0 ++ t :: prec), pret, input3.
    split; [rewrite E; flatten_app; reflexivity|].
    split; [exact Rt|]. right; right; right.
    exists a0, t, prec, n, cond. repeat split; trivial. }
  assert (Hels : exists els pre3,
             x = If cond then_ els /\ input3 = pre3 ++ rest
             /\ opt_ok whole els).
  { destruct (is_kw "else" input3) eqn:Eel.
    - destruct input3 as [|te input3]; [discriminate|]. cbn [snd next] in H.
      apply bind_Ok_inv in H. destruct H as [[els input4] [He H]].
      injection H as <- <-.
      destruct (pe_placed (a0 ++ t :: prec ++ pret ++ [te]) _ els input4
                  ltac:(rewrite E; flatten_app; reflexivity) He)
        as [pree [-> Re]].
      exists els, (te :: pree). repeat split.
      exact (res_opt_ok _ _ _ Re).
    - injection H as <- <-. exists None, []. repeat split. }
  destruct Hels as [els [pre3 [-> [-> Re]]]].
  exists (t :: prec ++ pret ++ pre3).
  split; [flatten_app; reflexivity|].
  destruct Hcond as [Hcond|M]; [|now right].
  destruct Hthen as [Hthen|M]; [|now right].
  destruct els as [e|]; simpl in Re.
  - destruct Re as [Re|Re]; [|now right]. left.
    unfold formed in *. simpl. fold (present cond). fold (present then_).
    now rewrite Hcond, Hthen, Re.
  - left. unfold formed. simpl. fold (present cond).
    fold (present then_). now rewrite Hcond, Hthen.
Qed.

Lemma formed_optional (e : Expr) (body : option Expr) :
  fully_formed e
  = match body with Some x => fully_formed x | None => true end ->
  opt_ok whole body -> formed e \/ misplaced whole.
Proof.
  intros He Hb. destruct body as [x|]; simpl in Hb.
  - destruct Hb as [Hb|Hb]; [|now right]. left. unfold formed in *.
    now rewrite He.
  - left. exact He.
Qed.

Lemma parse_closure_reads :
  reads_in whole (fun e => formed e \/ misplaced whole)
    (parse_closure n (parse_prog n)).
Proof.
  intros a0 input x rest E H. unfold parse_closure in H.
  destruct closure_params_first.
  - apply bind_Ok_inv in H. destruct H as [[params input1] [Hd H]].
    apply bind_Ok_inv in H. destruct H as [[body input2] [Hb H]].
    injection H as <- <-.
    destruct (delimited_reads whole (fun _ => True) parse_varname
                (reads_parse_varname whole) n "(" ")" "," a0 input params
                input1 E Hd) as [pre1 [-> _]].
    destruct (pp_placed (a0 ++ pre1) input1 body input2
                (eq_trans E (app_assoc _ _ _)) Hb) as [pre2 [-> R]].
    exists (pre1 ++ pre2). split; [now rewrite <- app_assoc|].
    apply (formed_optional _ body); [reflexivity|].
    exact (res_opt_ok _ _ _ R).
  - apply bind_Ok_inv in H. destruct H as [[body input1] [Hb H]].
    apply bind_Ok_inv in H. destruct H as [[params input2] [Hd H]].
    injection H as <- <-.
    destruct (pp_placed a0 input body input1 E Hb) as [pre1 [-> R]].
    destruct (delimited_reads whole (fun _ => True) parse_varname
                (reads_parse_varname whole) n "(" ")" "," (a0 ++ pre1)
                input1 params input2 (eq_trans E (app_assoc _ _ _)) Hd)
      as [pre2 [-> _]].
    exists (pre1 ++ pre2). split; [now rewrite <- app_assoc|].
    apply (formed_optional _ body); [reflexivity|].
    exact (res_opt_ok _ _ _ R).
Qed.

Lemma parse_ext_placed : placed whole (parse_ext n).
Proof.
  intros a0 input x rest E H. unfold parse_ext in H.
  apply bind_Ok_inv in H. destruct H as [[u input1] [Hk H]].
  apply skip_kw_Ok in Hk. destruct Hk as [t [-> _]].
  destruct input1 as [|f input2]; [discriminate|]. cbn [next] in H.
  cbv beta iota in H.
  destruct (negb (String.eqb (type f) "var")); [discriminate|].
  apply bind_Ok_inv in H. destruct H as [[params input3] [Hd H]].
  injection H as <- <-.
  destruct (delimited_reads whole (fun _ => True) parse_param
              (reads_parse_param whole) n "(" ")" "," (a0 ++ [t; f])
              input2 params input3
              ltac:(rewrite E; flatten_app; reflexivity) Hd)
    as [pre [-> _]].
  exists (t :: f :: pre). split; [reflexivity|]. now left.
Qed.

Lemma parse_func_placed : placed whole (parse_func n (parse_expr n)).
Proof.
  intros a0 input x rest E H. unfold parse_func in H. cbv zeta in H.
  destruct (next (snd (next input))) as [tok input2] eqn:En.
  assert (Ep : exists p, input = p ++ input2).
  { destruct input as [|a [|b input]]; simpl in En; injection En as _ <-;
      [now exists [] | now exists [a] | now exists [a; b]]. }
  destruct Ep as [p ->].
  apply bind_Ok_inv in H. destruct H as [[params input3] [Hd H]].
  apply bind_Ok_inv in H. destruct H as [[body input4] [Hb H]].
  injection H as <- <-.
  assert (S1 : exists pre1, input2 = pre1 ++ input3).
  { destruct (is_punc "(" input2).
    - destruct (delimited_reads whole (fun _ => True) parse_param
                  (reads_parse_param whole) n "(" ")" "," (a0 ++ p)
                  input2 params input3 (eq_trans E (app_assoc _ _ _)) Hd)
        as [pre1 [-> _]].
      now exists pre1.
    - injection Hd as _ <-. now exists []. }
  destruct S1 as [pre1 ->].
  destruct (pe_placed (a0 ++ p ++ pre1) input3 body input4
              ltac:(rewrite E; flatten_app; reflexivity) Hb)
    as [pre2 [-> R]].
  exists (p ++ pre1 ++ pre2). split; [flatten_app; reflexivity|].
  apply (formed_optional _ body); [reflexivity|].
  exact (res_opt_ok _ _ _ R).
Qed.

Lemma upcast_placed (p : Parser Expr) :
  reads_in whole (fun e => formed e \/ misplaced whole) p ->
  placed whole (upcast p).
Proof.
  intros Hp a0 input x rest E H. unfold upcast in H.
  apply bind_Ok_inv in H. destruct H as [[e input1] [He H]].
  injection H as <- <-. exact (Hp a0 input e input1 E He).
Qed.

Lemma atom_lambda_placed : placed whole (atom_lambda n).
Proof.
  intros a0 input x rest E H. unfold atom_lambda in H.
  destruct (is_kw "ext" input); [exact (parse_ext_placed _ _ _ _ E H)|].
  destruct (is_kw "def" input); [exact (parse_func_placed _ _ _ _ E H)|].
  destruct (is_punc "(" input) eqn:Ep.
  { destruct input as [|lp input1]; [discriminate|]. cbn [snd next] in H.
    rewrite is_punc_head in Ep.
    apply bind_Ok_inv in H. destruct H as [[expr input2] [He H]].
    apply bind_Ok_inv in H. destruct H as [[u input3] [Hs H]].
    injection H as <- <-.
    apply skip_punc_Ok in Hs. destruct Hs as [rp [-> Hrp]].
    destruct (pe_placed (a0 ++ [lp]) input1 expr (rp :: input3)
                ltac:(rewrite E; flatten_app; reflexivity) He)
      as [pre [-> R]].
    exists (lp :: pre ++ [rp]). split; [flatten_app; reflexivity|].
    destruct expr as [e|]; simpl in R |- *; [exact R|].
    now apply empty_paren. }
  destruct (is_punc "{" input); [exact (pp_placed _ _ _ _ E H)|].
  destruct (is_kw "if" input);
    [exact (upcast_placed _ parse_if_reads _ _ _ _ E H)|].
  destruct (is_kw "true" input || is_kw "false" input)%bool.
  { unfold upcast, parse_bool in H.
    destruct (next_prefix input) as [p Ep'].
    destruct (next input) as [tok input1]. simpl in H, Ep'.
    injection H as <- <-. exists p. split; [exact Ep' | now left]. }
  destruct (is_kw "cls" input).
  { destruct (next_prefix input) as [p Ep'].
    assert (Hx : exists e, x = Some e).
    { unfold upcast in H. apply bind_Ok_inv in H.
      destruct H as [[e i] [_ H]]. injection H as <- _. now exists e. }
    destruct Hx as [e ->].
    destruct (upcast_placed _ parse_closure_reads (a0 ++ p) _ _ _
                ltac:(rewrite E; rewrite Ep' at 1; apply app_assoc) H)
      as [pre [Epre R]].
    exists (p ++ pre). split; [|exact R].
    rewrite Ep' at 1. rewrite Epre. apply app_assoc. }
  destruct (next_prefix input) as [p Ep'].
  destruct (next input) as [tok input1]. simpl in Ep'.
  destruct (String.eqb (type tok) "var");
    [injection H as <- <-; exists p; split; [exact Ep' | now left]|].
  destruct (String.eqb (type tok) "num").
  { destruct (stoi (value tok)); try discriminate.
    simpl in H. injection H as <- <-.
    exists p. split; [exact Ep' | now left]. }
  destruct (String.eqb (type tok) "char");
    [injection H as <- <-; exists p; split; [exact Ep' | now left]|].
  destruct (String.eqb (type tok) "str");
    [injection H as <- <-; exists p; split; [exact Ep' | now left]|].
  discriminate.
Qed.

End PlacedRoutines.

Section PlacedParser.

Variable whole : list Token.

Lemma parse_prog_placed_step (n : nat) :
  placed whole (parse_expr n) -> placed whole (parse_prog (S n)).
Proof.
  intros He a0 input x rest E H. rewrite parse_prog_S in H.
  apply bind_Ok_inv in H. destruct H as [[vars input1] [Hd H]].
  destruct (delimited_reads whole (opt_ok whole) (parse_expr n)
              (pe_reads whole n He) n "{" "}" ";" a0 input vars input1 E Hd)
    as [pre [Epre Qv]].
  destruct vars as [|v vars]; injection H as <- <-.
  - apply delimited_empty in Hd. destruct Hd as [lb [rb [Ei [Hl Hr]]]].
    exists [lb; rb]. split; [exact Ei|]. now constructor.
  - exists pre. split; [exact Epre|].
    destruct (opt_ok_list whole _ Qv) as [Hl|M]; [left | now right].
    exact Hl.
Qed.

Lemma expr_lambda_placed (n : nat) :
  placed whole (parse_atom n) -> climb_placed whole n ->
  placed whole (expr_lambda n).
Proof.
  intros Ha Hc a0 input x rest E H. unfold expr_lambda in H.
  apply bind_Ok_inv in H. destruct H as [[atom input1] [Hat H]].
  destruct (Ha a0 input atom input1 E Hat) as [prea [-> Ra]].
  assert (Hl : left_ok whole (a0 ++ prea) atom).
  { destruct atom; simpl in *; [exact Ra|].
    exists a0, prea. now split. }
  destruct (Hc (a0 ++ prea) input1 atom 0 x rest
              (eq_trans E (app_assoc _ _ _)) Hl H) as [preb [-> R]].
  exists (prea ++ preb). split; [now rewrite <- app_assoc|].
  destruct R as [[-> ->] | [e [-> He]]];
    [rewrite app_nil_r; exact Ra | exact He].
Qed.

Lemma maybe_binary_placed_step (n : nat) :
  placed whole (parse_atom n) -> climb_placed whole n ->
  climb_placed whole (S n).
Proof.
  intros Ha Hc a0 input left prec x rest E Hl H.
  rewrite maybe_binary_S in H.
  destruct (is_op EmptyString input) eqn:Eop;
    [|injection H as <- <-; exists []; split; [reflexivity | now left]].
  destruct (map_at OP_PRECEDENCE (value (peek input))) as [tokprec| | |];
    try discriminate.
  rewrite bind_Ok in H; cbv beta zeta in H.
  destruct (tokprec >? prec);
    [|injection H as <- <-; exists []; split; [reflexivity | now left]].
  destruct input as [|tok input1]; [discriminate|].
  cbn [snd next peek] in H. rewrite is_op_head in Eop.
  apply bind_Ok_inv in H. destruct H as [[atom input2] [Hat H]].
  apply bind_Ok_inv in H. destruct H as [[rhs input3] [Hr H]].
  destruct (Ha (a0 ++ [tok]) input1 atom input2
              ltac:(rewrite E; flatten_app; reflexivity) Hat)
    as [prea [-> Ra]].
  assert (Ratom : left_ok whole (a0 ++ tok :: prea) atom).
  { destruct atom; simpl in *; [exact Ra|].
    exists (a0 ++ [tok]), prea. split; [flatten_app; reflexivity|exact Ra]. }
  destruct (Hc (a0 ++ tok :: prea) input2 atom tokprec rhs input3
              ltac:(rewrite E; flatten_app; reflexivity) Ratom Hr)
    as [prer [-> Rr]].
  assert (Hleft : good left \/ misplaced whole).
  { destruct left as [l|]; simpl in Hl; [exact Hl|].
    destruct Hl as [a' [g [-> Hg]]]. right.
    exists a', g, (tok :: prea ++ prer ++ input3).
    split; [rewrite E; flatten_app; reflexivity|].
    split; [exact Hg|]. left. now rewrite is_op_head. }
  assert (Hrhs : good rhs \/ misplaced whole).
  { destruct atom as [fa|]; simpl in Ra.
    - destruct Rr as [[_ ->] | [e [-> He]]]; [exact Ra | exact He].
    - right. exists (a0 ++ [tok]), prea, (prer ++ input3).
      split; [rewrite E; flatten_app; reflexivity|].
      split; [exact Ra|]. right; right; left.
      exists a0, tok. split; [reflexivity | now left]. }
  assert (Hnode : formed (node (value tok) left rhs) \/ misplaced whole).
  { destruct Hleft as [Hleft|M]; [|now right].
    destruct Hrhs as [Hrhs|M]; [|now right].
    left. now apply formed_node. }
  assert (H' : maybe_binary n (Some (node (value tok) left rhs)) prec input3
               = Ok (x, rest)).
  { unfold node. destruct (String.eqb (value tok) "="); exact H. }
  destruct (Hc (a0 ++ tok :: prea ++ prer) input3
              (Some (node (value tok) left rhs)) prec x rest
              ltac:(rewrite E; flatten_app; reflexivity) Hnode H')
    as [pre3 [-> R3]].
  exists (tok :: prea ++ prer ++ pre3).
  split; [flatten_app; reflexivity|]. right.
  destruct R3 as [[_ ->] | [e [-> He]]];
    [exists (node (value tok) left rhs); split; [reflexivity | exact Hnode]
    |exists e; split; [reflexivity | exact He]].
Qed.

Lemma parser_placed (n : nat) :
  placed whole (parse_atom n) /\ placed whole (parse_expr n)
  /\ placed whole (parse_prog n) /\ climb_placed whole n.
Proof.
  induction n as [|n [Ha [He [Hp Hc]]]].
  - repeat apply conj.
    + intros a0 input x rest _ H; discriminate H.
    + intros a0 input x rest _ H; discriminate H.
    + intros a0 input x rest _ H; discriminate H.
    + intros a0 input left prec x rest _ _ H; discriminate H.
  - repeat apply conj.
    + rewrite parse_atom_S. apply maybe_call_placed; [exact He|].
      now apply atom_lambda_placed.
    + rewrite parse_expr_S. apply maybe_call_placed; [exact He|].
      now apply expr_lambda_placed.
    + now apply parse_prog_placed_step.
    + now apply maybe_binary_placed_step.
Qed.

Lemma toplevel_loop_placed (fuel : nat) :
  forall ast input result a0,
    whole = a0 ++ input -> Forall (opt_ok whole) ast ->
    toplevel_loop fuel ast input = Ok result ->
    Forall (opt_ok whole) result.
Proof.
  induction fuel as [|n IH]; intros ast input result a0 E Hq H;
    [discriminate|].
  rewrite toplevel_loop_S in H.
  destruct (eof input); [now injection H as <-|].
  apply bind_Ok_inv in H. destruct H as [[e input1] [He H]].
  apply bind_Ok_inv in H. destruct H as [[u input2] [Hs H]].
  destruct (parser_placed (S n)) as [_ [Hp _]].
  destruct (Hp a0 input e input1 E He) as [pre [-> R]].
  assert (S2 : exists pre2, input1 = pre2 ++ input2).
  { destruct (negb (eof input1)).
    - apply skip_punc_Ok in Hs. destruct Hs as [tok [-> _]]. now exists [tok].
    - injection Hs as _ <-. now exists []. }
  destruct S2 as [pre2 ->].
  apply (IH _ _ _ (a0 ++ pre ++ pre2)
           ltac:(rewrite E; flatten_app; reflexivity)) in H; [exact H|].
  apply Forall_app. split; [exact Hq|].
  constructor; [exact (res_opt_ok _ _ _ R) | constructor].
Qed.

End PlacedParser.

Lemma null_for_empty_group (n : nat) (input rest : Lexer) :
  (parse_atom n input = Ok (None, rest)
   \/ parse_expr n input = Ok (None, rest)
   \/ parse_prog n input = Ok (None, rest)) ->
  exists g, empty_group g /\ input = g ++ rest.
Proof.
  destruct (parser_placed input n) as [Ha [He [Hp _]]].
  intros [H|[H|H]].
  - destruct (Ha [] input None rest eq_refl H) as [g [E R]]. now exists g.
  - destruct (He [] input None rest eq_refl H) as [g [E R]]. now exists g.
  - destruct (Hp [] input None rest eq_refl H) as [g [E R]]. now exists g.
Qed.

Lemma block_atom : parses_atom 3 [punc "{"; punc "}"] None.
Proof.
  intros n rest Hn Hp. destruct n as [|[|[|n]]]; try lia.
  apply atom_of_lambda; [|exact Hp]. unfold atom_lambda.
  change ([punc "{"; punc "}"] ++ rest) with (punc "{" :: punc "}" :: rest).
  change (is_kw "ext" (punc "{" :: punc "}" :: rest)) with false.
  change (is_kw "def" (punc "{" :: punc "}" :: rest)) with false.
  change (is_punc "(" (punc "{" :: punc "}" :: rest)) with false.
  change (is_punc "{" (punc "{" :: punc "}" :: rest)) with true.
  cbv iota. rewrite parse_prog_S. unfold delimited, skip_punc at 1.
  change (is_punc "{" (punc "{" :: punc "}" :: rest)) with true.
  cbv iota. rewrite bind_Ok; cbv beta iota. cbn [snd next].
  rewrite delimited_loop_S. simpl eof. cbv iota.
  change (is_punc "}" (punc "}" :: rest)) with true. cbv iota.
  rewrite bind_Ok; cbv beta iota. unfold skip_punc.
  change (is_punc "}" (punc "}" :: rest)) with true. cbv iota.
  reflexivity.
Qed.

Lemma node_null_right (o : string) (a : option Expr) :
  fully_formed (node o a None) = false.
Proof.
  unfold node. destruct (String.eqb o "="); simpl; apply andb_false_r.
Qed.

Lemma node_null_left (o : string) (b : option Expr) :
  fully_formed (node o None b) = false.
Proof. unfold node. destruct (String.eqb o "="); reflexivity. Qed.

Lemma if_null_branch (x : option Expr) :
  fully_formed (If None x None) = false
  /\ fully_formed (If x None None) = false.
Proof.
  split; [reflexivity|]. simpl. destruct x as [e|]; [|reflexivity].
  now rewrite andb_false_r.
Qed.

Lemma block_expr : parses_expr 5 [punc "{"; punc "}"] None.
Proof. exact (atom_expr 3 _ _ block_atom). Qed.

Lemma block_lambda (m : nat) (rest : Lexer) :
  (2 <= m)%nat ->
  atom_lambda m ([punc "{"; punc "}"] ++ rest) = Ok (None, rest).
Proof.
  intros Hm. destruct m as [|[|m]]; try lia. unfold atom_lambda.
  change ([punc "{"; punc "}"] ++ rest) with (punc "{" :: punc "}" :: rest).
  change (is_kw "ext" (punc "{" :: punc "}" :: rest)) with false.
  change (is_kw "def" (punc "{" :: punc "}" :: rest)) with false.
  change (is_punc "(" (punc "{" :: punc "}" :: rest)) with false.
  change (is_punc "{" (punc "{" :: punc "}" :: rest)) with true.
  cbv iota. rewrite parse_prog_S. unfold delimited, skip_punc at 1.
  change (is_punc "{" (punc "{" :: punc "}" :: rest)) with true.
  cbv iota. rewrite bind_Ok; cbv beta iota. cbn [snd next].
  rewrite delimited_loop_S. simpl eof. cbv iota.
  change (is_punc "}" (punc "}" :: rest)) with true. cbv iota.
  rewrite bind_Ok; cbv beta iota. unfold skip_punc.
  change (is_punc "}" (punc "}" :: rest)) with true. cbv iota.
  reflexivity.
Qed.

Lemma toplevel_filled (x : string) (fuel : nat) (input : Lexer)
    (ast : list (option Expr)) :
  parse_toplevel fuel input = Ok ast ->
  exists ast',
    parse_toplevel (fuel + 2) (fill x input) = Ok ast'
    /\ Forall2 (fills x) ast ast'
    /\ Forall (fun o => exists e, o = Some e /\ fully_formed e = true) ast'.
Proof.
  intros H.
  destruct (toplevel_loop_filled x fuel [] [] input ast (Forall2_nil _) H)
    as [ast' [H' Hf]].
  exists ast'. split; [exact H'|]. split; [exact Hf|].
  apply (toplevel_loop_sound (fuel + 2) [] (fill x input) ast'
           (fill_no_empty_block x input) (Forall_nil _)) in H'.
  eapply Forall_impl; [|exact H'].
  intros [e|] Ho; [exists e; split; [reflexivity | exact Ho]|].
  discriminate Ho.
Qed.

(** C7, as it holds of the code: a routine returns a null pointer only for
    an empty block, possibly in parentheses, and the nodes keep the pointers
    they are given.  So the tree that [parse_toplevel] returns is fully
    formed (the operands of its [Binary] and [Assign] nodes, the callees of
    its [Call] nodes and the conditions and then-branches of its [If] nodes
    are present) except where an empty block stands in such a place: when
    every empty block of the input is given one element, the parser returns
    the same tree with these blocks in the place of null pointers, and in
    that tree every expression is non-null and fully formed.  In particular
    every expression returned is null or fully formed unless an empty block,
    possibly in parentheses, stands in the input directly before an operator
    or an opening parenthesis, directly after an operator or [if], or in
    the place of the then-branch of an [if]; and on an input without an
    empty block every expression is non-null and fully formed.  Where an
    empty block is an operand, a callee, a condition or a then-branch the
    null pointer is stored; as a function body, an argument or the branch
    after [else] it leaves the node fully formed. *)
Theorem C7_nodes_fully_formed_without_empty_block :
  (forall fuel input ast,
      has_empty_block input = false ->
      parse_toplevel fuel input = Ok ast ->
      Forall (fun o => exists e, o = Some e /\ fully_formed e = true) ast)
  /\ (forall fuel input ast,
      ~ misplaced input ->
      parse_toplevel fuel input = Ok ast ->
      Forall (fun o => forall e, o = Some e -> fully_formed e = true) ast)
  /\ (forall x fuel input ast,
      parse_toplevel fuel input = Ok ast ->
      exists ast',
        parse_toplevel (fuel + 2) (fill x input) = Ok ast'
        /\ Forall2 (fills x) ast ast'
        /\ Forall (fun o => exists e, o = Some e /\ fully_formed e = true)
             ast')
  /\ (forall n input rest,
      parse_atom n input = Ok (None, rest)
      \/ parse_expr n input = Ok (None, rest)
      \/ parse_prog n input = Ok (None, rest) ->
      exists g, empty_group g /\ input = g ++ rest)
  /\ (forall k o p sa a n rest,
      find_key o OP_PRECEDENCE = Some p -> parses_atom k sa a ->
      is_op EmptyString rest = false -> is_punc "(" rest = false ->
      (k + 7 <= n)%nat ->
      parse_expr n (sa ++ op o :: punc "{" :: punc "}" :: rest)
      = Ok (Some (node o a None), rest)
      /\ parse_expr n (punc "{" :: punc "}" :: op o :: sa ++ rest)
         = Ok (Some (node o None a), rest)
      /\ fully_formed (node o a None) = false
      /\ fully_formed (node o None a) = false)
  /\ (forall k segs es n rest,
      Forall2 (parses_expr k) segs es ->
      (k + length segs + 3 <= n)%nat ->
      parse_atom n
        (punc "{" :: punc "}" :: punc "(" :: listed (punc ",") segs
           ++ punc ")" :: rest)
      = Ok (Some (Call None es), rest)
      /\ fully_formed (Call None es) = false)
  /\ (forall k s x n rest,
      parses_expr k s x ->
      is_op EmptyString s = false -> is_punc "(" s = false ->
      is_op EmptyString rest = false -> is_punc "(" rest = false ->
      is_kw "else" rest = false ->
      (k + 7 <= n)%nat ->
      parse_expr n (kw "if" :: punc "{" :: punc "}" :: s ++ rest)
      = Ok (Some (If None x None), rest)
      /\ parse_expr n (kw "if" :: s ++ punc "{" :: punc "}" :: rest)
         = Ok (Some (If x None None), rest)
      /\ fully_formed (If None x None) = false
      /\ fully_formed (If x None None) = false)
  /\ (forall fuel, (6 <= fuel)%nat ->
      parse_toplevel fuel [num "1"; op "+"; punc "{"; punc "}"]
      = Ok [Some (Binary "+" (Some (Number 1)) None)]
      /\ parse_toplevel fuel [kw "def"; var "f"; punc "{"; punc "}"]
         = Ok [Some (Function "f" [] None)]
      /\ parse_toplevel fuel [var "f"; punc "("; punc "{"; punc "}"; punc ")"]
         = Ok [Some (Call (Some (Identifier "f")) [None])]
      /\ parse_toplevel fuel
           [kw "if"; var "c"; var "x"; kw "else"; punc "{"; punc "}"]
         = Ok [Some (If (Some (Identifier "c")) (Some (Identifier "x"))
                       None)]).
Proof.
  repeat apply conj.
  - intros fuel input ast Hb H.
    apply (toplevel_loop_sound fuel [] input ast Hb (Forall_nil _)) in H.
    eapply Forall_impl; [|exact H].
    intros [e|] Ho; [exists e; split; [reflexivity | exact Ho]|].
    discriminate Ho.
  - intros fuel input ast Hm H.
    apply (toplevel_loop_placed input fuel [] input ast [] eq_refl
             (Forall_nil _)) in H.
    eapply Forall_impl; [|exact H].
    intros o Ho e ->. simpl in Ho. destruct Ho as [Ho|Ho]; [exact Ho|].
    now elim Hm.
  - exact toplevel_filled.
  - exact null_for_empty_group.
  - intros k o p sa a n rest Ho Ha Hop Hpu Hn. repeat apply conj.
    + pose proof (pair_expr (k + 3) o p sa [punc "{"; punc "}"] a None Ho
                    (parses_atom_more k (k + 3) sa a ltac:(lia) Ha)
                    (parses_atom_more 3 (k + 3) _ _ ltac:(lia) block_atom)
                    n rest ltac:(lia) Hop Hpu) as H.
      flatten_app_in H. exact H.
    + pose proof (pair_expr (k + 3) o p [punc "{"; punc "}"] sa None a Ho
                    (parses_atom_more 3 (k + 3) _ _ ltac:(lia) block_atom)
                    (parses_atom_more k (k + 3) sa a ltac:(lia) Ha)
                    n rest ltac:(lia) Hop Hpu) as H.
      flatten_app_in H. exact H.
    + apply node_null_right.
    + apply node_null_left.
  - intros k segs es n rest Hall Hn. split; [|reflexivity].
    exact (call_atom k 2 segs es n [punc "{"; punc "}"] None Hall
             ltac:(lia) ltac:(lia) block_lambda rest).
  - intros k s x n rest Hs Hop Hpu Hrop Hrpu Hrel Hn. repeat apply conj.
    + pose proof (if_plain_expr (k + 5) [punc "{"; punc "}"] s None x
                    (parses_expr_more 5 (k + 5) _ _ ltac:(lia) block_expr)
                    (parses_expr_more k (k + 5) s x ltac:(lia) Hs)
                    Hop Hpu n rest ltac:(lia) Hrop Hrpu Hrel) as H.
      flatten_app_in H. exact H.
    + pose proof (if_plain_expr (k + 5) s [punc "{"; punc "}"] x None
                    (parses_expr_more k (k + 5) s x ltac:(lia) Hs)
                    (parses_expr_more 5 (k + 5) _ _ ltac:(lia) block_expr)
                    eq_refl eq_refl n rest ltac:(lia) Hrop Hrpu Hrel) as H.
      flatten_app_in H. exact H.
    + apply if_null_branch.
    + apply if_null_branch.
  - intros fuel Hfuel. repeat apply conj; fuel_cases fuel 6.
Qed.

End Parser.

(** ** The two orders of evaluation in [parse_closure] *)

Lemma has_cls_suffix (rest input : Lexer) :
  suffix_of rest input -> has_cls rest = true -> has_cls input = true.
Proof.
  intros [pre ->] H. unfold has_cls in *. rewrite existsb_app, H.
  apply orb_true_r.
Qed.

Lemma split_same {A : Type} (input : Lexer) (r : Result (A * Lexer)) :
  (forall x rest, r = Ok (x, rest) -> suffix_of rest input) ->
  split_on input r r.
Proof. intros H. left. split; [reflexivity | exact H]. Qed.

Lemma split_ret {A : Type} (input : Lexer) (x : A) :
  split_on input (Ok (x, input)) (Ok (x, input)).
Proof.
  apply split_same. intros y rest H. injection H as _ <-.
  apply suffix_of_refl.
Qed.

Lemma split_suffix {A : Type} (rest input : Lexer)
    (rt rf : Result (A * Lexer)) :
  suffix_of rest input -> split_on rest rt rf -> split_on input rt rf.
Proof.
  intros Hs [[E H]|[Hc H]].
  - left. split; [exact E|]. intros x r Hr.
    exact (suffix_of_trans _ _ _ (H x r Hr) Hs).
  - right. split; [exact (has_cls_suffix _ _ Hs Hc) | exact H].
Qed.

Lemma split_bind {A B : Type} (input : Lexer) (a1 a2 : Result (A * Lexer))
    (k1 k2 : A -> Parser B) :
  split_on input a1 a2 ->
  (forall x rest, a1 = Ok (x, rest) ->
                  split_on rest (k1 x rest) (k2 x rest)) ->
  split_on input (' (x, input1) <- a1 ;; k1 x input1)
    (' (x, input1) <- a2 ;; k2 x input1).
Proof.
  intros [[<- Hs]|[Hc [-> | ->]]] Hk.
  - destruct a1 as [[x rest]| | |]; simpl;
      try (apply split_same; discriminate).
    exact (split_suffix _ _ _ _ (Hs x rest eq_refl) (Hk x rest eq_refl)).
  - right. split; [exact Hc | now left].
  - right. split; [exact Hc | now right].
Qed.

Lemma split_skip_punc (ch : ascii) (input : Lexer) :
  split_on input (skip_punc ch input) (skip_punc ch input).
Proof. apply split_same. intros x rest. apply skip_punc_suffix. Qed.

Lemma split_skip_kw (k : string) (input : Lexer) :
  split_on input (skip_kw k input) (skip_kw k input).
Proof. apply split_same. intros x rest. apply skip_kw_suffix. Qed.

Lemma split_after_next {A : Type} (input : Lexer)
    (rt rf : Result (A * Lexer)) :
  split_on (snd (next input)) rt rf -> split_on input rt rf.
Proof. apply split_suffix, suffix_of_next. Qed.

Lemma split_parse_varname (input : Lexer) :
  split_on input (parse_varname input) (parse_varname input).
Proof.
  apply split_same. intros x rest. unfold parse_varname.
  destruct input as [|t input]; simpl; [discriminate|].
  destruct (negb (String.eqb (type t) "var")); [discriminate|].
  intros H. injection H as _ <-. now exists [t].
Qed.

Lemma split_parse_param (input : Lexer) :
  split_on input (parse_param input) (parse_param input).
Proof.
  apply split_same. intros x rest. unfold parse_param.
  destruct input as [|t input]; simpl; [discriminate|].
  destruct (negb (String.eqb (type t) "var")); [discriminate|].
  destruct (String.eqb (type (peek input)) "var").
  - destruct input as [|u input]; simpl; [discriminate|].
    destruct (negb (String.eqb (type u) "var")); [discriminate|].
    intros H. injection H as _ <-. now exists [t; u].
  - intros H. injection H as _ <-. now exists [t].
Qed.

Section SplitDelimited.

Context {T : Type}.
Variables pt pf : Parser T.
Variables start end_ separator : ascii.
Hypothesis parser_split : forall input, split_on input (pt input) (pf input).

Lemma split_delimited_loop (fuel : nat) :
  forall first items input,
    split_on input
      (delimited_loop fuel end_ separator pt first items input)
      (delimited_loop fuel end_ separator pf first items input).
Proof.
  induction fuel as [|fuel IH]; intros first items input;
    [apply split_same; discriminate|].
  rewrite !delimited_loop_S.
  destruct (eof input); [apply split_ret|].
  destruct (is_punc end_ input); [apply split_ret|].
  apply (split_bind input _ _
           (fun (_ : unit) input1 =>
              if is_punc end_ input1 then Ok (items, input1)
              else
                ' (item, input2) <- pt input1 ;;
                delimited_loop fuel end_ separator pt false
                  (items ++ [item])%list input2)
           (fun (_ : unit) input1 =>
              if is_punc end_ input1 then Ok (items, input1)
              else
                ' (item, input2) <- pf input1 ;;
                delimited_loop fuel end_ separator pf false
                  (items ++ [item])%list input2)).
  - destruct first; [apply split_ret | apply split_skip_punc].
  - intros u rest _. destruct (is_punc end_ rest); [apply split_ret|].
    apply (split_bind rest _ _
             (fun item input2 =>
                delimited_loop fuel end_ separator pt false
                  (items ++ [item])%list input2)
             (fun item input2 =>
                delimited_loop fuel end_ separator pf false
                  (items ++ [item])%list input2)); [apply parser_split|].
    intros item rest2 _. apply IH.
Qed.

Lemma split_delimited (fuel : nat) (input : Lexer) :
  split_on input (delimited fuel start end_ separator pt input)
    (delimited fuel start end_ separator pf input).
Proof.
  unfold delimited.
  apply (split_bind input _ _
           (fun (_ : unit) input1 =>
              ' (items, input2) <-
                 delimited_loop fuel end_ separator pt true [] input1 ;;
              ' (_, input3) <- skip_punc end_ input2 ;;
              Ok (items, input3))
           (fun (_ : unit) input1 =>
              ' (items, input2) <-
                 delimited_loop fuel end_ separator pf true [] input1 ;;
              ' (_, input3) <- skip_punc end_ input2 ;;
              Ok (items, input3))); [apply split_skip_punc|].
  intros u rest _.
  apply (split_bind rest _ _
           (fun items input2 =>
              ' (_, input3) <- skip_punc end_ input2 ;; Ok (items, input3))
           (fun items input2 =>
              ' (_, input3) <- skip_punc end_ input2 ;; Ok (items, input3)));
    [apply split_delimited_loop|].
  intros items rest2 _.
  apply (split_bind rest2 _ _
           (fun (_ : unit) input3 => Ok (items, input3))
           (fun (_ : unit) input3 => Ok (items, input3)));
    [apply split_skip_punc|].
  intros u' rest3 _. apply split_ret.
Qed.

End SplitDelimited.

Section SplitRoutines.

Variable fuel : nat.
Variables pet pef : Parser (option Expr).
Hypothesis pe_split : forall input, split_on input (pet input) (pef input).

Lemma split_upcast (p1 p2 : Parser Expr) (input : Lexer) :
  split_on input (p1 input) (p2 input) ->
  split_on input (upcast p1 input) (upcast p2 input).
Proof.
  intros H. unfold upcast.
  apply (split_bind input _ _
           (fun e input1 => Ok (Some e, input1))
           (fun e input1 => Ok (Some e, input1))); [exact H|].
  intros e rest _. apply split_ret.
Qed.

Lemma split_parse_call (func : option Expr) (input : Lexer) :
  split_on input (parse_call fuel pet func input)
    (parse_call fuel pef func input).
Proof.
  unfold parse_call.
  apply (split_bind input _ _
           (fun args input1 => Ok (Call func args, input1))
           (fun args input1 => Ok (Call func args, input1)));
    [now apply split_delimited|].
  intros args rest _. apply split_ret.
Qed.

Lemma split_maybe_call (ct cf : Parser (option Expr)) (input : Lexer) :
  split_on input (ct input) (cf input) ->
  split_on input (maybe_call fuel pet ct input) (maybe_call fuel pef cf input).
Proof.
  intros H. unfold maybe_call.
  apply (split_bind input _ _
           (fun result input1 =>
              if is_punc "(" input1
              then upcast (parse_call fuel pet result) input1
              else Ok (result, input1))
           (fun result input1 =>
              if is_punc "(" input1
              then upcast (parse_call fuel pef result) input1
              else Ok (result, input1))); [exact H|].
  intros result rest _. destruct (is_punc "(" rest); [|apply split_ret].
  apply split_upcast, split_parse_call.
Qed.

Lemma split_parse_if (input : Lexer) :
  split_on input (parse_if pet input) (parse_if pef input).
Proof.
  unfold parse_if.
  apply (split_bind input _ _
           (fun (_ : unit) input1 =>
              ' (cond, input2) <- pet input1 ;;
              ' (then_, input3) <- pet input2 ;;
              if is_kw "else" input3 then
                ' (els, input4) <- pet (snd (next input3)) ;;
                Ok (If cond then_ els, input4)
              else Ok (If cond then_ None, input3))
           (fun (_ : unit) input1 =>
              ' (cond, input2) <- pef input1 ;;
              ' (then_, input3) <- pef input2 ;;
              if is_kw "else" input3 then
                ' (els, input4) <- pef (snd (next input3)) ;;
                Ok (If cond then_ els, input4)
              else Ok (If cond then_ None, input3)));
    [apply split_skip_kw|].
  intros u rest _.
  apply (split_bind rest _ _
           (fun cond input2 =>
              ' (then_, input3) <- pet input2 ;;
              if is_kw "else" input3 then
                ' (els, input4) <- pet (snd (next input3)) ;;
                Ok (If cond then_ els, input4)
              else Ok (If cond then_ None, input3))
           (fun cond input2 =>
              ' (then_, input3) <- pef input2 ;;
              if is_kw "else" input3 then
                ' (els, input4) <- pef (snd (next input3)) ;;
                Ok (If cond then_ els, input4)
              else Ok (If cond then_ None, input3))); [apply pe_split|].
  intros cond rest2 _.
  apply (split_bind rest2 _ _
           (fun then_ input3 =>
              if is_kw "else" input3 then
                ' (els, input4) <- pet (snd (next input3)) ;;
                Ok (If cond then_ els, input4)
              else Ok (If cond then_ None, input3))
           (fun then_ input3 =>
              if is_kw "else" input3 then
                ' (els, input4) <- pef (snd (next input3)) ;;
                Ok (If cond then_ els, input4)
              else Ok (If cond then_ None, input3))); [apply pe_split|].
  intros then_ rest3 _. destruct (is_kw "else" rest3); [|apply split_ret].
  apply split_after_next.
  apply (split_bind (snd (next rest3)) _ _
           (fun els input4 => Ok (If cond then_ els, input4))
           (fun els input4 => Ok (If cond then_ els, input4)));
    [apply pe_split|].
  intros els rest4 _. apply split_ret.
Qed.

Lemma split_parse_ext (input : Lexer) :
  split_on input (parse_ext fuel input) (parse_ext fuel input).
Proof.
  unfold parse_ext.
  apply (split_bind input _ _
           (fun (_ : unit) input1 =>
              let '(funcname, input2) := next input1 in
              if negb (String.eqb (type funcname) "var")
              then error "Function name expected" input2
              else
                ' (params, input3) <-
                   delimited fuel "(" ")" "," parse_param input2 ;;
                Ok (Some (Function (value funcname) params None), input3))
           (fun (_ : unit) input1 =>
              let '(funcname, input2) := next input1 in
              if negb (String.eqb (type funcname) "var")
              then error "Function name expected" input2
              else
                ' (params, input3) <-
                   delimited fuel "(" ")" "," parse_param input2 ;;
                Ok (Some (Function (value funcname) params None), input3)));
    [apply split_skip_kw|].
  intros u rest _. apply split_after_next.
  destruct (next rest) as [funcname rest2]. simpl snd.
  destruct (negb (String.eqb (type funcname) "var"));
    [apply split_same; discriminate|].
  apply (split_bind rest2 _ _
           (fun params input3 =>
              Ok (Some (Function (value funcname) params None), input3))
           (fun params input3 =>
              Ok (Some (Function (value funcname) params None), input3)));
    [apply split_delimited, split_parse_param|].
  intros params rest3 _. apply split_ret.
Qed.

Lemma split_parse_func (input : Lexer) :
  split_on input (parse_func fuel pet input) (parse_func fuel pef input).
Proof.
  unfold parse_func. apply split_after_next.
  generalize (snd (next input)). intros input1.
  apply split_after_next.
  destruct (next input1) as [tok input2]. simpl snd.
  apply (split_bind input2 _ _
           (fun params input3 =>
              ' (body, input4) <- pet input3 ;;
              Ok (Some (Function (value tok) params body), input4))
           (fun params input3 =>
              ' (body, input4) <- pef input3 ;;
              Ok (Some (Function (value tok) params body), input4))).
  - destruct (is_punc "(" input2); [|apply split_ret].
    apply split_delimited, split_parse_param.
  - intros params rest3 _.
    apply (split_bind rest3 _ _
             (fun body input4 =>
                Ok (Some (Function (value tok) params body), input4))
             (fun body input4 =>
                Ok (Some (Function (value tok) params body), input4)));
      [apply pe_split|].
    intros body rest4 _. apply split_ret.
Qed.

End SplitRoutines.

Lemma paren_not_brace (input : Lexer) :
  is_punc "(" input = true -> is_punc "{" input = false.
Proof.
  destruct input as [|t input]; [discriminate|].
  rewrite !is_punc_cons. intros H.
  apply andb_prop in H. destruct H as [Ht Hv]. rewrite Ht.
  simpl in Hv |- *. apply Ascii.eqb_eq in Hv. now rewrite Hv.
Qed.

Lemma brace_not_paren (input : Lexer) :
  is_punc "{" input = true -> is_punc "(" input = false.
Proof.
  destruct input as [|t input]; [discriminate|].
  rewrite !is_punc_cons. intros H.
  apply andb_prop in H. destruct H as [Ht Hv]. rewrite Ht.
  simpl in Hv |- *. apply Ascii.eqb_eq in Hv. now rewrite Hv.
Qed.

Lemma has_cls_head (input : Lexer) :
  is_kw "cls" input = true -> has_cls input = true.
Proof.
  destruct input as [|t input]; [discriminate|].
  rewrite is_kw_head. intros H. unfold has_cls. simpl. now rewrite H.
Qed.

(** The body first, on a stream that does not begin with a brace. *)
Lemma closure_body_first (n : nat) (input : Lexer) :
  is_punc "{" input = false ->
  parse_closure false (S n) (parse_prog false (S n)) input
  = Diag (msg_token_expected "{").
Proof.
  intros H. unfold parse_closure. rewrite parse_prog_S.
  unfold delimited, skip_punc. now rewrite H.
Qed.

(** The parameter list first, on a stream that does not begin with a
    parenthesis. *)
Lemma closure_params_first_fails (n : nat) (pp : Parser (option Expr))
    (input : Lexer) :
  is_punc "(" input = false ->
  parse_closure true n pp input = Diag (msg_token_expected "(").
Proof.
  intros H. unfold parse_closure, delimited, skip_punc. now rewrite H.
Qed.

Lemma split_closure (n : nat) (input : Lexer) :
  is_kw "cls" input = true ->
  split_on input
    (upcast (parse_closure true n (parse_prog true n)) (snd (next input)))
    (upcast (parse_closure false n (parse_prog false n)) (snd (next input))).
Proof.
  intros Hk. pose proof (has_cls_head input Hk) as Hc.
  generalize (snd (next input)). intros rest.
  destruct (is_punc "(" rest) eqn:Hp.
  - destruct n as [|n].
    + unfold upcast, parse_closure, delimited, skip_punc. rewrite Hp.
      simpl. apply split_same. discriminate.
    + right. split; [exact Hc|]. left. unfold upcast.
      now rewrite (closure_body_first n rest (paren_not_brace rest Hp)).
  - right. split; [exact Hc|]. right. unfold upcast.
    now rewrite (closure_params_first_fails n _ rest Hp).
Qed.

Lemma split_literal (input : Lexer) (r : Result (option Expr * Lexer)) :
  r = (let '(tok, input1) := next input in
       if String.eqb (type tok) "var"
       then Ok (Some (Identifier (value tok)), input1)
       else if String.eqb (type tok) "num" then
         ' z <- stoi (value tok) ;; Ok (Some (Number z), input1)
       else if String.eqb (type tok) "char"
       then Ok (Some (Character (front (value tok))), input1)
       else if String.eqb (type tok) "str"
       then Ok (Some (String_ (value tok)), input1)
       else unexpected input1) ->
  split_on input r r.
Proof.
  intros ->. apply split_after_next.
  destruct (next input) as [tok input1]. simpl snd.
  destruct (String.eqb (type tok) "var"); [apply split_ret|].
  destruct (String.eqb (type tok) "num").
  { destruct (stoi (value tok)); simpl;
      [apply split_ret | apply split_same; discriminate ..]. }
  destruct (String.eqb (type tok) "char"); [apply split_ret|].
  destruct (String.eqb (type tok) "str"); [apply split_ret|].
  apply split_same. discriminate.
Qed.

Lemma split_atom_lambda (n : nat) (input : Lexer) :
  (forall i, split_on i (parse_expr true n i) (parse_expr false n i)) ->
  (forall i, split_on i (parse_prog true n i) (parse_prog false n i)) ->
  split_on input (atom_lambda true n input) (atom_lambda false n input).
Proof.
  intros He Hp. unfold atom_lambda.
  destruct (is_kw "ext" input); [apply split_parse_ext|].
  destruct (is_kw "def" input); [now apply split_parse_func|].
  destruct (is_punc "(" input).
  { apply split_after_next.
    apply (split_bind (snd (next input)) _ _
             (fun expr input1 =>
                ' (_, input2) <- skip_punc ")" input1 ;; Ok (expr, input2))
             (fun expr input1 =>
                ' (_, input2) <- skip_punc ")" input1 ;; Ok (expr, input2)));
      [apply He|].
    intros expr rest _.
    apply (split_bind rest _ _
             (fun (_ : unit) input2 => Ok (expr, input2))
             (fun (_ : unit) input2 => Ok (expr, input2)));
      [apply split_skip_punc|].
    intros u rest2 _. apply split_ret. }
  destruct (is_punc "{" input); [apply Hp|].
  destruct (is_kw "if" input); [now apply split_upcast, split_parse_if|].
  destruct (is_kw "true" input || is_kw "false" input)%bool.
  { apply split_same. intros x rest. unfold upcast, parse_bool.
    destruct (next input) as [tok input1] eqn:En. simpl.
    intros H. injection H as _ <-.
    change input1 with (snd (tok, input1)). rewrite <- En.
    apply suffix_of_next. }
  destruct (is_kw "cls" input) eqn:Hk; [now apply split_closure|].
  now apply split_literal.
Qed.

Lemma split_parser (n : nat) :
  (forall i, split_on i (parse_atom true n i) (parse_atom false n i))
  /\ (forall i, split_on i (parse_expr true n i) (parse_expr false n i))
  /\ (forall i, split_on i (parse_prog true n i) (parse_prog false n i))
  /\ (forall left prec i,
        split_on i (maybe_binary true n left prec i)
          (maybe_binary false n left prec i)).
Proof.
  induction n as [|n [Ha [He [Hp Hb]]]].
  - repeat apply conj; intros; apply split_same; discriminate.
  - repeat apply conj.
    + intros i. rewrite !parse_atom_S.
      apply split_maybe_call; [exact He|]. now apply split_atom_lambda.
    + intros i. rewrite !parse_expr_S.
      apply split_maybe_call; [exact He|]. unfold expr_lambda.
      apply (split_bind i _ _
               (fun atom input1 => maybe_binary true n atom 0 input1)
               (fun atom input1 => maybe_binary false n atom 0 input1));
        [apply Ha|].
      intros atom rest _. apply Hb.
    + intros i. rewrite !parse_prog_S.
      apply (split_bind i _ _
               (fun vars input1 =>
                  match vars with
                  | [] => Ok (None, input1)
                  | _ :: _ => Ok (Some (Program vars), input1)
                  end)
               (fun vars input1 =>
                  match vars with
                  | [] => Ok (None, input1)
                  | _ :: _ => Ok (Some (Program vars), input1)
                  end)); [now apply split_delimited|].
      intros vars rest _. destruct vars; apply split_ret.
    + intros left prec i. rewrite !maybe_binary_S.
      destruct (is_op EmptyString i); [|apply split_ret].
      destruct (map_at OP_PRECEDENCE (value (peek i))) as [p| | |]; simpl bind;
        try (apply split_same; discriminate).
      cbv beta zeta.
      destruct (p >? prec); [|apply split_ret].
      apply split_after_next.
      apply (split_bind (snd (next i)) _ _
               (fun atom input2 =>
                  ' (rhs, input3) <- maybe_binary true n atom p input2 ;;
                  if String.eqb (value (peek i)) "="
                  then maybe_binary true n
                         (Some (Assign (value (peek i)) left rhs)) prec input3
                  else maybe_binary true n
                         (Some (Binary (value (peek i)) left rhs)) prec input3)
               (fun atom input2 =>
                  ' (rhs, input3) <- maybe_binary false n atom p input2 ;;
                  if String.eqb (value (peek i)) "="
                  then maybe_binary false n
                         (Some (Assign (value (peek i)) left rhs)) prec input3
                  else maybe_binary false n
                         (Some (Binary (value (peek i)) left rhs)) prec
                         input3)); [apply Ha|].
      intros atom rest _.
      apply (split_bind rest _ _
               (fun rhs input3 =>
                  if String.eqb (value (peek i)) "="
                  then maybe_binary true n
                         (Some (Assign (value (peek i)) left rhs)) prec input3
                  else maybe_binary true n
                         (Some (Binary (value (peek i)) left rhs)) prec input3)
               (fun rhs input3 =>
                  if String.eqb (value (peek i)) "="
                  then maybe_binary false n
                         (Some (Assign (value (peek i)) left rhs)) prec input3
                  else maybe_binary false n
                         (Some (Binary (value (peek i)) left rhs)) prec
                         input3)); [apply Hb|].
      intros rhs rest2 _. destruct (String.eqb (value (peek i)) "=");
        apply Hb.
Qed.

Lemma split_toplevel_loop (fuel : nat) :
  forall ast input,
    split_top input (toplevel_loop true fuel ast input)
      (toplevel_loop false fuel ast input).
Proof.
  induction fuel as [|n IH]; intros ast input; [now left|].
  rewrite !toplevel_loop_S. destruct (eof input); [now left|].
  destruct (split_parser (S n)) as [_ [He _]].
  destruct (He input) as [[E Hs]|[Hc [H|H]]].
  - rewrite <- E.
    destruct (parse_expr true (S n) input) as [[e input1]| | |]; simpl;
      try (now left).
    specialize (Hs e input1 eq_refl).
    destruct (if negb (eof input1) then skip_punc ";" input1
              else Ok (tt, input1)) as [[u input2]| | |] eqn:Ek; simpl;
      try (now left).
    assert (Hs2 : suffix_of input2 input1).
    { destruct (negb (eof input1)).
      - exact (skip_punc_suffix _ _ _ _ Ek).
      - injection Ek as _ <-. apply suffix_of_refl. }
    destruct (IH (ast ++ [e])%list input2) as [E2|[Hc2 H2]]; [now left|].
    right. split; [|exact H2].
    apply (has_cls_suffix input2 input); [|exact Hc2].
    exact (suffix_of_trans _ _ _ Hs2 Hs).
  - right. split; [exact Hc|]. left. now rewrite H.
  - right. split; [exact Hc|]. right. now rewrite H.
Qed.

(** X12: the order in which the two arguments of [new Closure] are evaluated
    does not change the tree: on a stream without the keyword [cls] both
    orders give the same outcome, and on any stream the outcomes are the
    same unless the order that reads the body first stops with "Token '{'
    expected" or the order that reads the parameters first stops with
    "Token '(' expected". *)
Theorem X12_tree_independent_of_closure_order :
  (forall fuel input,
      has_cls input = false ->
      parse_toplevel true fuel input = parse_toplevel false fuel input)
  /\ (forall fuel input,
      parse_toplevel true fuel input = parse_toplevel false fuel input
      \/ parse_toplevel false fuel input = Diag (msg_token_expected "{")
      \/ parse_toplevel true fuel input = Diag (msg_token_expected "("))
  /\ (forall fuel input ast ast',
      parse_toplevel true fuel input = Ok ast ->
      parse_toplevel false fuel input = Ok ast' -> ast = ast').
Proof.
  repeat apply conj.
  - intros fuel input Hn.
    destruct (split_toplevel_loop fuel [] input) as [E|[Hc _]];
      [exact E | congruence].
  - intros fuel input.
    destruct (split_toplevel_loop fuel [] input) as [E|[_ [H|H]]]; auto.
  - intros fuel input ast ast' Ht Hf.
    destruct (split_toplevel_loop fuel [] input) as [E|[_ [H|H]]];
      unfold parse_toplevel in *; congruence.
Qed.

(** ** Closures *)

Lemma toplevel_cls (b : bool) (fuel : nat) (input : Lexer) :
  parse_toplevel b (S (S (S fuel))) (kw "cls" :: input)
  = ' (e, input1) <-
       maybe_call (S (S fuel)) (parse_expr b (S (S fuel)))
         (fun input0 =>
            ' (atom, input1) <-
               maybe_call (S fuel) (parse_expr b (S fuel))
                 (fun _ =>
                    upcast (parse_closure b (S fuel) (parse_prog b (S fuel)))
                      input)
                 input0 ;;
            maybe_binary b (S (S fuel)) atom 0 input1)
         (kw "cls" :: input) ;;
    ' (_, input2) <-
       (if negb (eof input1) then skip_punc ";" input1
        else Ok (tt, input1)) ;;
    toplevel_loop b (S (S fuel)) [e] input2.
Proof. reflexivity. Qed.

Lemma toplevel_cls_params_first (fuel : nat) (input : Lexer) :
  is_punc "(" input = false ->
  (forall ast, parse_toplevel true fuel (kw "cls" :: input) <> Ok ast)
  /\ ((3 <= fuel)%nat ->
      parse_toplevel true fuel (kw "cls" :: input)
      = Diag (msg_token_expected "(")).
Proof.
  intros H.
  assert (Hd : forall m,
             parse_toplevel true (S (S (S m))) (kw "cls" :: input)
             = Diag (msg_token_expected "(")).
  { intros m. rewrite toplevel_cls. unfold maybe_call, upcast.
    now rewrite (closure_params_first_fails (S m) _ input H). }
  split.
  - intros ast. destruct fuel as [|[|[|fuel]]]; try discriminate.
    + unfold parse_toplevel. rewrite toplevel_loop_S. simpl eof. cbv iota.
      rewrite parse_expr_S. unfold maybe_call at 1, expr_lambda.
      rewrite parse_atom_S. unfold maybe_call at 1, atom_lambda.
      cbn [is_kw is_punc peek type value kw String.eqb Ascii.eqb Bool.eqb
           negb andb orb snd next].
      unfold upcast.
      rewrite (closure_params_first_fails 0 _ input H). discriminate.
    + now rewrite Hd.
  - intros Hf. destruct fuel as [|[|[|fuel]]]; try lia. apply Hd.
Qed.

Lemma toplevel_cls_body_first (fuel : nat) (input : Lexer) :
  is_punc "{" input = false ->
  (forall ast, parse_toplevel false fuel (kw "cls" :: input) <> Ok ast)
  /\ ((3 <= fuel)%nat ->
      parse_toplevel false fuel (kw "cls" :: input)
      = Diag (msg_token_expected "{")).
Proof.
  intros H.
  assert (Hd : forall m,
             parse_toplevel false (S (S (S m))) (kw "cls" :: input)
             = Diag (msg_token_expected "{")).
  { intros m. rewrite toplevel_cls. unfold maybe_call, upcast.
    now rewrite (closure_body_first m input H). }
  split.
  - intros ast. destruct fuel as [|[|[|fuel]]]; try discriminate.
    now rewrite Hd.
  - intros Hf. destruct fuel as [|[|[|fuel]]]; try lia. apply Hd.
Qed.

(** X13: which streams are closures depends on the order in which the two
    arguments of [new Closure] are evaluated.  Where the parameter list is
    read first a closure is [cls], the list and the body; where the body is
    read first it is [cls], the body and the list.  No stream that begins
    with [cls] is accepted under both orders: what one order accepts, the
    other refuses with "Token '{' expected" or "Token '(' expected". *)
Theorem X13_closure_syntax_depends_on_evaluation_order :
  (forall fuel fuel' input ast,
      parse_toplevel true fuel (kw "cls" :: input) = Ok ast ->
      (3 <= fuel')%nat ->
      parse_toplevel false fuel' (kw "cls" :: input)
      = Diag (msg_token_expected "{"))
  /\ (forall fuel fuel' input ast,
      parse_toplevel false fuel (kw "cls" :: input) = Ok ast ->
      (3 <= fuel')%nat ->
      parse_toplevel true fuel' (kw "cls" :: input)
      = Diag (msg_token_expected "("))
  /\ (forall fuel, (5 <= fuel)%nat ->
      parse_toplevel true fuel
        [kw "cls"; punc "("; var "x"; punc ")"; punc "{"; var "x"; punc "}"]
      = Ok [Some (Closure ["x"]
                    (Some (Program [Some (Identifier "x")])))]
      /\ parse_toplevel false fuel
           [kw "cls"; punc "{"; var "x"; punc "}"; punc "("; var "x";
            punc ")"]
         = Ok [Some (Closure ["x"]
                       (Some (Program [Some (Identifier "x")])))]).
Proof.
  repeat apply conj.
  - intros fuel fuel' input ast H Hf.
    destruct (is_punc "(" input) eqn:Hp.
    + apply toplevel_cls_body_first; [now apply paren_not_brace | lia].
    + now destruct (proj1 (toplevel_cls_params_first fuel input Hp) ast).
  - intros fuel fuel' input ast H Hf.
    destruct (is_punc "{" input) eqn:Hp.
    + apply toplevel_cls_params_first; [now apply brace_not_paren | lia].
    + now destruct (proj1 (toplevel_cls_body_first fuel input Hp) ast).
  - intros fuel Hf.
    do 5 (destruct fuel as [|fuel]; [exfalso; lia|]). clear.
    split; vm_compute; reflexivity.
Qed.

(** ** Instances on given inputs *)

(** C3 on [1-2+x;] and on [1-2-3]. *)
Lemma C3_witness :
  parse_expr true 6
    [num "1"; op "-"; num "2"; op "+"; var "x"; punc ";"]
  = Ok (Some (Binary "+"
                (Some (Binary "-" (Some (Number 1)) (Some (Number 2))))
                (Some (Identifier "x"))), [punc ";"])
  /\ parse_toplevel true 5 [num "1"; op "-"; num "2"; op "-"; num "3"]
     = Ok [Some (Binary "-"
                   (Some (Binary "-" (Some (Number 1)) (Some (Number 2))))
                   (Some (Number 3)))].
Proof.
  split.
  - apply (proj1 (C3_equal_precedence_associates_left true) 10 1%nat
             [num "1"] (Some (Number 1))
             [("-", [num "2"], Some (Number 2));
              ("+", [var "x"], Some (Identifier "x"))] 6%nat [punc ";"]).
    + apply parses_atom_num; reflexivity.
    + constructor; [split; [reflexivity | apply parses_atom_num; reflexivity]|].
      constructor; [split; [reflexivity | apply parses_atom_var]|].
      constructor.
    + reflexivity.
    + reflexivity.
    + simpl; lia.
  - apply (proj2 (C3_equal_precedence_associates_left true) 5%nat); lia.
Defined.

(** C1 on [a=b=1;] and on [a=b=1]. *)
Lemma C1_witness :
  parse_expr true 6 [var "a"; op "="; var "b"; op "="; num "1"; punc ";"]
  = Ok (Some (Assign "="
                (Some (Assign "=" (Some (Identifier "a"))
                         (Some (Identifier "b"))))
                (Some (Number 1))), [punc ";"])
  /\ parse_toplevel true 5 [var "a"; op "="; var "b"; op "="; num "1"]
     = Ok [Some (Assign "="
                   (Some (Assign "=" (Some (Identifier "a"))
                            (Some (Identifier "b"))))
                   (Some (Number 1)))].
Proof.
  split.
  - apply (proj1 (C1_assignment_chain_associates_left true) 1%nat
             [var "a"] (Some (Identifier "a"))
             [([var "b"], Some (Identifier "b"));
              ([num "1"], Some (Number 1))] 6%nat [punc ";"]).
    + apply parses_atom_var.
    + constructor; [apply parses_atom_var|].
      constructor; [apply parses_atom_num; reflexivity|].
      constructor.
    + reflexivity.
    + reflexivity.
    + simpl; lia.
  - apply (proj2 (C1_assignment_chain_associates_left true) 5%nat); lia.
Defined.

(** [a=b=1] is not read as [Assign = a (Assign = b 1)]. *)
Lemma C1_counterexample :
  parse_toplevel true 5 [var "a"; op "="; var "b"; op "="; num "1"]
  = Ok [Some (Assign "="
                (Some (Assign "=" (Some (Identifier "a"))
                         (Some (Identifier "b"))))
                (Some (Number 1)))]
  /\ parse_toplevel true 5 [var "a"; op "="; var "b"; op "="; num "1"]
     <> Ok [Some (Assign "=" (Some (Identifier "a"))
                    (Some (Assign "=" (Some (Identifier "b"))
                             (Some (Number 1)))))].
Proof.
  split; [reflexivity|]. intros H. vm_compute in H. discriminate H.
Qed.

(** C4 on [1+2*3-4;], [1+2*3;], [1*2+3;] and [1+2*3]. *)
Lemma C4_witness :
  (exists s,
     parse_expr true 7
       [num "1"; op "+"; num "2"; op "*"; num "3"; op "-"; num "4";
        punc ";"]
     = Ok (build s, [punc ";"])
     /\ first_leaf s = Some (Number 1)
     /\ items s = [("+", Some (Number 2)); ("*", Some (Number 3));
                   ("-", Some (Number 4))]
     /\ climbed s = true)
  /\ parse_expr true 5 [num "1"; op "+"; num "2"; op "*"; num "3"; punc ";"]
     = Ok (Some (Binary "+" (Some (Number 1))
                   (Some (Binary "*" (Some (Number 2)) (Some (Number 3))))),
           [punc ";"])
  /\ parse_expr true 5 [num "1"; op "*"; num "2"; op "+"; num "3"; punc ";"]
     = Ok (Some (Binary "+"
                   (Some (Binary "*" (Some (Number 1)) (Some (Number 2))))
                   (Some (Number 3))), [punc ";"])
  /\ parse_toplevel true 5 [num "1"; op "+"; num "2"; op "*"; num "3"]
     = Ok [Some (Binary "+" (Some (Number 1))
                   (Some (Binary "*" (Some (Number 2)) (Some (Number 3)))))].
Proof.
  destruct (C4_precedence_table_honored true) as [_ [Hany [Htwo Hex]]].
  split; [|split; [|split]].
  - destruct (Hany 1%nat [num "1"] (Some (Number 1))
                [("+", [num "2"], Some (Number 2));
                 ("*", [num "3"], Some (Number 3));
                 ("-", [num "4"], Some (Number 4))] 7%nat [punc ";"])
      as [s [H1 [H2 [H3 [H4 _]]]]].
    + apply parses_atom_num; reflexivity.
    + constructor; [split; [now exists 10 | apply parses_atom_num;
                                            reflexivity]|].
      constructor; [split; [now exists 20 | apply parses_atom_num;
                                            reflexivity]|].
      constructor; [split; [now exists 10 | apply parses_atom_num;
                                            reflexivity]|].
      constructor.
    + reflexivity.
    + reflexivity.
    + simpl; lia.
    + exists s. repeat split; assumption.
  - apply (Htwo 1%nat "+" "*" 10 20 [num "1"] [num "2"] [num "3"]
             (Some (Number 1)) (Some (Number 2)) (Some (Number 3))
             5%nat [punc ";"]);
      try reflexivity; apply parses_atom_num; reflexivity.
  - apply (Htwo 1%nat "*" "+" 20 10 [num "1"] [num "2"] [num "3"]
             (Some (Number 1)) (Some (Number 2)) (Some (Number 3))
             5%nat [punc ";"]);
      try reflexivity; apply parses_atom_num; reflexivity.
  - apply (Hex 5%nat); lia.
Defined.

(** C10 on the operator [+], which is in the table, and on [@], which is
    not. *)
Lemma C10_witness :
  (exists p,
      map_at OP_PRECEDENCE "+" = Ok p
      /\ maybe_binary true 3 (Some (Number 1)) 0 [op "+"; num "2"]
         = if p >? 0
           then ' (atom, input2) <- parse_atom true 2 [num "2"] ;;
                ' (rhs, input3) <- maybe_binary true 2 atom p input2 ;;
                maybe_binary true 2 (Some (node "+" (Some (Number 1)) rhs))
                  0 input3
           else Ok (Some (Number 1), [op "+"; num "2"]))
  /\ maybe_binary true 3 (Some (Number 1)) 0 [op "@"; num "2"]
     = Throw std_out_of_range
  /\ parse_toplevel true 3 [num "1"; op "@"; num "2"] = Throw std_out_of_range.
Proof.
  destruct (C10_unguarded_precedence_lookup true) as [_ [Hin [Hout Hex]]].
  split; [|split].
  - apply (Hin 2%nat (Some (Number 1)) 0 (op "+") [num "2"]);
      [reflexivity | simpl; tauto].
  - apply (Hout 2%nat (Some (Number 1)) 0 (op "@") [num "2"]);
      [reflexivity|].
    simpl. intros H.
    repeat (destruct H as [H|H]; [discriminate H|]). exact H.
  - apply (Hex 3%nat); lia.
Defined.

(** C9 on a number token in the place of the name. *)
Lemma C9_witness :
  parse_ext 2 [kw "ext"; num "5"; punc "("; punc ")"]
  = Diag "Function name expected"
  /\ parse_ext 2 [kw "ext"] = Diag "Function name expected"
  /\ parse_func 2 (parse_expr true 2) [kw "def"; num "5"; num "1"]
     = parse_func 2 (parse_expr true 2) [kw "def"; var "5"; num "1"]
  /\ parse_toplevel true 4 [kw "def"; num "5"; num "1"]
     = Ok [Some (Function "5" [] (Some (Number 1)))].
Proof.
  destruct (C9_function_name_check_only_in_ext true) as [He [Hn [Hd Hex]]].
  split; [|split; [|split]].
  - apply He; reflexivity.
  - apply Hn; reflexivity.
  - apply Hd; reflexivity.
  - apply (Hex 4%nat); lia.
Defined.

(** C6 on [{1}], [{};] and [{1;2;3}]. *)
Lemma C6_witness :
  (exists vars,
      delimited 3 "{" "}" ";" (parse_expr true 3) [punc "{"; num "1"; punc "}"]
      = Ok (vars, [])
      /\ (Some (Program [Some (Number 1)]) = None <-> vars = [])
      /\ (vars <> [] -> Some (Program [Some (Number 1)])
                        = Some (Program vars)))
  /\ parse_prog true 2 [punc "{"; punc "}"; punc ";"] = Ok (None, [punc ";"])
  /\ parse_prog true 6
       [punc "{"; num "1"; punc ";"; num "2"; punc ";"; num "3"; punc "}"]
     = Ok (Some (Program [Some (Number 1); Some (Number 2);
                          Some (Number 3)]), []).
Proof.
  destruct (C6_block_null_iff_empty true) as [Hiff [Hempty Hex]].
  split; [|split].
  - apply (Hiff 4%nat [punc "{"; num "1"; punc "}"]). reflexivity.
  - apply Hempty; lia.
  - apply Hex; lia.
Defined.

(** C5 on a list of names and on [f(1,2,)]. *)
Lemma C5_witness :
  delimited_tail 1 ")" "," parse_varname false ["x"] [punc ","; punc ")"]
  = Ok (["x"], [])
  /\ delimited_tail 1 ")" "," parse_varname false ["x"] [punc ")"]
     = Ok (["x"], [])
  /\ parse_toplevel true 6
       [var "f"; punc "("; num "1"; punc ","; num "2"; punc ","; punc ")"]
     = Ok [Some (Call (Some (Identifier "f"))
                   [Some (Number 1); Some (Number 2)])].
Proof.
  destruct (C5_trailing_separator_tolerated true) as [Hgen Hex].
  split; [|split].
  - apply (Hgen string 0%nat ")"%char ","%char parse_varname ["x"]
             (punc ",") (punc ")") []); reflexivity.
  - apply (Hgen string 0%nat ")"%char ","%char parse_varname ["x"]
             (punc ",") (punc ")") []); reflexivity.
  - apply (Hex 6%nat); lia.
Defined.

(** C2 on [true()], [f()()] and [f()()()]. *)
Lemma C2_witness :
  maybe_call 1 (parse_expr true 1) (upcast parse_bool)
    [kw "true"; punc "("; punc ")"]
  = Ok (Some (Call (Some (Boolean true)) []), [])
  /\ parse_atom true 3
    [var "f"; punc "("; punc ")"; punc "("; punc ")"]
  = Ok (Some (Call (Some (Identifier "f")) []), [punc "("; punc ")"])
  /\ parse_expr true 4
       [var "f"; punc "("; punc ")"; punc "("; punc ")"; punc "("; punc ")"]
     = Ok (Some (Call (Some (Call (Some (Identifier "f")) [])) []),
           [punc "("; punc ")"])
  /\ parse_toplevel true 4
       [var "f"; punc "("; punc ")"; punc "("; punc ")"; punc "("; punc ")"]
     = Diag "Token ';' expected".
Proof.
  destruct (C2_call_wrapped_once_per_site true) as [Hgen [Ha [He Ht]]].
  split; [|split; [|split]].
  - exact (Hgen 1%nat (parse_expr true 1) (upcast parse_bool)
             [kw "true"; punc "("; punc ")"] (Some (Boolean true))
             [punc "("; punc ")"] eq_refl).
  - apply Ha; lia.
  - apply He; lia.
  - apply (Ht 4%nat); lia.
Defined.

(** [f()()] is read, as a call of a call. *)
Lemma C2_counterexample :
  parse_toplevel true 4 [var "f"; punc "("; punc ")"; punc "("; punc ")"]
  = Ok [Some (Call (Some (Call (Some (Identifier "f")) [])) [])].
Proof. reflexivity. Qed.

(** C8 on a stream that ends after an opening parenthesis, after [(1],
    after [(1,2] and after [(1+2], and on [(1;]. *)
Lemma C8_witness :
  delimited 1 "(" ")" "," (parse_expr true 3) [punc "("]
  = Diag "Token ')' expected"
  /\ parse_atom true 4 [punc "("; num "1"] = Diag "Token ')' expected"
  /\ parse_atom true 4 [punc "("; num "1"; punc ";"]
     = Diag "Token ')' expected"
  /\ (exists m,
        delimited 3 "(" ")" "," (parse_expr true 3)
          [punc "("; num "1"; punc ","; num "2"] = Diag m
        /\ (list_message "(" ")" "," m \/ raised m))
  /\ (exists m,
        parse_atom true 5 [punc "("; num "1"; op "+"; num "2"] = Diag m
        /\ raised m)
  /\ parse_toplevel true 6 [var "f"; punc "("; num "1"]
     = Diag "Token ')' expected".
Proof.
  destruct (C8_end_of_stream_in_open_construct true)
    as [_ [Hopen [_ [_ [Hgroup [Hany [_ [Hlist [_ [_ [Hcut Hex]]]]]]]]]]].
  repeat apply conj.
  - apply (Hopen _ 0%nat "("%char ")"%char ","%char (parse_expr true 3)
             (punc "(")). reflexivity.
  - apply (Hgroup 3%nat (punc "(") [num "1"] (Some (Number 1)));
      reflexivity.
  - apply (Hany 3%nat (punc "(") [num "1"; punc ";"] (Some (Number 1))
             [punc ";"]); reflexivity.
  - apply (Hlist 3%nat 3%nat "("%char ")"%char ","%char
             [punc "("; num "1"; punc ","; num "2"] [punc ")"; punc ";"]
             [Some (Number 1); Some (Number 2)] [punc ";"]);
      [reflexivity | simpl; lia].
  - apply (Hcut 4%nat (punc "(") [num "1"; op "+"; num "2"] [punc ")"]
             (Some (Binary "+" (Some (Number 1)) (Some (Number 2))))
             [punc ")"]);
      [reflexivity | reflexivity | simpl; lia].
  - apply (Hex 6%nat); lia.
Defined.

(** The message raised at the end of the stream is raised where the stream
    goes on as well: [(1] and [(1;] both give "Token ')' expected", and
    [f(1,] and [f(1,}] both give "Unexpected token" with the empty text. *)
Lemma C8_counterexample :
  parse_toplevel true 6 [punc "("; num "1"] = Diag "Token ')' expected"
  /\ parse_toplevel true 6 [punc "("; num "1"; punc ";"]
     = Diag "Token ')' expected"
  /\ parse_toplevel true 6 [var "f"; punc "("; num "1"; punc ","]
     = Diag (msg_unexpected null_token)
  /\ parse_toplevel true 6 [var "f"; punc "("; num "1"; punc ","; punc "}"]
     = Diag (msg_unexpected null_token).
Proof. repeat split; reflexivity. Qed.

(** C7 on [1+{2}], on [def f {}], on [f({})] and on [cls(x){}], and on
    [1+{}] with its block filled. *)
Lemma C7_witness :
  Forall (fun o => exists e, o = Some e /\ fully_formed e = true)
    [Some (Binary "+" (Some (Number 1))
             (Some (Program [Some (Number 2)])))]
  /\ suspect [kw "def"; var "f"; punc "{"; punc "}"] = false
  /\ Forall (fun o => forall e, o = Some e -> fully_formed e = true)
       [Some (Function "f" [] None)]
  /\ suspect [var "f"; punc "("; punc "{"; punc "}"; punc ")"] = false
  /\ Forall (fun o => forall e, o = Some e -> fully_formed e = true)
       [Some (Call (Some (Identifier "f")) [None])]
  /\ suspect [kw "cls"; punc "("; var "x"; punc ")"; punc "{"; punc "}"]
     = false
  /\ Forall (fun o => forall e, o = Some e -> fully_formed e = true)
       [Some (Closure ["x"] None)]
  /\ (exists ast',
        parse_toplevel true (5 + 2)
          (fill "x" [num "1"; op "+"; punc "{"; punc "}"]) = Ok ast'
        /\ Forall2 (fills "x") [Some (Binary "+" (Some (Number 1)) None)]
             ast'
        /\ Forall (fun o => exists e, o = Some e /\ fully_formed e = true)
             ast').
Proof.
  destruct (C7_nodes_fully_formed_without_empty_block true)
    as [Hnone [Hplaced [Hfill _]]].
  repeat apply conj; try reflexivity.
  - apply (Hnone 7%nat [num "1"; op "+"; punc "{"; num "2"; punc "}"]);
      reflexivity.
  - apply (Hplaced 6%nat [kw "def"; var "f"; punc "{"; punc "}"]);
      [|reflexivity].
    intros Hm. apply misplaced_suspect in Hm. discriminate Hm.
  - apply (Hplaced 6%nat [var "f"; punc "("; punc "{"; punc "}"; punc ")"]);
      [|reflexivity].
    intros Hm. apply misplaced_suspect in Hm. discriminate Hm.
  - apply (Hplaced 6%nat
             [kw "cls"; punc "("; var "x"; punc ")"; punc "{"; punc "}"]);
      [|reflexivity].
    intros Hm. apply misplaced_suspect in Hm. discriminate Hm.
  - apply (Hfill "x" 5%nat [num "1"; op "+"; punc "{"; punc "}"]).
    reflexivity.
Defined.

(** [1+{}] is read as a [Binary] whose right operand is null. *)
Lemma C7_counterexample :
  parse_toplevel true 5 [num "1"; op "+"; punc "{"; punc "}"]
  = Ok [Some (Binary "+" (Some (Number 1)) None)]
  /\ fully_formed (Binary "+" (Some (Number 1)) None) = false.
Proof. split; reflexivity. Qed.

(** X1 on [f(1)+2;x]. *)
Lemma X1_witness :
  parse_expr true 5
    [var "f"; punc "("; num "1"; punc ")"; op "+"; num "2"; punc ";";
     var "x"]
  = Ok (Some (Binary "+"
                (Some (Call (Some (Identifier "f")) [Some (Number 1)]))
                (Some (Number 2))), [punc ";"; var "x"])
  /\ exists pre,
       pre <> []
       /\ [var "f"; punc "("; num "1"; punc ")"; op "+"; num "2"; punc ";";
           var "x"] = (pre ++ [punc ";"; var "x"])%list.
Proof.
  split; [reflexivity|].
  apply (proj1 (proj2 (X1_successful_parse_consumes true)) 5%nat _
           (Some (Binary "+"
                    (Some (Call (Some (Identifier "f")) [Some (Number 1)]))
                    (Some (Number 2))))).
  reflexivity.
Defined.

(** X2 on [1+2]. *)
Lemma X2_witness :
  forallb known_token [num "1"; op "+"; num "2"] = true
  /\ parse_toplevel true 5 [num "1"; op "+"; num "2"]
     <> Throw std_out_of_range.
Proof.
  split; [reflexivity|].
  apply (proj1 (X2_no_exception_on_known_tokens true) 5%nat). reflexivity.
Defined.

(** X3 on [f(1], where the stream ends in the argument list. *)
Lemma X3_witness :
  parse_toplevel true 5 [var "f"; punc "("; num "1"]
  = Diag "Token ')' expected"
  /\ raised "Token ')' expected".
Proof.
  split; [reflexivity|].
  apply (proj1 (X3_diagnostics_of_the_parser true) 5%nat
           [var "f"; punc "("; num "1"]).
  reflexivity.
Defined.

(** X4 on [1+2]. *)
Lemma X4_witness :
  (3 * length [num "1"; op "+"; num "2"] + 3 <= 12)%nat
  /\ parse_toplevel true 12 [num "1"; op "+"; num "2"]
     = parse_toplevel true 20 [num "1"; op "+"; num "2"].
Proof.
  split; [simpl; lia|].
  destruct (X4_parse_toplevel_terminates true [num "1"; op "+"; num "2"])
    as [r [_ Hr]].
  rewrite (Hr 12%nat), (Hr 20%nat); [reflexivity | simpl; lia ..].
Defined.

(** X5 on [1+2*3-4;]. *)
Lemma X5_witness :
  exists s,
    parse_expr true 7
      [num "1"; op "+"; num "2"; op "*"; num "3"; op "-"; num "4";
       punc ";"]
    = Ok (build s, [punc ";"])
    /\ first_leaf s = Some (Number 1)
    /\ items s = [("+", Some (Number 2)); ("*", Some (Number 3));
                  ("-", Some (Number 4))]
    /\ climbed s = true.
Proof.
  destruct (X5_precedence_climbing_shape true 1%nat
              [num "1"] (Some (Number 1))
              [("+", [num "2"], Some (Number 2));
               ("*", [num "3"], Some (Number 3));
               ("-", [num "4"], Some (Number 4))] 7%nat [punc ";"])
    as [s [H1 [H2 [H3 [H4 _]]]]].
  - apply parses_atom_num; reflexivity.
  - repeat constructor; try (now exists 10); try (now exists 20);
      apply parses_atom_num; reflexivity.
  - reflexivity.
  - reflexivity.
  - simpl; lia.
  - exists s. repeat split; assumption.
Defined.

(** X6 on the list of names [(a,b)]. *)
Lemma X6_witness :
  delimited 3 "(" ")" "," parse_varname
    [punc "("; var "a"; punc ","; var "b"; punc ")"]
  = Ok (["a"; "b"], []).
Proof.
  apply (proj1 (X6_delimited_reads_items_in_order string parse_varname
                  "(" ")" "," (punc "(") (punc ",") (punc ")")
                  eq_refl eq_refl eq_refl eq_refl)
           [[var "a"]; [var "b"]] ["a"; "b"] 3%nat []).
  - constructor; [|constructor; [|constructor]].
    + split; [exists (var "a"), []; now split|].
      intros t rest _. reflexivity.
    + split; [exists (var "b"), []; now split|].
      intros t rest _. reflexivity.
  - simpl; lia.
Defined.

(** X7 on [1;x] and [1;x;]. *)
Lemma X7_witness :
  parse_toplevel true 6 [num "1"; punc ";"; var "x"]
  = Ok [Some (Number 1); Some (Identifier "x")]
  /\ parse_toplevel true 6 [num "1"; punc ";"; var "x"; punc ";"]
     = Ok [Some (Number 1); Some (Identifier "x")].
Proof.
  destruct (proj1 (X7_toplevel_sequence true) 3%nat (punc ";")
              [[num "1"]; [var "x"]]
              [Some (Number 1); Some (Identifier "x")] 6%nat)
    as [H1 H2].
  - reflexivity.
  - constructor; [|constructor; [|constructor]].
    + apply (atom_expr true 1). apply parses_atom_num. reflexivity.
    + apply (atom_expr true 1). apply parses_atom_var.
  - simpl; lia.
  - split; [exact H1 | apply H2; discriminate].
Defined.


(** X9 on [1*(2+3)] and [(1*2)+3]. *)
Lemma X9_witness :
  parse_expr true 10
    [num "1"; op "*"; punc "("; num "2"; op "+"; num "3"; punc ")"]
  = Ok (Some (Binary "*" (Some (Number 1))
                (Some (Binary "+" (Some (Number 2)) (Some (Number 3))))),
        [])
  /\ parse_expr true 10
       [punc "("; num "1"; op "*"; num "2"; punc ")"; op "+"; num "3"]
     = Ok (Some (Binary "+"
                   (Some (Binary "*" (Some (Number 1)) (Some (Number 2))))
                   (Some (Number 3))), []).
Proof.
  apply (proj2 (X9_parentheses_group true) 1%nat "*" "+" 20 10
           [num "1"] [num "2"] [num "3"]
           (Some (Number 1)) (Some (Number 2)) (Some (Number 3)) 10%nat []).
  - reflexivity.
  - reflexivity.
  - apply parses_atom_num; reflexivity.
  - apply parses_atom_num; reflexivity.
  - apply parses_atom_num; reflexivity.
  - reflexivity.
  - reflexivity.
  - simpl; lia.
Defined.

(** X10 on [) x], where the diagnostic names [x]. *)
Lemma X10_witness :
  starts_atom (punc ")") = false
  /\ parse_toplevel true 2 [punc ")"; var "x"]
     = Diag (msg_unexpected (var "x")).
Proof.
  split; [reflexivity|].
  apply (X10_unexpected_names_following_token true (punc ")") [var "x"]
           0%nat).
  reflexivity.
Defined.

(** X11 on [int a,] and on [int,]. *)
Lemma X11_witness :
  parse_param [var "int"; var "a"; punc ","]
  = Ok (mkParam "int" "a", [punc ","])
  /\ parse_param [var "int"; punc ","]
     = Ok (mkParam "int" EmptyString, [punc ","]).
Proof.
  split.
  - apply (proj1 X11_parse_param_reads_type_then_name
             (var "int") (var "a") [punc ","]); reflexivity.
  - apply (proj1 (proj2 X11_parse_param_reads_type_then_name)
             (var "int") [punc ","]); [reflexivity | discriminate].
Defined.

(** X12 on [1+2]. *)
Lemma X12_witness :
  has_cls [num "1"; op "+"; num "2"] = false
  /\ parse_toplevel true 5 [num "1"; op "+"; num "2"]
     = parse_toplevel false 5 [num "1"; op "+"; num "2"].
Proof.
  split; [reflexivity|].
  apply (proj1 X12_tree_independent_of_closure_order). reflexivity.
Defined.

(** X13 on [cls(x){x}], read with the parameter list first and refused with
    the body first. *)
Lemma X13_witness :
  parse_toplevel true 5
    [kw "cls"; punc "("; var "x"; punc ")"; punc "{"; var "x"; punc "}"]
  = Ok [Some (Closure ["x"] (Some (Program [Some (Identifier "x")])))]
  /\ parse_toplevel false 5
       [kw "cls"; punc "("; var "x"; punc ")"; punc "{"; var "x"; punc "}"]
     = Diag (msg_token_expected "{").
Proof.
  split; [reflexivity|].
  apply (proj1 X13_closure_syntax_depends_on_evaluation_order 5%nat 5%nat
           [punc "("; var "x"; punc ")"; punc "{"; var "x"; punc "}"]
           [Some (Closure ["x"] (Some (Program [Some (Identifier "x")])))]).
  - reflexivity.
  - lia.
Defined.

(** X14 on [f(1,x)] and on [{1;x}]. *)
Lemma X14_witness :
  parse_atom true 7
    [var "f"; punc "("; num "1"; punc ","; var "x"; punc ")"]
  = Ok (Some (Call (Some (Identifier "f"))
                [Some (Number 1); Some (Identifier "x")]), [])
  /\ parse_prog true 7 [punc "{"; num "1"; punc ";"; var "x"; punc "}"]
     = Ok (Some (Program [Some (Number 1); Some (Identifier "x")]), []).
Proof.
  destruct (X14_arguments_and_blocks_in_order true 3%nat
              [[num "1"]; [var "x"]]
              [Some (Number 1); Some (Identifier "x")] 7%nat)
    as [H1 H2].
  - constructor; [|constructor; [|constructor]].
    + apply (atom_expr true 1). apply parses_atom_num. reflexivity.
    + apply (atom_expr true 1). apply parses_atom_var.
  - simpl; lia.
  - split; [apply (H1 "f" []) | apply (H2 []); discriminate].
Defined.

(** X15 on [ext f(int a, int)] and on [def f(int a, int) 1]. *)
Lemma X15_witness :
  parse_atom true 4
    [kw "ext"; var "f"; punc "("; var "int"; var "a"; punc ",";
     var "int"; punc ")"]
  = Ok (Some (Function "f" [mkParam "int" "a"; mkParam "int" EmptyString]
                None), [])
  /\ parse_atom true 4
       [kw "def"; var "f"; punc "("; var "int"; var "a"; punc ",";
        var "int"; punc ")"; num "1"]
     = Ok (Some (Function "f" [mkParam "int" "a"; mkParam "int" EmptyString]
                   (Some (Number 1))), []).
Proof.
  destruct (X15_function_declarations true
              [mkParam "int" "a"; mkParam "int" EmptyString] 4%nat)
    as [H1 [_ [H3 _]]].
  - simpl; lia.
  - split.
    + apply (H1 "f" []). reflexivity.
    + apply (H3 3%nat (var "f") [num "1"] (Some (Number 1)) []).
      * apply (atom_expr true 1). apply parses_atom_num. reflexivity.
      * lia.
      * reflexivity.
      * reflexivity.
Defined.
